(** * pl.lex: a regex-driven tokenizer, embedded and verified

    Shallow embedding of [pl/lex.py] (the source/position model, tokens,
    the longest-match engine and its diagnostic renderer) and of the
    mode-switching lexer of [pl/langs/xml.py].

    Python strings are lists of characters; Python exceptions and the
    mutable cursor of a lexer instance are made explicit by a small
    state-and-exception monad. *)

From Stdlib Require Import Ascii String DecimalString.
From Stdlib Require Import List Arith Bool Lia PeanoNat ZArith.
Import ListNotations.
Open Scope list_scope.
Open Scope nat_scope.

(* ================================================================== *)
(** * Strings *)
(* ================================================================== *)

(** A Python [str]: a sequence of characters. *)
Abbreviation str := (list ascii).

Definition lit (s : string) : str := list_ascii_of_string s.

Fixpoint str_eqb (a b : str) : bool :=
  match a, b with
  | [], [] => true
  | x :: a', y :: b' => Ascii.eqb x y && str_eqb a' b'
  | _, _ => false
  end.

Definition NL : ascii := "010"%char.
Definition TAB : ascii := "009"%char.
Definition SPACE : ascii := " "%char.

(** [str(n)] for a non-negative integer. *)
Definition str_of_nat (n : nat) : str :=
  lit (NilEmpty.string_of_uint (Nat.to_uint n)).

(** [' ' * n] *)
Definition spaces (n : nat) : str := repeat SPACE n.

(** [f"{s:>{width}}"]: right-aligned in a field of [width] characters. *)
Definition rjust (s : str) (width : nat) : str :=
  spaces (width - length s) ++ s.

(** [sep.join(parts)] *)
Fixpoint join (sep : str) (parts : list str) : str :=
  match parts with
  | [] => []
  | [p] => p
  | p :: rest => p ++ sep ++ join sep rest
  end.

(** [s.split("\n")]: never empty, and no piece holds a newline. *)
Fixpoint split_lines (s : str) : list str :=
  match s with
  | [] => [[]]
  | c :: s' =>
      if Ascii.eqb c NL then [] :: split_lines s'
      else match split_lines s' with
           | l :: ls => (c :: l) :: ls
           | [] => [[c]]
           end
  end.

(* ================================================================== *)
(** * Cursor and CursorRange *)
(* ================================================================== *)

Record Cursor := mkCursor { row : nat; col : nat }.

(** [Cursor.__str__] *)
Definition Cursor_str (self : Cursor) : str :=
  lit "row " ++ str_of_nat (row self + 1) ++ lit " col " ++ str_of_nat (col self + 1).

(** dataclass equality *)
Definition Cursor_eqb (self other : Cursor) : bool :=
  (row self =? row other) && (col self =? col other).

(** [Cursor.__lt__] *)
Definition Cursor_lt (self other : Cursor) : bool :=
  (row self <? row other) || ((row self =? row other) && (col self <? col other)).

(** [__gt__] and [__le__] as [functools.total_ordering] derives them from
    [__lt__] and [__eq__]. *)
Definition Cursor_gt (self other : Cursor) : bool :=
  negb (Cursor_lt self other) && negb (Cursor_eqb self other).

Definition Cursor_le (self other : Cursor) : bool :=
  Cursor_lt self other || Cursor_eqb self other.

Record CursorRange := mkCursorRange { start : Cursor; end_ : Cursor }.

(* ================================================================== *)
(** * Exceptions and outcomes *)
(* ================================================================== *)

(** The exceptions the code can raise.  [Lexer_Error] records the position
    its constructor was given and the report text it built. *)
Inductive exn : Type :=
| IndexError
| StopIteration
| ValueError
| Lexer_Error (pos : Cursor) (report : str).

(** The outcome of running a piece of code: a value, an exception, or, for
    loops run with a bound on their iterations, the bound being reached. *)
Inductive outcome (A : Type) : Type :=
| Ret (a : A)
| Raise (e : exn)
| OutOfFuel.

Arguments Ret {A} a.
Arguments Raise {A} e.
Arguments OutOfFuel {A}.

Definition obind {A B} (m : outcome A) (k : A -> outcome B) : outcome B :=
  match m with
  | Ret a => k a
  | Raise e => Raise e
  | OutOfFuel => OutOfFuel
  end.

Notation "'do' x <- m ; k" := (obind m (fun x => k))
  (at level 10, x name, m at level 100, k at level 200).

(** [l[i]] for a non-negative index. *)
Definition getitem {A} (l : list A) (i : nat) : outcome A :=
  match nth_error l i with
  | Some x => Ret x
  | None => Raise IndexError
  end.

(** [CursorRange.__post_init__] *)
Definition CursorRange_init (start end_ : Cursor) : outcome CursorRange :=
  if Cursor_gt start end_ then Raise ValueError
  else Ret (mkCursorRange start end_).

(* ================================================================== *)
(** * Source *)
(* ================================================================== *)

Record Source := mkSource { lines : list str }.

(** [Source.__post_init__] *)
Definition Source_init (src : str) : Source := mkSource (split_lines src).

Definition rows (self : Source) : nat := length (lines self).

Definition cols (self : Source) (row : nat) : outcome nat :=
  do line <- getitem (lines self) row; Ret (length line).

(** [valid]: [and] short-circuits, so no row beyond the buffer is read. *)
Definition valid (self : Source) (pos : Cursor) : bool :=
  if row pos <? rows self
  then match nth_error (lines self) (row pos) with
       | Some line => col pos <=? length line
       | None => false
       end
  else false.

Definition EOF : str := lit "eof".

(** [char_at]: a one-character string, ["\n"] at the end of a line that is
    not the last, ["eof"] at the end of the last line. *)
Definition char_at (self : Source) (pos : Cursor) : outcome str :=
  do n <- cols self (row pos);
  if col pos =? n then
    Ret (if row pos =? rows self - 1 then EOF else [NL])
  else
    do line <- getitem (lines self) (row pos);
    do c <- getitem line (col pos);
    Ret [c].

(** [next] with the default [n = 1] *)
Definition next (self : Source) (pos : Cursor) : outcome Cursor :=
  do c <- char_at self pos;
  if str_eqb c EOF then Raise StopIteration
  else
    do n <- cols self (row pos);
    if col pos =? n then Ret (mkCursor (row pos + 1) 0)
    else Ret (mkCursor (row pos) (col pos + 1)).

(** [for _ in range(n): pos = self.next(pos)] *)
Fixpoint next_times (self : Source) (pos : Cursor) (n : nat) : outcome Cursor :=
  match n with
  | 0 => Ret pos
  | S m => do p <- next self pos; next_times self p m
  end.

(** [next(pos, n=n)]: [match n] with [case 1] and [case _]. *)
Definition next_n (self : Source) (pos : Cursor) (n : nat) : outcome Cursor :=
  match n with
  | 1 => next self pos
  | _ => next_times self pos n
  end.

(** ** The generator [range]

    [range(start, end)] is a generator; it is modelled by what it does when
    asked for its first position ([range_start]: the test [pos != end]) and
    what it does when resumed after having yielded [pos] ([range_resume]:
    stop at ["eof"], else step and test again).  [None] as the end is
    Python's [None]: no cursor equals it. *)
Definition range_start (pos : Cursor) (end_ : option Cursor) : option Cursor :=
  match end_ with
  | Some e => if Cursor_eqb pos e then None else Some pos
  | None => Some pos
  end.

Definition range_resume (self : Source) (pos : Cursor) (end_ : option Cursor)
  : outcome (option Cursor) :=
  do c <- char_at self pos;
  if str_eqb c EOF then Ret None
  else do p <- next self pos; Ret (range_start p end_).

(** The number of positions from [pos] to the end-of-input position: a bound
    on how many positions [range] can yield from [pos]. *)
Definition tail_size (ls : list str) : nat :=
  list_sum (map (fun l => S (length l)) ls).

Definition remaining (self : Source) (pos : Cursor) : nat :=
  tail_size (skipn (row pos) (lines self)) - col pos.

(** [str_at]: [''.join(self[pos] for pos in self.range(start, end))].
    [cur] is the position the generator yields next, if any. *)
Fixpoint str_at_from (fuel : nat) (self : Source) (cur : option Cursor)
    (end_ : Cursor) : outcome str :=
  match cur with
  | None => Ret []
  | Some pos =>
      match fuel with
      | 0 => OutOfFuel
      | S fuel' =>
          do c <- char_at self pos;
          do cur' <- range_resume self pos (Some end_);
          do rest <- str_at_from fuel' self cur' end_;
          Ret (c ++ rest)
      end
  end.

(** The generator yields at most [S (remaining self start)] positions, so
    this many iterations are never used up ([str_at_terminates]). *)
Definition str_at (self : Source) (rng : CursorRange) : outcome str :=
  str_at_from (S (remaining self (start rng))) self
    (range_start (start rng) (Some (end_ rng))) (end_ rng).

(** [Source.len]: [sum(1 for _ in self.range(rng.start, rng.end))]. *)
Fixpoint len_from (fuel : nat) (self : Source) (cur : option Cursor)
    (end_ : Cursor) : outcome nat :=
  match cur with
  | None => Ret 0
  | Some pos =>
      match fuel with
      | 0 => OutOfFuel
      | S fuel' =>
          do cur' <- range_resume self pos (Some end_);
          do n <- len_from fuel' self cur' end_;
          Ret (1 + n)
      end
  end.

Definition Source_len (self : Source) (rng : CursorRange) : outcome nat :=
  len_from (S (remaining self (start rng))) self
    (range_start (start rng) (Some (end_ rng))) (end_ rng).

(** ** Positions as Python integers

    The two fields of a cursor are integers.  The engine makes its cursors
    by [Cursor(0, 0)] and by [next] only, which is why they are modelled
    above with natural numbers; a caller can hand [valid], [char_at] and
    [next] any integers, and there Python's indexing counts a negative
    index from the end.  These are the three functions over integer
    cursors; on the cursors above they are the functions above
    ([valid_int_to_int], [char_at_int_to_int], [next_int_to_int]). *)
Record IntCursor := mkIntCursor { int_row : Z; int_col : Z }.

Definition to_int (p : Cursor) : IntCursor :=
  mkIntCursor (Z.of_nat (row p)) (Z.of_nat (col p)).

(** [l[i]] for any integer index. *)
Definition getitem_int {A} (l : list A) (i : Z) : outcome A :=
  if (0 <=? i)%Z then getitem l (Z.to_nat i)
  else if (- Z.of_nat (length l) <=? i)%Z
       then getitem l (Z.to_nat (Z.of_nat (length l) + i))
       else Raise IndexError.

Definition cols_int (self : Source) (row : Z) : outcome Z :=
  do line <- getitem_int (lines self) row; Ret (Z.of_nat (length line)).

(** [valid]: it reads [self.cols(row)] only when [row < self.rows], and
    that read can raise for a negative row. *)
Definition valid_int (self : Source) (pos : IntCursor) : outcome bool :=
  if (int_row pos <? Z.of_nat (rows self))%Z
  then do n <- cols_int self (int_row pos); Ret (int_col pos <=? n)%Z
  else Ret false.

Definition char_at_int (self : Source) (pos : IntCursor) : outcome str :=
  do n <- cols_int self (int_row pos);
  if (int_col pos =? n)%Z then
    Ret (if (int_row pos =? Z.of_nat (rows self) - 1)%Z then EOF else [NL])
  else
    do line <- getitem_int (lines self) (int_row pos);
    do c <- getitem_int line (int_col pos);
    Ret [c].

Definition next_int (self : Source) (pos : IntCursor) : outcome IntCursor :=
  do c <- char_at_int self pos;
  if str_eqb c EOF then Raise StopIteration
  else
    do n <- cols_int self (int_row pos);
    if (int_col pos =? n)%Z then Ret (mkIntCursor (int_row pos + 1) 0)
    else Ret (mkIntCursor (int_row pos) (int_col pos + 1)).

(* ================================================================== *)
(** * Patterns *)
(* ================================================================== *)

(** Python's [re] module is not part of the repository.  A compiled pattern
    is taken as its [match] method: given a string, the end offset of the
    match at its start ([match.end()]), or [None].

    For the vocabularies the code declares, the pattern strings are
    written as terms of a small regular-expression syntax, run by a
    backtracking matcher with Python's priorities: a star takes as many
    repetitions as it can and gives them back one at a time, an
    alternation tries its left branch first. *)
Inductive re : Type :=
| Eps
| Class (p : ascii -> bool)
| Cat (r1 r2 : re)
| Alt (r1 r2 : re)
| Star (r : re).

Fixpoint re_run (r : re) (s : str) (k : str -> option nat) {struct r} : option nat :=
  match r with
  | Eps => k s
  | Class p =>
      match s with
      | c :: s' => if p c then k s' else None
      | [] => None
      end
  | Cat r1 r2 => re_run r1 s (fun s' => re_run r2 s' k)
  | Alt r1 r2 =>
      match re_run r1 s k with
      | Some n => Some n
      | None => re_run r2 s k
      end
  | Star r' =>
      (fix star (fuel : nat) (s : str) {struct fuel} : option nat :=
         match fuel with
         | 0 => k s
         | S fuel' =>
             match re_run r' s
                     (fun s' => if length s' <? length s then star fuel' s' else None) with
             | Some n => Some n
             | None => k s
             end
         end) (length s) s
  end.

(** [pattern.match(s)], as [match.end()]. *)
Definition re_match (r : re) (s : str) : option nat :=
  re_run r s (fun s' => Some (length s - length s')).

Definition chr (c : ascii) : re := Class (Ascii.eqb c).

(** A literal string *)
Definition Lit (s : string) : re :=
  fold_right (fun c r => Cat (chr c) r) Eps (lit s).

Definition between (lo hi c : ascii) : bool :=
  (nat_of_ascii lo <=? nat_of_ascii c) && (nat_of_ascii c <=? nat_of_ascii hi).

(** A character that is one of those of [s] *)
Definition one_of (s : string) (c : ascii) : bool :=
  existsb (Ascii.eqb c) (lit s).

Definition alpha (c : ascii) : bool :=
  between "A" "Z" c || between "a" "z" c.

Definition digit (c : ascii) : bool := between "0" "9" c.

(** [.]: any character but a newline *)
Definition Dot : re := Class (fun c => negb (Ascii.eqb c NL)).

(* ================================================================== *)
(** * Token *)
(* ================================================================== *)

(** A subclass of [Token] made by [Token.define]: its name and its
    compiled pattern. *)
Record TokenKind := mkTokenKind {
  token_type : str;
  regex : str -> option nat
}.

(** [Token.define] *)
Definition Token_define (token_type : string) (regex : re) : TokenKind :=
  mkTokenKind (lit token_type) (re_match regex).

(** An instance of a token class. *)
#[warnings="-register-all"]
Inductive Token : Type := mkToken {
  kind : TokenKind;
  token_src : Source;
  rng : CursorRange;
  lexeme : str;
  alternative : option Token
}.

(** [Token.__post_init__], run by the constructor [token_type(src, rng)]. *)
Definition Token_init (kind : TokenKind) (src : Source) (rng : CursorRange)
  : outcome Token :=
  do lexeme <- str_at src rng;
  Ret (mkToken kind src rng lexeme None).

(** [Token.len] *)
Definition Token_len (self : Token) : nat := length (lexeme self).

(** [match.alternative = result] *)
Definition set_alternative (self result : Token) : Token :=
  mkToken (kind self) (token_src self) (rng self) (lexeme self) (Some result).

(** The tokens met by walking [alternative] from a token, itself first. *)
Fixpoint chain (t : Token) : list Token :=
  t :: match alternative t with
       | Some a => chain a
       | None => []
       end.

Definition Character : TokenKind :=
  Token_define "Character" (Class (fun c => alpha c || digit c || Ascii.eqb c "_")).
Definition Identifier : TokenKind :=
  Token_define "Identifier"
    (Cat (Class (fun c => alpha c || Ascii.eqb c "_"))
         (Star (Class (fun c => alpha c || digit c || Ascii.eqb c "_")))).
Definition LeftParenthesis : TokenKind := Token_define "Left Parenthesis" (Lit "(").
Definition RightParenthesis : TokenKind := Token_define "Right Parenthesis" (Lit ")").
Definition LeftBracket : TokenKind := Token_define "Left Bracket" (Lit "[").
Definition RightBracket : TokenKind := Token_define "Right Bracket" (Lit "]").
Definition LeftBrace : TokenKind := Token_define "Left Brace" (Lit "{").
Definition RightBrace : TokenKind := Token_define "Right Brace" (Lit "}").
Definition LeftAngleBracket : TokenKind := Token_define "Left Angle Bracket" (Lit "<").
Definition RightAngleBracket : TokenKind := Token_define "Right Angle Bracket" (Lit ">").
Definition Plus : TokenKind := Token_define "Plus" (Lit "+").
Definition Minus : TokenKind := Token_define "Minus" (Lit "-").
Definition Asterisk : TokenKind := Token_define "Asterisk" (Lit "*").
Definition Slash : TokenKind := Token_define "Slash" (Lit "/").
Definition Equals : TokenKind := Token_define "Equals" (Lit "=").
Definition Question : TokenKind := Token_define "Question" (Lit "?").
Definition Exclamation : TokenKind := Token_define "Exclamation" (Lit "!").
Definition Pipe : TokenKind := Token_define "Pipe" (Lit "|").
Definition DoubleQuote : TokenKind := Token_define "DoubleQuote" (chr "034").
Definition SingleQuote : TokenKind := Token_define "SingleQuote" (Lit "'").

(* ================================================================== *)
(** * Lexer *)
(* ================================================================== *)

(** [Lexer.WHITESPACE] *)
Definition WHITESPACE : list str := [[SPACE]; [TAB]; [NL]].

(** [c in Lexer.WHITESPACE] *)
Definition in_WHITESPACE (c : str) : bool := existsb (str_eqb c) WHITESPACE.

(** ** Builtins used by the report *)

(** [list(range(a, b))] *)
Definition py_range (a b : nat) : list nat := seq a (b - a).

(** [max(xs)]: [ValueError] on an empty sequence. *)
Definition py_max (xs : list nat) : outcome nat :=
  match xs with
  | [] => Raise ValueError
  | x :: xs' => Ret (fold_left Nat.max xs' x)
  end.

(** [xs.index(x)]: [ValueError] when [x] is not in [xs]. *)
Fixpoint index (xs : list nat) (x : nat) : outcome nat :=
  match xs with
  | [] => Raise ValueError
  | y :: xs' => if y =? x then Ret 0 else do i <- index xs' x; Ret (S i)
  end.

(** [xs.insert(i, x)] *)
Definition insert {A} (xs : list A) (i : nat) (x : A) : list A :=
  firstn i xs ++ x :: skipn i xs.

(** A list comprehension whose body can raise. *)
Fixpoint for_each {A B} (f : A -> outcome B) (xs : list A) : outcome (list B) :=
  match xs with
  | [] => Ret []
  | x :: xs' => do y <- f x; do ys <- for_each f xs'; Ret (y :: ys)
  end.

(** [sorted(xs, key=key)]: ascending and stable. *)
Fixpoint insert_by {A} (key : A -> nat) (x : A) (xs : list A) : list A :=
  match xs with
  | [] => [x]
  | y :: xs' => if key x <=? key y then x :: xs else y :: insert_by key x xs'
  end.

Definition sorted {A} (key : A -> nat) (xs : list A) : list A :=
  fold_right (insert_by key) [] xs.

(** ** [Lexer.Error] *)

(** The rows [Lexer.Error.__init__] shows. *)
Definition rows_to_show (src : Source) (pos : Cursor) : list nat :=
  py_range (Nat.max 0 (row pos - 3)) (Nat.min (rows src) (row pos + 3)).

(** [Lexer.Error.__init__]: the exception built, or the one building it
    raises. *)
Definition Lexer_Error_init (src : Source) (pos : Cursor) (msg : str) : outcome exn :=
  let rows_to_show := rows_to_show src pos in
  do line_num_width <- py_max (map (fun row => length (str_of_nat (row + 1))) rows_to_show);
  do rows <- for_each
               (fun row =>
                  do line <- getitem (lines src) row;
                  Ret (lit "  " ++ rjust (str_of_nat (row + 1)) line_num_width
                         ++ lit " " ++ line))
               rows_to_show;
  do i <- index rows_to_show (row pos);
  let rows := insert rows (i + 1)
                (lit "  " ++ spaces line_num_width ++ lit " "
                   ++ spaces (col pos) ++ lit "^") in
  Ret (Lexer_Error pos (join [NL] (msg :: rows))).

(** ** [Lexer.Instance] *)

Record Instance := mkInstance { src : Source; pos : Cursor }.

(** [Lexer.Instance.__init__] *)
Definition Instance_init (src : Source) : Instance := mkInstance src (mkCursor 0 0).

(** A method of an instance: it ends with a value, an exception or its
    loop bound reached, and leaves the instance in some state either way. *)
Definition M (A : Type) : Type := Instance -> outcome A * Instance.

Definition mret {A} (a : A) : M A := fun self => (Ret a, self).

Definition mbind {A B} (m : M A) (k : A -> M B) : M B :=
  fun self =>
    match m self with
    | (Ret a, self') => k a self'
    | (Raise e, self') => (Raise e, self')
    | (OutOfFuel, self') => (OutOfFuel, self')
    end.

Notation "'do!' x <- m ; k" := (mbind m (fun x => k))
  (at level 10, x name, m at level 100, k at level 200).

(** A computation that does not touch the instance. *)
Definition lift {A} (o : outcome A) : M A := fun self => (o, self).

Definition get_self : M Instance := fun self => (Ret self, self).

(** [self.pos = p] *)
Definition set_pos (p : Cursor) : M unit :=
  fun self => (Ret tt, mkInstance (src self) p).

(** [skip_whitespace]: the [for] loop over [self.src.range(self.pos)];
    [cur] is the position the generator yields next, if any. *)
Fixpoint skip_whitespace_from (fuel : nat) (cur : option Cursor) : M unit :=
  match cur with
  | None => mret tt
  | Some p =>
      match fuel with
      | 0 => lift OutOfFuel
      | S fuel' =>
          do! self <- get_self;
          (* print(self.pos, self.src[self.pos]) *)
          do! _ <- lift (char_at (src self) (pos self));
          do! _ <- set_pos p;
          do! c <- lift (char_at (src self) p);
          if negb (in_WHITESPACE c) then mret tt
          else
            do! cur' <- lift (range_resume (src self) p None);
            skip_whitespace_from fuel' cur'
      end
  end.

(** The generator yields at most [S (remaining src pos)] positions, so this
    many iterations are never used up ([skip_whitespace_terminates]). *)
Definition skip_whitespace : M unit :=
  do! self <- get_self;
  skip_whitespace_from (S (remaining (src self) (pos self)))
    (range_start (pos self) None).

(** The [for] loop of [parse_token]; it reads the instance and leaves it
    as it is. *)
Fixpoint collect_matches (src : Source) (pos : Cursor)
    (token_types : list TokenKind) (matches : list Token) : outcome (list Token) :=
  match token_types with
  | [] => Ret matches
  | token_type :: token_types' =>
      do line <- getitem (lines src) (row pos);
      match regex token_type (skipn (col pos) line) with
      | None => collect_matches src pos token_types' matches
      | Some match_end =>
          do e <- next_n src pos match_end;
          do r <- CursorRange_init pos e;
          do token <- Token_init token_type src r;
          collect_matches src pos token_types' (matches ++ [token])
      end
  end.

(** [parse_token] *)
Definition parse_token (token_types : list TokenKind) : M Token :=
  do! self <- get_self;
  do! matches <- lift (collect_matches (src self) (pos self) token_types []);
  match matches with
  | [] =>
      do! e <- lift (Lexer_Error_init (src self) (pos self)
                       (lit "could not parse token at " ++ Cursor_str (pos self)));
      lift (Raise e)
  | _ :: _ =>
      let matches := sorted Token_len matches in
      do! longest <- lift (getitem matches (length matches - 1));
      let matches := filter (fun token => Token_len token =? Token_len longest) matches in
      do! result <- lift (getitem matches 0);
      let result := fold_left (fun result match_ => set_alternative match_ result)
                      (skipn 1 matches) result in
      do! _ <- set_pos (end_ (rng result));
      do! _ <- skip_whitespace;
      mret result
  end.

(** ** [GenericLexer] *)

(** The [while] loop of [GenericLexer.Instance.lex].  The [print] of its
    body reads again the character the loop test has just read, which is
    not the end-of-input marker, and so raises nothing. *)
Fixpoint lex_loop (fuel : nat) (token_types : list TokenKind) (result : list Token)
  : M (list Token) :=
  match fuel with
  | 0 => lift OutOfFuel
  | S fuel' =>
      do! self <- get_self;
      do! c <- lift (char_at (src self) (pos self));
      if str_eqb c EOF then mret result
      else
        do! token <- parse_token token_types;
        lex_loop fuel' token_types (result ++ [token])
  end.

(** [GenericLexer.Instance.lex] *)
Definition GenericLexer_Instance_lex (fuel : nat) (token_types : list TokenKind)
  : M (list Token) :=
  do! _ <- skip_whitespace;
  lex_loop fuel token_types [].

(** [Lexer.lex] of a [GenericLexer]: a fresh instance over [src] is run. *)
Definition GenericLexer_lex (fuel : nat) (token_types : list TokenKind) (src : Source)
  : outcome (list Token) :=
  fst (GenericLexer_Instance_lex fuel token_types (Instance_init src)).

(* ================================================================== *)
(** * The Xml lexer *)
(* ================================================================== *)

Module Xml.

(** The characters of the first class of [Text]: the printable ones but
    the space and [<]. *)
Definition text_start (c : ascii) : bool :=
  one_of "!" c || Ascii.eqb c "034" || one_of "#$%&'()*+,-./" c || digit c
  || one_of ":;=>?@" c || between "A" "Z" c || one_of "[\]^_`" c
  || between "a" "z" c || one_of "{|}~" c.

Definition name_char (c : ascii) : bool := alpha c || digit c.

Definition OpenXmlDeclaration : TokenKind :=
  Token_define "Open Xml Declaration" (Lit "<?xml").
Definition CloseXmlDeclaration : TokenKind :=
  Token_define "Close Xml Declaration" (Lit "?>").
Definition String : TokenKind :=
  Token_define "String"
    (Alt (Cat (chr "'") (Cat (Star (Class (fun c => negb (Ascii.eqb c "'")))) (chr "'")))
         (Cat (chr "034")
              (Cat (Star (Class (fun c => negb (Ascii.eqb c "034")))) (chr "034")))).
Definition TagName : TokenKind :=
  Token_define "Tag Name"
    (Cat (Class name_char) (Star (Class (fun c => name_char c || one_of "_.-" c)))).
Definition Comment : TokenKind :=
  Token_define "Comment" (Cat (Lit "<!--") (Cat (Star Dot) (Lit "-->"))).
Definition Cdata : TokenKind :=
  Token_define "CDATA"
    (Cat (Lit "<![CDATA[")
         (Cat (Star (Class (fun c => negb (Ascii.eqb c "]")))) (Lit "]]>"))).
Definition OpenTag : TokenKind := Token_define "Open Tag" (Lit "<").
Definition OpenSelfClosingTag : TokenKind := Token_define "Open Self-closing Tag" (Lit "</").
Definition CloseOpeningTag : TokenKind := Token_define "Close Opening Tag" (Lit ">").
Definition CloseClosingTag : TokenKind := Token_define "Close Closing Tag" (Lit "/>").
Definition Text : TokenKind :=
  Token_define "Text"
    (Cat (Class text_start)
         (Cat (Star (Class (fun c => Ascii.eqb c " " || text_start c)))
              (Class (fun c => negb (one_of " <" c || Ascii.eqb c TAB))))).

Definition token_types_excluding_text : list TokenKind :=
  [ OpenXmlDeclaration; CloseXmlDeclaration; TagName; Identifier; Equals; String;
    Comment; Cdata; OpenTag; OpenSelfClosingTag; CloseOpeningTag; CloseClosingTag ].

Definition token_types : list TokenKind := token_types_excluding_text ++ [Text].

(** The candidate list of one step of [Xml.Lexer.Instance.lex], chosen
    from the tokens emitted so far:
    [result and result[-1].token_type() == "Close Opening Tag"]. *)
Definition candidates (result : list Token) : list TokenKind :=
  match result with
  | [] => token_types_excluding_text
  | _ :: _ =>
      match nth_error result (length result - 1) with
      | Some last =>
          if str_eqb (token_type (kind last)) (lit "Close Opening Tag")
          then token_types
          else token_types_excluding_text
      | None => token_types_excluding_text
      end
  end.

(** The [while] loop of [Xml.Lexer.Instance.lex]. *)
Fixpoint lex_loop (fuel : nat) (result : list Token) : M (list Token) :=
  match fuel with
  | 0 => lift OutOfFuel
  | S fuel' =>
      do! self <- get_self;
      do! c <- lift (char_at (src self) (pos self));
      if str_eqb c EOF then mret result
      else
        do! token <- parse_token (candidates result);
        lex_loop fuel' (result ++ [token])
  end.

(** [Xml.Lexer.Instance.lex] *)
Definition Instance_lex (fuel : nat) : M (list Token) :=
  do! _ <- skip_whitespace;
  lex_loop fuel [].

(** [Lexer.lex] of an [Xml.Lexer] *)
Definition lex (fuel : nat) (src : Source) : outcome (list Token) :=
  fst (Instance_lex fuel (Instance_init src)).

End Xml.

(* ================================================================== *)
(** * Inputs of the examples *)
(* ================================================================== *)

(** A kind whose pattern, [a*], matches the empty string. *)
Definition As : TokenKind := Token_define "As" (Star (chr "a")).

(** The vocabulary of [test_0]. *)
Definition test_0_token_types : list TokenKind :=
  [Asterisk; Character; LeftParenthesis; Pipe; Plus; RightParenthesis; Question].

Definition origin : Cursor := mkCursor 0 0.

(** The source ["a"], which [Character] and [Identifier] both match whole,
    and the token [parse_token] returns for it. *)
Definition one_letter : Source := Source_init (lit "a").

Definition one_letter_rng : CursorRange := mkCursorRange origin (mkCursor 0 1).

Definition one_letter_token : Token :=
  mkToken Identifier one_letter one_letter_rng (lit "a")
    (Some (mkToken Character one_letter one_letter_rng (lit "a") None)).

(** The source ["b"], of which [As] matches the empty prefix, and the token
    [parse_token] returns for it. *)
Definition stuck : Source := Source_init (lit "b").

Definition stuck_token : Token :=
  mkToken As stuck (mkCursorRange origin origin) [] None.

(** The source ["a *"] and the two tokens [lex] emits for it. *)
Definition a_star : Source := Source_init (lit "a *").

Definition a_token : Token :=
  mkToken Character a_star (mkCursorRange origin (mkCursor 0 1)) (lit "a") None.

Definition star_token : Token :=
  mkToken Asterisk a_star (mkCursorRange (mkCursor 0 2) (mkCursor 0 3)) (lit "*") None.

(** Seven lines, the fourth of which no kind of [[Character]] matches. *)
Definition seven_lines : Source :=
  Source_init
    (join [NL] [lit "a"; lit "b"; lit "c"; lit "?"; lit "e"; lit "f"; lit "g"]).

(** The sources and the expected lexemes of the repository's tests. *)
Definition DQ : str := ["034"%char].

Definition test_0_str : str := lit "a*b+(c|d)?".

Definition test_0_expected : list str :=
  map lit ["a"; "*"; "b"; "+"; "("; "c"; "|"; "d"; ")"; "?"]%string.

Definition test_1_str : str :=
  join [NL]
    [ lit "";
      lit "    <?xml version=" ++ DQ ++ lit "1.0" ++ DQ ++ lit " encoding=" ++ DQ
        ++ lit "UTF-8" ++ DQ ++ lit "?>";
      lit "        <!-- Sample XML for lexer testing -->";
      lit "        <note>";
      lit "            <to>Tove</to>";
      lit "            <from>Jani</from>";
      lit "            <heading reminder=" ++ DQ ++ lit "true" ++ DQ
        ++ lit ">Reminder</heading>";
      lit "            <body>";
      lit "                Don't forget me this weekend!";
      lit "                <![CDATA[Some <unescaped> content]]>";
      lit "            </body>";
      lit "            <empty-tag attr=" ++ DQ ++ lit "value" ++ DQ ++ lit " />";
      lit "    </note>";
      lit "    " ].

Definition test_1_expected : list str :=
  [ lit "<?xml"; lit "version"; lit "="; DQ ++ lit "1.0" ++ DQ; lit "encoding"; lit "=";
    DQ ++ lit "UTF-8" ++ DQ; lit "?>"; lit "<!-- Sample XML for lexer testing -->";
    lit "<"; lit "note"; lit ">";
    lit "<"; lit "to"; lit ">"; lit "Tove"; lit "</"; lit "to"; lit ">";
    lit "<"; lit "from"; lit ">"; lit "Jani"; lit "</"; lit "from"; lit ">";
    lit "<"; lit "heading"; lit "reminder"; lit "="; DQ ++ lit "true" ++ DQ; lit ">";
    lit "Reminder"; lit "</"; lit "heading"; lit ">";
    lit "<"; lit "body"; lit ">"; lit "Don't forget me this weekend!";
    lit "<![CDATA[Some <unescaped> content]]>"; lit "</"; lit "body"; lit ">";
    lit "<"; lit "empty-tag"; lit "attr"; lit "="; DQ ++ lit "value" ++ DQ; lit "/>";
    lit "</"; lit "note"; lit ">" ].

(** The lexemes of a returned token sequence. *)
Definition lexemes (o : outcome (list Token)) : outcome (list str) :=
  do toks <- o; Ret (map lexeme toks).


(** The source ["<a>bc"] and the four tokens the Xml lexer emits for it:
    after the [>], ["bc"] is a [Text] token, with the two other kinds that
    match it for alternatives. *)
Definition xml_sample : Source := Source_init (lit "<a>bc").

Definition xml_open : Token :=
  mkToken Xml.OpenTag xml_sample (mkCursorRange origin (mkCursor 0 1)) (lit "<") None.

Definition xml_name : Token :=
  mkToken Identifier xml_sample (mkCursorRange (mkCursor 0 1) (mkCursor 0 2)) (lit "a")
    (Some (mkToken Xml.TagName xml_sample
             (mkCursorRange (mkCursor 0 1) (mkCursor 0 2)) (lit "a") None)).

Definition xml_close : Token :=
  mkToken Xml.CloseOpeningTag xml_sample
    (mkCursorRange (mkCursor 0 2) (mkCursor 0 3)) (lit ">") None.

Definition xml_text : Token :=
  mkToken Xml.Text xml_sample (mkCursorRange (mkCursor 0 3) (mkCursor 0 5)) (lit "bc")
    (Some (mkToken Identifier xml_sample
             (mkCursorRange (mkCursor 0 3) (mkCursor 0 5)) (lit "bc")
             (Some (mkToken Xml.TagName xml_sample
                      (mkCursorRange (mkCursor 0 3) (mkCursor 0 5)) (lit "bc") None)))).

(** The source of ["ab\n\nc"]: three lines, the second empty. *)
Definition three_lines : Source := Source_init (join [NL] [lit "ab"; lit ""; lit "c"]).

(* ================================================================== *)
(** * Vocabulary of the statements *)
(* ================================================================== *)

(** The loop both lexers run, with the choice of the candidate list from
    the tokens emitted so far left open: [GenericLexer] always chooses its
    own list, [Xml.Lexer] chooses by [Xml.candidates]
    ([lex_loop_lex_with], [Xml_lex_loop_lex_with]). *)
Fixpoint lex_with (choose : list Token -> list TokenKind) (fuel : nat)
    (result : list Token) : M (list Token) :=
  match fuel with
  | 0 => lift OutOfFuel
  | S fuel' =>
      do! self <- get_self;
      do! c <- lift (char_at (src self) (pos self));
      if str_eqb c EOF then mret result
      else
        do! token <- parse_token (choose result);
        lex_with choose fuel' (result ++ [token])
  end.

(** The position holds a character of the whitespace set. *)
Definition whitespace_at (src : Source) (p : Cursor) : Prop :=
  exists c, char_at src p = Ret c /\ in_WHITESPACE c = true.

(** [a] is not after [b], and every valid position from [a] up to [b],
    [b] excluded, holds whitespace. *)
Definition gap (src : Source) (a b : Cursor) : Prop :=
  Cursor_le a b = true /\
  forall q, valid src q = true -> Cursor_le a q = true -> Cursor_lt q b = true ->
            whitespace_at src q.

(** What [re.Pattern.match] guarantees of a match: it ends inside the
    string it was given. *)
Definition match_in_bounds (k : TokenKind) : Prop :=
  forall s n, regex k s = Some n -> n <= length s.

(** The pattern never matches the empty string. *)
Definition never_empty (k : TokenKind) : Prop :=
  forall s, regex k s <> Some 0.

(** The text [parse_token] gives each pattern: the current line from the
    cursor on. *)
Definition line_rest (src : Source) (pos : Cursor) : str :=
  skipn (col pos) (nth (row pos) (lines src) []).

(** The kinds of the list that match [s], in the order of the list, each
    with the length of its match. *)
Definition matched (s : str) (token_types : list TokenKind) : list (TokenKind * nat) :=
  flat_map (fun k => match regex k s with
                     | Some n => [(k, n)]
                     | None => []
                     end) token_types.

(** The longest match length among the kinds. *)
Definition longest (s : str) (token_types : list TokenKind) : nat :=
  list_max (map snd (matched s token_types)).

(** The kinds whose match is of that longest length, in list order. *)
Definition tied (s : str) (token_types : list TokenKind) : list TokenKind :=
  map fst (filter (fun kn => snd kn =? longest s token_types) (matched s token_types)).

(** The token a kind matching [n] characters at [pos] is built as. *)
Definition candidate (src : Source) (pos : Cursor) (kn : TokenKind * nat) : Token :=
  mkToken (fst kn) src
    (mkCursorRange pos (mkCursor (row pos) (col pos + snd kn)))
    (firstn (snd kn) (line_rest src pos)) None.

(** The candidates of the longest length, in list order. *)
Definition tied_candidates (src : Source) (pos : Cursor) (token_types : list TokenKind)
  : list Token :=
  map (candidate src pos)
    (filter (fun kn => snd kn =? longest (line_rest src pos) token_types)
       (matched (line_rest src pos) token_types)).

(** Where a longest match at [pos] ends. *)
Definition longest_end (src : Source) (pos : Cursor) (token_types : list TokenKind)
  : Cursor :=
  mkCursor (row pos) (col pos + longest (line_rest src pos) token_types).

(** The message of the failure [parse_token] raises at [pos]. *)
Definition no_token_msg (pos : Cursor) : str :=
  lit "could not parse token at " ++ Cursor_str pos.

(** The end of [parse_token] once a token is chosen: what
    [skip_whitespace] did, with the token for value if it returned. *)
Definition and_then_return (tok : Token) (r : outcome unit * Instance)
  : outcome Token * Instance :=
  match r with
  | (Ret _, self') => (Ret tok, self')
  | (Raise e, self') => (Raise e, self')
  | (OutOfFuel, self') => (OutOfFuel, self')
  end.



(** The position of the end-of-input marker: the end of the last line. *)
Definition eof_position (src : Source) : Cursor :=
  mkCursor (rows src - 1) (length (nth (rows src - 1) (lines src) [])).

(** The text of the source from a position on: the rest of its line, then
    every later line after a newline. *)
Definition rest_text (src : Source) (p : Cursor) : str :=
  line_rest src p ++ concat (map (fun l => NL :: l) (skipn (S (row p)) (lines src))).

(** The position lies in the range of the token. *)
Definition covers (t : Token) (q : Cursor) : Prop :=
  Cursor_le (start (rng t)) q = true /\ Cursor_lt q (end_ (rng t)) = true.

(** The pattern takes at least one character before it goes on. *)
Definition consumes (r : re) : Prop :=
  forall text k n,
    re_run r text k = Some n -> exists rest, length rest < length text /\ k rest = Some n.


(** The last element of a list, [xs[-1]], has key [m]. *)
Definition last_is_max {A} (key : A -> nat) (xs : list A) (m : nat) : Prop :=
  exists t, nth_error xs (length xs - 1) = Some t /\ key t = m.

(** A token without its link to an alternative. *)
Definition unlinked (t : Token) : Token :=
  mkToken (kind t) (token_src t) (rng t) (lexeme t) None.

(* ================================================================== *)
(** * Strings and cursors *)
(* ================================================================== *)

Lemma str_eqb_eq (a b : str) : str_eqb a b = true <-> a = b.
Proof.
  revert b; induction a as [|x a IH]; intros [|y b]; simpl; split;
    try congruence; try reflexivity.
  - rewrite andb_true_iff, Ascii.eqb_eq, IH. intros [-> ->]; reflexivity.
  - intros H; injection H as -> ->. rewrite Ascii.eqb_refl.
    apply IH; reflexivity.
Qed.

Lemma str_eqb_false (c : str) : c <> EOF -> str_eqb c EOF = false.
Proof.
  intros H. destruct (str_eqb c EOF) eqn:E; [|reflexivity].
  apply str_eqb_eq in E. congruence.
Qed.

Lemma one_char_not_EOF (c : ascii) : str_eqb [c] EOF = false.
Proof. unfold EOF; simpl. apply andb_false_r. Qed.

Lemma cursor_eta (p : Cursor) : mkCursor (row p) (col p) = p.
Proof. destruct p; reflexivity. Qed.

(** Turns the boolean comparisons of cursors into arithmetic. *)
Create Rewrite HintDb bool_to_arith.

#[local] Hint Rewrite orb_true_iff andb_true_iff negb_true_iff orb_false_iff
  andb_false_iff negb_false_iff Nat.ltb_lt Nat.eqb_eq Nat.leb_le Nat.ltb_ge
  Nat.eqb_neq Nat.leb_gt : bool_to_arith.

Ltac cursor_arith :=
  unfold Cursor_le, Cursor_gt, Cursor_lt, Cursor_eqb in *; cbn [row col] in *;
  autorewrite with bool_to_arith in *.

Lemma Cursor_eqb_eq (a b : Cursor) : Cursor_eqb a b = true <-> a = b.
Proof.
  destruct a, b; split; intros H.
  - cursor_arith. destruct H; subst; reflexivity.
  - injection H as -> ->. cursor_arith. lia.
Qed.

Lemma Cursor_eqb_refl (a : Cursor) : Cursor_eqb a a = true.
Proof. apply Cursor_eqb_eq; reflexivity. Qed.

Lemma Cursor_le_refl (a : Cursor) : Cursor_le a a = true.
Proof. unfold Cursor_le. rewrite Cursor_eqb_refl. apply orb_true_r. Qed.

Lemma Cursor_le_trans (a b c : Cursor) :
  Cursor_le a b = true -> Cursor_le b c = true -> Cursor_le a c = true.
Proof. destruct a, b, c; intros; cursor_arith; lia. Qed.

Lemma Cursor_lt_le_trans (a b c : Cursor) :
  Cursor_lt a b = true -> Cursor_le b c = true -> Cursor_lt a c = true.
Proof. destruct a, b, c; intros; cursor_arith; lia. Qed.

Lemma Cursor_lt_le (a b : Cursor) : Cursor_lt a b = true -> Cursor_le a b = true.
Proof. unfold Cursor_le; intros ->; reflexivity. Qed.

Lemma Cursor_le_antisym (a b : Cursor) :
  Cursor_le a b = true -> Cursor_le b a = true -> a = b.
Proof.
  destruct a as [r c], b as [r' c']; intros.
  cursor_arith. assert (r = r' /\ c = c') as [-> ->] by lia. reflexivity.
Qed.

Lemma Cursor_lt_or_le (a b : Cursor) :
  Cursor_lt a b = true \/ Cursor_le b a = true.
Proof.
  destruct a as [r c], b as [r' c']; cursor_arith. lia.
Qed.

Lemma Cursor_lt_not_le (a b : Cursor) :
  Cursor_lt a b = true -> Cursor_le b a = false.
Proof. destruct a, b; intros; cursor_arith; lia. Qed.

(* ================================================================== *)
(** * The source buffer *)
(* ================================================================== *)

Lemma split_lines_not_nil (s : str) : split_lines s <> [].
Proof.
  destruct s as [|c s]; simpl; [discriminate|].
  destruct (Ascii.eqb c NL); [discriminate|].
  destruct (split_lines s); discriminate.
Qed.

Lemma split_lines_no_newline (text : str) :
  Forall (fun l => ~ In NL l) (split_lines text).
Proof.
  induction text as [|c text IH]; cbn [split_lines].
  - constructor; [intros [] | constructor].
  - destruct (Ascii.eqb_spec c NL) as [->|Hc].
    + constructor; [intros [] | exact IH].
    + destruct (split_lines text) as [|l ls]; inversion IH; subst.
      * constructor; [|constructor]. intros [H|[]]. congruence.
      * constructor; [|assumption]. intros [H|H]; [congruence | contradiction].
Qed.

Lemma rows_Source_init (s : str) : 1 <= rows (Source_init s).
Proof.
  unfold rows, Source_init; simpl.
  pose proof (split_lines_not_nil s).
  destruct (split_lines s); [congruence | simpl; lia].
Qed.

Lemma tail_size_Source_init (s : str) :
  tail_size (split_lines s) = S (length s).
Proof.
  unfold tail_size.
  induction s as [|c s IH]; simpl; [reflexivity|].
  destruct (Ascii.eqb c NL); simpl.
  - rewrite IH. reflexivity.
  - pose proof (split_lines_not_nil s).
    destruct (split_lines s) as [|l ls]; [congruence|].
    simpl in *. lia.
Qed.

Lemma skipn_nth_error {A} (l : list A) (i : nat) (x : A) :
  nth_error l i = Some x -> skipn i l = x :: skipn (S i) l.
Proof.
  revert l; induction i as [|i IH]; intros [|y l] H; simpl in *; try discriminate.
  - injection H as ->; reflexivity.
  - apply IH in H. rewrite H. destruct l; reflexivity.
Qed.

Lemma remaining_in_row (src : Source) (p : Cursor) (line : str) :
  nth_error (lines src) (row p) = Some line ->
  remaining src p =
  S (length line) + tail_size (skipn (S (row p)) (lines src)) - col p.
Proof.
  intros Hl. unfold remaining. rewrite (skipn_nth_error _ _ _ Hl).
  reflexivity.
Qed.

Lemma valid_iff (src : Source) (p : Cursor) :
  valid src p = true <->
  exists line, nth_error (lines src) (row p) = Some line /\ col p <= length line.
Proof.
  unfold valid, rows. split.
  - destruct (row p <? length (lines src)); [|discriminate].
    destruct (nth_error (lines src) (row p)) as [line|]; [|discriminate].
    intros H; apply Nat.leb_le in H. eauto.
  - intros (line & Hl & Hc).
    assert (row p < length (lines src)) as Hr
        by (apply nth_error_Some; congruence).
    apply Nat.ltb_lt in Hr. rewrite Hr, Hl. apply Nat.leb_le; exact Hc.
Qed.

Lemma valid_origin (src : Source) : 1 <= rows src -> valid src (mkCursor 0 0) = true.
Proof.
  unfold rows; intros H. apply valid_iff.
  destruct (lines src) as [|l ls]; simpl in *; [lia|].
  exists l; split; [reflexivity | lia].
Qed.

(** Inside a line [char_at] is the character there. *)
Lemma char_at_in_line (src : Source) (p : Cursor) (line : str) (c : ascii) :
  nth_error (lines src) (row p) = Some line ->
  nth_error line (col p) = Some c ->
  char_at src p = Ret [c].
Proof.
  intros Hl Hc. unfold char_at, cols, getitem. rewrite Hl; simpl.
  assert (col p < length line) by (apply nth_error_Some; congruence).
  destruct (Nat.eqb_spec (col p) (length line)); [lia|].
  rewrite Hc; reflexivity.
Qed.

(** At the end of a line it is the newline, or the end-of-input marker on
    the last line. *)
Lemma char_at_line_end (src : Source) (p : Cursor) (line : str) :
  nth_error (lines src) (row p) = Some line ->
  col p = length line ->
  char_at src p = Ret (if row p =? rows src - 1 then EOF else [NL]).
Proof.
  intros Hl Hc. unfold char_at, cols, getitem. rewrite Hl; simpl.
  rewrite Hc, Nat.eqb_refl. reflexivity.
Qed.

(** [char_at] returns exactly at the valid positions. *)
Lemma char_at_valid (src : Source) (p : Cursor) :
  valid src p = true <-> exists c, char_at src p = Ret c.
Proof.
  rewrite valid_iff. split.
  - intros (line & Hl & Hc).
    destruct (Nat.eq_dec (col p) (length line)) as [E|E].
    + eexists; eapply char_at_line_end; eassumption.
    + destruct (nth_error line (col p)) as [c|] eqn:Hn.
      * eexists; eapply char_at_in_line; eassumption.
      * apply nth_error_None in Hn. lia.
  - intros (c & H). unfold char_at, cols, getitem in H.
    destruct (nth_error (lines src) (row p)) as [line|]; simpl in H; [|discriminate].
    exists line; split; [reflexivity|].
    destruct (Nat.eqb_spec (col p) (length line)); [lia|].
    destruct (nth_error line (col p)) eqn:Hn; simpl in H; [|discriminate].
    assert (col p < length line) by (apply nth_error_Some; congruence). lia.
Qed.

Lemma EOF_not_whitespace : in_WHITESPACE EOF = false.
Proof. reflexivity. Qed.

Lemma whitespace_not_EOF (c : str) : in_WHITESPACE c = true -> str_eqb c EOF = false.
Proof.
  intros H. destruct (str_eqb c EOF) eqn:E; [|reflexivity].
  apply str_eqb_eq in E; subst. discriminate.
Qed.

(** Away from the end of input, [next] returns the valid position that
    follows: nothing valid lies between, and fewer positions remain. *)
Lemma next_spec (src : Source) (p : Cursor) (c : str) :
  char_at src p = Ret c -> str_eqb c EOF = false ->
  exists p', next src p = Ret p' /\ valid src p' = true /\
             remaining src p' < remaining src p /\
             Cursor_lt p p' = true /\
             (forall q, valid src q = true -> Cursor_lt q p' = true ->
                        Cursor_le q p = true).
Proof.
  intros Hc Hneof.
  assert (valid src p = true) as Hv by (apply char_at_valid; eauto).
  apply valid_iff in Hv. destruct Hv as (line & Hl & Hle).
  unfold next. rewrite Hc; simpl. rewrite Hneof.
  unfold cols, getitem. rewrite Hl; simpl.
  rewrite (remaining_in_row _ _ _ Hl).
  destruct (Nat.eqb_spec (col p) (length line)) as [E|E].
  - rewrite (char_at_line_end _ _ _ Hl E) in Hc. injection Hc as Hc.
    destruct (Nat.eqb_spec (row p) (rows src - 1)) as [R|R];
      [subst c; discriminate|].
    assert (row p < rows src) as Hr
        by (unfold rows; apply nth_error_Some; congruence).
    destruct (nth_error (lines src) (row p + 1)) as [line'|] eqn:Hl'.
    2:{ apply nth_error_None in Hl'. unfold rows in *. lia. }
    eexists; split; [reflexivity|]. repeat split.
    + apply valid_iff. exists line'; simpl; split; [assumption | lia].
    + unfold remaining. cbn [row col].
      replace (row p + 1) with (S (row p)) by lia. lia.
    + destruct p; cursor_arith. lia.
    + intros q Hq Hlt. apply valid_iff in Hq. destruct Hq as (lq & Hlq & Hcq).
      destruct p as [r k], q as [r' k']; cursor_arith.
      destruct (Nat.eq_dec r' r) as [->|]; [|lia].
      assert (lq = line) by congruence. subst. lia.
  - eexists; split; [reflexivity|]. repeat split.
    + apply valid_iff. exists line; simpl; split; [assumption | lia].
    + rewrite (remaining_in_row _ (mkCursor (row p) (col p + 1)) _ Hl).
      cbn [row col]. lia.
    + destruct p; cursor_arith. lia.
    + intros q _ Hlt. destruct p, q; cursor_arith. lia.
Qed.

(* ================================================================== *)
(** * Whitespace skipping *)
(* ================================================================== *)

Lemma gap_refl (src : Source) (p : Cursor) : gap src p p.
Proof.
  split; [apply Cursor_le_refl|].
  intros q _ H1 H2. apply Cursor_lt_not_le in H2. congruence.
Qed.

(** The loop of [skip_whitespace], started on a valid position with more
    iterations allowed than positions remain: it stops on the first
    position at or after [p] that holds no whitespace. *)
Lemma skip_whitespace_from_spec (s : Source) :
  forall fuel self_pos p,
    valid s self_pos = true -> valid s p = true -> remaining s p < fuel ->
    exists p',
      skip_whitespace_from fuel (Some p) (mkInstance s self_pos)
      = (Ret tt, mkInstance s p') /\
      valid s p' = true /\ gap s p p' /\
      (exists c, char_at s p' = Ret c /\ in_WHITESPACE c = false) /\
      remaining s p' <= remaining s p.
Proof.
  induction fuel as [|fuel IH]; intros self_pos p Hs Hp Hf; [lia|].
  apply char_at_valid in Hs as [c0 Hc0].
  pose proof Hp as Hp'. apply char_at_valid in Hp' as [c Hc].
  cbn [skip_whitespace_from].
  unfold mbind, get_self, lift, set_pos, mret. cbn [src pos].
  rewrite Hc0, Hc.
  destruct (in_WHITESPACE c) eqn:Hw; cbn [negb].
  - pose proof (whitespace_not_EOF _ Hw) as Hne.
    destruct (next_spec s p c Hc Hne) as (p1 & Hn & Hv1 & Hrem & Hlt & Hbetween).
    unfold range_resume. rewrite Hc; cbn [obind]. rewrite Hne, Hn.
    cbn [obind range_start].
    destruct (IH p p1 Hp Hv1 ltac:(lia))
      as (p' & Hrun & Hv' & [Hle Hgap] & Hend & Hrem').
    exists p'. split; [exact Hrun|]. split; [exact Hv'|].
    split; [|split; [exact Hend | lia]].
    split.
    + apply Cursor_lt_le. eapply Cursor_lt_le_trans; eassumption.
    + intros q Hq Hpq Hqp'.
      destruct (Cursor_lt_or_le q p1) as [Hq1|Hq1].
      * assert (q = p) as -> by
            (apply Cursor_le_antisym; [apply Hbetween|]; assumption).
        exists c; split; assumption.
      * apply Hgap; assumption.
  - exists p. split; [reflexivity|]. split; [exact Hp|].
    split; [apply gap_refl|]. split; [|lia]. exists c; split; assumption.
Qed.

Lemma skip_whitespace_spec (s : Source) (p : Cursor) :
  valid s p = true ->
  exists p',
    skip_whitespace (mkInstance s p) = (Ret tt, mkInstance s p') /\
    valid s p' = true /\ gap s p p' /\
    (exists c, char_at s p' = Ret c /\ in_WHITESPACE c = false) /\
    remaining s p' <= remaining s p.
Proof.
  intros Hp. unfold skip_whitespace, mbind, get_self. cbn [src pos range_start].
  apply skip_whitespace_from_spec; [assumption | assumption | lia].
Qed.

(** Started on an invalid position, [skip_whitespace] raises. *)
Lemma skip_whitespace_invalid (s : Source) (p : Cursor) :
  valid s p = false ->
  exists e, skip_whitespace (mkInstance s p) = (Raise e, mkInstance s p).
Proof.
  intros Hp. unfold skip_whitespace, mbind, get_self. cbn [src pos range_start].
  cbn [skip_whitespace_from]. unfold mbind, get_self, lift. cbn [src pos].
  destruct (char_at s p) as [c|e|] eqn:Hc.
  - assert (valid s p = true) by (apply char_at_valid; eauto). congruence.
  - eauto.
  - unfold char_at, cols, getitem in Hc.
    destruct (nth_error (lines s) (row p)) as [l|]; simpl in Hc; [|discriminate].
    destruct (col p =? length l); [discriminate|].
    destruct (nth_error l (col p)); discriminate.
Qed.

(** [skip_whitespace] always ends: its bound is never reached. *)
Lemma skip_whitespace_terminates (self : Instance) :
  fst (skip_whitespace self) <> OutOfFuel.
Proof.
  destruct self as [s p]. destruct (valid s p) eqn:Hv.
  - destruct (skip_whitespace_spec s p Hv) as (p' & -> & _). discriminate.
  - destruct (skip_whitespace_invalid s p Hv) as (e & ->). discriminate.
Qed.

Lemma char_at_not_OutOfFuel (s : Source) (p : Cursor) : char_at s p <> OutOfFuel.
Proof.
  unfold char_at, cols, getitem.
  destruct (nth_error (lines s) (row p)) as [l|]; cbn [obind]; [|discriminate].
  destruct (col p =? length l); [discriminate|].
  destruct (nth_error l (col p)); discriminate.
Qed.

Lemma str_at_from_terminates (s : Source) (e : Cursor) :
  forall fuel p,
    remaining s p < fuel -> str_at_from fuel s (Some p) e <> OutOfFuel.
Proof.
  induction fuel as [|fuel IH]; intros p Hf; [lia|].
  cbn [str_at_from]. unfold range_resume.
  destruct (char_at s p) as [c|x|] eqn:Hc; cbn [obind];
    [|discriminate | destruct (char_at_not_OutOfFuel s p Hc)].
  destruct (str_eqb c EOF) eqn:He; cbn [obind];
    [destruct fuel; discriminate|].
  destruct (next_spec s p c Hc He) as (p' & -> & _ & Hrem & _). cbn [obind range_start].
  destruct (Cursor_eqb p' e); [destruct fuel; discriminate|].
  specialize (IH p' ltac:(lia)).
  destruct (str_at_from fuel s (Some p') e); cbn [obind];
    [discriminate | discriminate | congruence].
Qed.

(** [str_at] always ends, whatever the range: its bound is never reached. *)
Lemma str_at_terminates (s : Source) (r : CursorRange) : str_at s r <> OutOfFuel.
Proof.
  unfold str_at. cbn [range_start].
  destruct (Cursor_eqb (start r) (end_ r)); [discriminate|].
  apply str_at_from_terminates. lia.
Qed.

(* ================================================================== *)
(** * Moving and reading inside a line *)
(* ================================================================== *)

Lemma nth_error_in_line (line : str) (k : nat) :
  k < length line -> exists c, nth_error line k = Some c.
Proof.
  intros H. destruct (nth_error line k) eqn:E; [eauto|].
  apply nth_error_None in E. lia.
Qed.

Lemma next_in_line (src : Source) (r k : nat) (line : str) :
  nth_error (lines src) r = Some line -> k < length line ->
  next src (mkCursor r k) = Ret (mkCursor r (k + 1)).
Proof.
  intros Hl Hk. destruct (nth_error_in_line line k Hk) as [c Hc].
  unfold next. rewrite (char_at_in_line src (mkCursor r k) line c Hl Hc).
  cbn [obind]. rewrite one_char_not_EOF.
  unfold cols, getitem. cbn [row col]. rewrite Hl. cbn [obind].
  destruct (Nat.eqb_spec k (length line)); [lia | reflexivity].
Qed.

Lemma next_times_in_line (src : Source) (r : nat) (line : str) :
  nth_error (lines src) r = Some line ->
  forall n k, k + n <= length line ->
              next_times src (mkCursor r k) n = Ret (mkCursor r (k + n)).
Proof.
  intros Hl. induction n as [|n IH]; intros k Hk; cbn [next_times].
  - rewrite Nat.add_0_r. reflexivity.
  - rewrite (next_in_line src r k line Hl) by lia. cbn [obind].
    rewrite IH by lia. f_equal. f_equal. lia.
Qed.

Lemma next_n_in_line (src : Source) (r k n : nat) (line : str) :
  nth_error (lines src) r = Some line -> k + n <= length line ->
  next_n src (mkCursor r k) n = Ret (mkCursor r (k + n)).
Proof.
  intros Hl Hk. unfold next_n.
  destruct n as [|[|n]];
    try (apply (next_times_in_line src r line Hl); assumption).
  apply (next_in_line src r k line Hl). lia.
Qed.

Lemma str_at_from_in_line (src : Source) (r : nat) (line : str) :
  nth_error (lines src) r = Some line ->
  forall n fuel k,
    k + n <= length line -> n <= fuel ->
    str_at_from fuel src (range_start (mkCursor r k) (Some (mkCursor r (k + n))))
      (mkCursor r (k + n))
    = Ret (firstn n (skipn k line)).
Proof.
  intros Hl. induction n as [|n IH]; intros fuel k Hk Hf.
  - rewrite Nat.add_0_r. cbn [range_start]. rewrite Cursor_eqb_refl.
    destruct fuel; reflexivity.
  - destruct fuel as [|fuel]; [lia|].
    cbn [range_start].
    destruct (Cursor_eqb (mkCursor r k) (mkCursor r (k + S n))) eqn:E.
    { apply Cursor_eqb_eq in E. injection E as E. lia. }
    destruct (nth_error_in_line line k ltac:(lia)) as [c Hc].
    cbn [str_at_from].
    unfold range_resume.
    rewrite (char_at_in_line src (mkCursor r k) line c Hl Hc).
    cbn [obind]. rewrite one_char_not_EOF.
    rewrite (next_in_line src r k line Hl) by lia. cbn [obind].
    replace (k + S n) with (k + 1 + n) by lia.
    rewrite IH by lia. cbn [obind].
    rewrite (skipn_nth_error _ _ _ Hc).
    replace (k + 1) with (S k) by lia. reflexivity.
Qed.

(** Over a range inside one line [str_at] is the slice of that line; an
    empty range reads nothing, wherever it is. *)
Lemma str_at_in_line (src : Source) (p : Cursor) (n : nat) :
  n <= length (line_rest src p) ->
  str_at src (mkCursorRange p (mkCursor (row p) (col p + n)))
  = Ret (firstn n (line_rest src p)).
Proof.
  intros Hn. unfold str_at. cbn [start end_].
  destruct n as [|n].
  - rewrite Nat.add_0_r, cursor_eta. cbn [range_start].
    rewrite Cursor_eqb_refl. reflexivity.
  - unfold line_rest in *. rewrite length_skipn in Hn.
    destruct (nth_error (lines src) (row p)) as [line|] eqn:Hl.
    2:{ rewrite (nth_error_nth' (lines src) []) in Hl
          by (destruct (Nat.lt_ge_cases (row p) (length (lines src)));
              [assumption | rewrite nth_overflow in Hn by assumption;
                            simpl in Hn; lia]).
        discriminate. }
    rewrite (nth_error_nth _ _ [] Hl) in *.
    rewrite <- (cursor_eta p) at 2.
    apply (str_at_from_in_line src (row p) line Hl); [lia|].
    rewrite (remaining_in_row src p line Hl). lia.
Qed.

Lemma CursorRange_init_forward (p : Cursor) (n : nat) :
  CursorRange_init p (mkCursor (row p) (col p + n))
  = Ret (mkCursorRange p (mkCursor (row p) (col p + n))).
Proof.
  unfold CursorRange_init.
  destruct (Cursor_gt p (mkCursor (row p) (col p + n))) eqn:E; [|reflexivity].
  destruct p; cursor_arith. lia.
Qed.

(* ================================================================== *)
(** * Collecting the candidates *)
(* ================================================================== *)

Lemma line_rest_row (src : Source) (p : Cursor) (line : str) :
  nth_error (lines src) (row p) = Some line ->
  line_rest src p = skipn (col p) line.
Proof.
  intros Hl. unfold line_rest. rewrite (nth_error_nth _ _ [] Hl). reflexivity.
Qed.

(** On a row of the buffer, with patterns whose matches end inside the
    text they are given, the loop appends one candidate per matching kind,
    in the order of the list. *)
Lemma collect_matches_spec (src : Source) (p : Cursor) (line : str) :
  nth_error (lines src) (row p) = Some line ->
  forall token_types matches,
    Forall match_in_bounds token_types ->
    collect_matches src p token_types matches
    = Ret (matches ++ map (candidate src p) (matched (line_rest src p) token_types)).
Proof.
  intros Hl. rewrite (line_rest_row src p line Hl).
  induction token_types as [|k ks IH]; intros matches Hb; cbn [collect_matches].
  - cbn. rewrite app_nil_r. reflexivity.
  - inversion Hb as [|? ? Hk Hks]; subst.
    unfold getitem at 1. rewrite Hl. cbn [obind].
    unfold matched. cbn [flat_map].
    destruct (regex k (skipn (col p) line)) as [n|] eqn:Hm.
    + pose proof (Hk _ _ Hm) as Hn.
      assert (next_n src p n = Ret (mkCursor (row p) (col p + n))) as ->.
      { destruct n as [|n].
        - rewrite Nat.add_0_r, cursor_eta. reflexivity.
        - rewrite <- (cursor_eta p) at 1.
          apply (next_n_in_line src (row p) (col p) (S n) line Hl).
          rewrite length_skipn in Hn. lia. }
      cbn [obind]. rewrite CursorRange_init_forward. cbn [obind].
      unfold Token_init. rewrite str_at_in_line
        by (rewrite (line_rest_row src p line Hl); exact Hn).
      cbn [obind]. rewrite IH by assumption.
      rewrite <- app_assoc. cbn [app map].
      unfold candidate at 2. cbn [fst snd].
      rewrite (line_rest_row src p line Hl). reflexivity.
    + rewrite IH by assumption. reflexivity.
Qed.

(* ================================================================== *)
(** * Sorting by length and keeping the longest *)
(* ================================================================== *)

Section Sorted.

Context {A : Type} (key : A -> nat).

(** Keeping the elements of one key commutes with a stable insertion. *)
Lemma filter_insert_by (m : nat) (x : A) (xs : list A) :
  filter (fun t => key t =? m) (insert_by key x xs)
  = filter (fun t => key t =? m) (x :: xs).
Proof.
  induction xs as [|y xs IH]; cbn [insert_by]; [reflexivity|].
  destruct (Nat.leb_spec (key x) (key y)); [reflexivity|].
  cbn [filter] in *. rewrite IH.
  destruct (Nat.eqb_spec (key x) m), (Nat.eqb_spec (key y) m);
    try reflexivity. lia.
Qed.

(** So the elements of one key come out of [sorted] in their first order. *)
Lemma filter_sorted (m : nat) (xs : list A) :
  filter (fun t => key t =? m) (sorted key xs) = filter (fun t => key t =? m) xs.
Proof.
  induction xs as [|x xs IH]; [reflexivity|].
  unfold sorted in *. cbn [fold_right].
  rewrite filter_insert_by. cbn [filter]. rewrite IH. reflexivity.
Qed.

Lemma last_is_max_cons (y : A) (xs : list A) (m : nat) :
  xs <> [] -> last_is_max key xs m -> last_is_max key (y :: xs) m.
Proof.
  intros Hne (t & Ht & Hk). exists t; split; [|exact Hk].
  destruct xs as [|z xs]; [congruence|].
  cbn [length] in *. rewrite Nat.sub_1_r in *. exact Ht.
Qed.

Lemma insert_by_not_nil (x : A) (xs : list A) : insert_by key x xs <> [].
Proof.
  destruct xs as [|y xs]; cbn [insert_by]; [discriminate|].
  destruct (key x <=? key y); discriminate.
Qed.

Lemma last_insert_by (x : A) (xs : list A) :
  xs <> [] ->
  last_is_max key xs (list_max (map key xs)) ->
  last_is_max key (insert_by key x xs) (Nat.max (key x) (list_max (map key xs))).
Proof.
  induction xs as [|y xs IH]; intros Hne Hlast; [congruence|].
  cbn [insert_by].
  destruct (Nat.leb_spec (key x) (key y)) as [Hxy|Hxy].
  - apply last_is_max_cons; [discriminate|].
    cbn [map list_max fold_right] in *.
    replace (Nat.max (key x) (Nat.max (key y) (fold_right Nat.max 0 (map key xs))))
      with (Nat.max (key y) (fold_right Nat.max 0 (map key xs))) by lia.
    exact Hlast.
  - destruct xs as [|z xs].
    + cbn. exists x; split; [reflexivity | lia].
    + apply last_is_max_cons; [apply insert_by_not_nil|].
      destruct Hlast as (t & Ht & Hk).
      assert (last_is_max key (z :: xs) (key t)) as Hlast'.
      { exists t; split; [|reflexivity].
        cbn [length] in *. rewrite Nat.sub_1_r in *. exact Ht. }
      assert (key t = list_max (map key (z :: xs))) as Hmax.
      { apply Nat.le_antisymm.
        - destruct Hlast' as (t' & Ht' & Hk'). rewrite <- Hk'.
          apply nth_error_In in Ht'.
          pose proof (proj1 (list_max_le (map key (z :: xs)) _) (Nat.le_refl _))
            as Hall.
          rewrite Forall_forall in Hall. apply Hall.
          apply in_map. exact Ht'.
        - rewrite Hk. cbn [map list_max fold_right]. lia. }
      rewrite Hmax in Hlast'. specialize (IH ltac:(discriminate) Hlast').
      cbn [map list_max fold_right] in *.
      replace (Nat.max (key x)
                 (Nat.max (key y) (Nat.max (key z) (fold_right Nat.max 0 (map key xs)))))
        with (Nat.max (key x) (Nat.max (key z) (fold_right Nat.max 0 (map key xs))));
        [exact IH|].
      rewrite <- Hk, Hmax. cbn [map list_max fold_right]. lia.
Qed.

Lemma list_max_insert_by (x : A) (xs : list A) :
  list_max (map key (insert_by key x xs))
  = Nat.max (key x) (list_max (map key xs)).
Proof.
  unfold list_max.
  induction xs as [|y xs IH]; cbn [insert_by]; [reflexivity|].
  destruct (key x <=? key y); [reflexivity|].
  cbn [map fold_right] in *. rewrite IH. lia.
Qed.

Lemma list_max_sorted (xs : list A) :
  list_max (map key (sorted key xs)) = list_max (map key xs).
Proof.
  induction xs as [|x xs IH]; [reflexivity|].
  unfold sorted in *. cbn [fold_right].
  rewrite list_max_insert_by, IH. reflexivity.
Qed.

Lemma sorted_not_nil (xs : list A) : xs <> [] -> sorted key xs <> [].
Proof.
  destruct xs as [|x xs]; [congruence|]. intros _.
  unfold sorted; cbn [fold_right]. apply insert_by_not_nil.
Qed.

(** [sorted(xs, key)[-1]] has the largest key of [xs]. *)
Lemma last_sorted (xs : list A) :
  xs <> [] -> last_is_max key (sorted key xs) (list_max (map key xs)).
Proof.
  induction xs as [|x xs IH]; intros Hne; [congruence|].
  destruct xs as [|y xs].
  - cbn. exists x; split; [reflexivity | lia].
  - specialize (IH ltac:(discriminate)).
    assert (list_max (map key (y :: xs)) = list_max (map key (sorted key (y :: xs))))
      as Hsame.
    { symmetry. apply list_max_sorted. }
    rewrite Hsame in IH.
    pose proof (last_insert_by x (sorted key (y :: xs))
                  (sorted_not_nil (y :: xs) ltac:(discriminate)) IH) as H.
    rewrite <- Hsame in H. exact H.
Qed.

End Sorted.

(* ================================================================== *)
(** * Chaining the alternatives *)
(* ================================================================== *)

Lemma chain_fold_left (ms : list Token) :
  forall r,
    map unlinked (chain (fold_left (fun result m => set_alternative m result) ms r))
    = rev (map unlinked ms) ++ map unlinked (chain r).
Proof.
  induction ms as [|m ms IH]; intros r; cbn [fold_left map rev]; [reflexivity|].
  rewrite IH. rewrite <- app_assoc. reflexivity.
Qed.

Lemma map_unlinked_candidates (src : Source) (p : Cursor) (kns : list (TokenKind * nat)) :
  map unlinked (map (candidate src p) kns) = map (candidate src p) kns.
Proof. rewrite map_map. apply map_ext. reflexivity. Qed.

Lemma matched_In (s : str) (token_types : list TokenKind) (k : TokenKind) (n : nat) :
  In (k, n) (matched s token_types) <-> In k token_types /\ regex k s = Some n.
Proof.
  unfold matched. rewrite in_flat_map. split.
  - intros (k' & Hin & H). destruct (regex k' s) as [m|] eqn:E; [|contradiction].
    destruct H as [H|[]]. injection H as -> ->. auto.
  - intros [Hin H]. exists k. rewrite H. split; [assumption | left; reflexivity].
Qed.

Lemma matched_in_bounds (s : str) (token_types : list TokenKind) :
  Forall match_in_bounds token_types ->
  Forall (fun kn => snd kn <= length s) (matched s token_types).
Proof.
  intros Hb. apply Forall_forall. intros [k n] Hin.
  apply matched_In in Hin as [Hin Hm].
  rewrite Forall_forall in Hb. exact (Hb k Hin s n Hm).
Qed.

Lemma longest_in_bounds (s : str) (token_types : list TokenKind) :
  Forall match_in_bounds token_types -> longest s token_types <= length s.
Proof.
  intros Hb. unfold longest. apply list_max_le.
  apply Forall_map. exact (matched_in_bounds s token_types Hb).
Qed.

Lemma Token_len_candidate (src : Source) (p : Cursor) (kn : TokenKind * nat) :
  snd kn <= length (line_rest src p) -> Token_len (candidate src p kn) = snd kn.
Proof.
  intros H. unfold Token_len, candidate. cbn [lexeme].
  rewrite length_firstn. lia.
Qed.

Lemma map_Token_len_candidates (src : Source) (p : Cursor) (kns : list (TokenKind * nat)) :
  Forall (fun kn => snd kn <= length (line_rest src p)) kns ->
  map Token_len (map (candidate src p) kns) = map snd kns.
Proof.
  intros H. rewrite map_map. apply map_ext_in. intros kn Hin.
  rewrite Forall_forall in H. apply Token_len_candidate, H, Hin.
Qed.

Lemma filter_candidates (src : Source) (p : Cursor) (m : nat)
    (kns : list (TokenKind * nat)) :
  Forall (fun kn => snd kn <= length (line_rest src p)) kns ->
  filter (fun t => Token_len t =? m) (map (candidate src p) kns)
  = map (candidate src p) (filter (fun kn => snd kn =? m) kns).
Proof.
  induction kns as [|kn kns IH]; intros H; [reflexivity|].
  inversion H as [|? ? Hkn Hkns]; subst.
  cbn [map filter]. rewrite (Token_len_candidate src p kn Hkn), IH by assumption.
  destruct (snd kn =? m); reflexivity.
Qed.

(* ================================================================== *)
(** * The report of a failure *)
(* ================================================================== *)

Lemma for_each_ok {A B} (f : A -> outcome B) (xs : list A) :
  (forall x, In x xs -> exists y, f x = Ret y) ->
  exists ys, for_each f xs = Ret ys.
Proof.
  induction xs as [|x xs IH]; intros H; cbn [for_each]; [eauto|].
  destruct (H x (or_introl eq_refl)) as [y ->].
  destruct IH as [ys ->]; [intros; apply H; right; assumption|].
  cbn [obind]. eauto.
Qed.

Lemma index_ok (xs : list nat) (x : nat) :
  In x xs -> exists i, index xs x = Ret i.
Proof.
  induction xs as [|y xs IH]; intros H; [contradiction|].
  cbn [index]. destruct (y =? x) eqn:E; [eauto|].
  destruct H as [->|H]; [rewrite Nat.eqb_refl in E; discriminate|].
  destruct (IH H) as [i ->]. cbn [obind]. eauto.
Qed.

(** On a row of the buffer the report is built: the constructor raises
    nothing of its own, and the failure keeps the position it was given. *)
Lemma Lexer_Error_init_ok (src : Source) (p : Cursor) (msg : str) :
  row p < rows src ->
  exists report, Lexer_Error_init src p msg = Ret (Lexer_Error p report).
Proof.
  intros Hr. unfold Lexer_Error_init.
  assert (In (row p) (rows_to_show src p)) as Hin.
  { unfold rows_to_show, py_range. apply in_seq. lia. }
  assert (exists w, py_max (map (fun row => length (str_of_nat (row + 1)))
                              (rows_to_show src p)) = Ret w) as [w ->].
  { destruct (rows_to_show src p); [contradiction | cbn; eauto]. }
  cbn [obind].
  match goal with
  | |- context [for_each ?f ?xs] => destruct (for_each_ok f xs) as [ys ->]
  end.
  { intros r Hin'. unfold rows_to_show, py_range in Hin'. apply in_seq in Hin'.
    unfold getitem. destruct (nth_error (lines src) r) eqn:E; cbn [obind]; [eauto|].
    apply nth_error_None in E. unfold rows in *. lia. }
  cbn [obind].
  destruct (index_ok _ _ Hin) as [i ->]. cbn [obind].
  eauto.
Qed.

(* ================================================================== *)
(** * One step of the engine *)
(* ================================================================== *)

Lemma list_max_attained (l : list nat) : l <> [] -> In (list_max l) l.
Proof.
  induction l as [|x l IH]; intros H; [congruence|].
  cbn [list_max fold_right]. change (fold_right Nat.max 0 l) with (list_max l).
  destruct l as [|y l]; [cbn; left; lia|].
  destruct (Nat.max_spec x (list_max (y :: l))) as [[_ ->]|[_ ->]].
  - right. apply IH. discriminate.
  - left. reflexivity.
Qed.

Lemma tied_candidates_not_nil (src : Source) (p : Cursor) (token_types : list TokenKind) :
  matched (line_rest src p) token_types <> [] ->
  tied_candidates src p token_types <> [].
Proof.
  intros Hne. unfold tied_candidates, longest.
  set (kns := matched (line_rest src p) token_types) in *.
  assert (In (list_max (map snd kns)) (map snd kns)) as Hin.
  { apply list_max_attained. destruct kns; [congruence | discriminate]. }
  apply in_map_iff in Hin as (kn & Hk & Hin).
  assert (In kn (filter (fun kn => snd kn =? list_max (map snd kns)) kns)) as Hf.
  { apply filter_In. split; [assumption|]. apply Nat.eqb_eq. assumption. }
  destruct (filter _ kns); [contradiction | discriminate].
Qed.

Lemma tied_candidates_rng (src : Source) (p : Cursor) (token_types : list TokenKind)
    (t : Token) :
  In t (tied_candidates src p token_types) ->
  rng t = mkCursorRange p (longest_end src p token_types).
Proof.
  unfold tied_candidates. intros Hin.
  apply in_map_iff in Hin as (kn & <- & Hin).
  apply filter_In in Hin as [_ Hk]. apply Nat.eqb_eq in Hk.
  unfold candidate, longest_end. cbn [rng]. rewrite Hk. reflexivity.
Qed.

(** When no kind matches, [parse_token] raises [Lexer.Error] with the
    cursor where it was. *)
Lemma parse_token_no_match (s : Source) (p : Cursor) (token_types : list TokenKind) :
  row p < rows s ->
  Forall match_in_bounds token_types ->
  matched (line_rest s p) token_types = [] ->
  exists report,
    Lexer_Error_init s p (no_token_msg p) = Ret (Lexer_Error p report) /\
    parse_token token_types (mkInstance s p)
    = (Raise (Lexer_Error p report), mkInstance s p).
Proof.
  intros Hr Hb Hm.
  destruct (nth_error (lines s) (row p)) as [line|] eqn:Hl.
  2:{ apply nth_error_None in Hl. unfold rows in Hr. lia. }
  destruct (Lexer_Error_init_ok s p (no_token_msg p) Hr) as [report Hrep].
  exists report. split; [exact Hrep|].
  unfold parse_token, mbind, get_self, lift. cbn [src pos].
  rewrite (collect_matches_spec s p line Hl token_types [] Hb), Hm.
  cbn [map app]. fold (no_token_msg p). rewrite Hrep. reflexivity.
Qed.

(** When some kind matches, [parse_token] chooses the chain of the longest
    candidates, the last in list order at its head, moves the cursor to
    the end of that match and skips whitespace from there. *)
Lemma parse_token_some_match (s : Source) (p : Cursor) (token_types : list TokenKind) :
  row p < rows s ->
  Forall match_in_bounds token_types ->
  matched (line_rest s p) token_types <> [] ->
  exists tok,
    map unlinked (chain tok) = rev (tied_candidates s p token_types) /\
    rng tok = mkCursorRange p (longest_end s p token_types) /\
    parse_token token_types (mkInstance s p)
    = and_then_return tok
        (skip_whitespace (mkInstance s (longest_end s p token_types))).
Proof.
  intros Hr Hb Hm.
  destruct (nth_error (lines s) (row p)) as [line|] eqn:Hl.
  2:{ apply nth_error_None in Hl. unfold rows in Hr. lia. }
  pose proof (matched_in_bounds (line_rest s p) token_types Hb) as Hin.
  pose proof (tied_candidates_not_nil s p token_types Hm) as Htied.
  unfold parse_token, mbind, get_self, lift. cbn [src pos].
  rewrite (collect_matches_spec s p line Hl token_types [] Hb). cbn [app].
  set (kns := matched (line_rest s p) token_types) in *.
  set (cands := map (candidate s p) kns).
  assert (cands <> []) as Hne by (subst cands; destruct kns; [congruence | discriminate]).
  destruct cands as [|c0 cs0] eqn:Hcands; [congruence|]. rewrite <- Hcands.
  cbv zeta.
  destruct (last_sorted Token_len cands) as (t & Ht & Hk);
    [rewrite Hcands; discriminate|].
  unfold getitem at 1. rewrite Ht.
  assert (Token_len t = longest (line_rest s p) token_types) as Hlen.
  { rewrite Hk. unfold longest. fold kns. subst cands.
    rewrite map_Token_len_candidates by assumption. reflexivity. }
  rewrite Hlen, filter_sorted. subst cands.
  rewrite filter_candidates by assumption.
  subst kns. fold (tied_candidates s p token_types).
  destruct (tied_candidates s p token_types) as [|m0 ms] eqn:Hties; [congruence|].
  cbn [getitem nth_error skipn].
  set (result := fold_left (fun result m => set_alternative m result) ms m0).
  assert (map unlinked (chain result) = rev (m0 :: ms)) as Hchain.
  { subst result. rewrite chain_fold_left.
    assert (map unlinked (m0 :: ms) = m0 :: ms) as Hid.
    { rewrite <- Hties. unfold tied_candidates. apply map_unlinked_candidates. }
    cbn [map] in Hid. injection Hid as H0 Hms.
    assert (chain m0 = [m0]) as ->.
    { rewrite <- H0. reflexivity. }
    cbn [map rev]. rewrite H0, Hms. reflexivity. }
  assert (rng result = mkCursorRange p (longest_end s p token_types)) as Hrng.
  { assert (In (unlinked result) (rev (m0 :: ms))) as Hhd.
    { rewrite <- Hchain. destruct result; cbn. left; reflexivity. }
    apply in_rev in Hhd. rewrite <- Hties in Hhd.
    apply tied_candidates_rng in Hhd. exact Hhd. }
  exists result. split; [exact Hchain|]. split; [exact Hrng|].
  unfold set_pos, mret. cbn [src]. rewrite Hrng. cbn [end_].
  unfold and_then_return.
  destruct (skip_whitespace (mkInstance s (longest_end s p token_types)))
    as [[[]|e|] self']; reflexivity.
Qed.

Lemma longest_end_valid (s : Source) (p : Cursor) (token_types : list TokenKind) :
  valid s p = true -> Forall match_in_bounds token_types ->
  valid s (longest_end s p token_types) = true.
Proof.
  intros Hv Hb. apply valid_iff in Hv as (line & Hl & Hc).
  apply valid_iff. exists line. unfold longest_end. cbn [row col].
  split; [exact Hl|].
  pose proof (longest_in_bounds (line_rest s p) token_types Hb) as Hn.
  assert (length (line_rest s p) = length line - col p) as Hlen
      by (rewrite (line_rest_row s p line Hl); apply length_skipn).
  lia.
Qed.

(** One step from a valid position: a failure that leaves the cursor where
    it was when no kind matches, and otherwise the chain of the longest
    candidates, with the cursor on the first position after the match that
    holds no whitespace. *)
Lemma parse_token_valid (s : Source) (p : Cursor) (token_types : list TokenKind) :
  valid s p = true -> Forall match_in_bounds token_types ->
  (matched (line_rest s p) token_types = [] /\
   exists report,
     Lexer_Error_init s p (no_token_msg p) = Ret (Lexer_Error p report) /\
     parse_token token_types (mkInstance s p)
     = (Raise (Lexer_Error p report), mkInstance s p))
  \/
  (matched (line_rest s p) token_types <> [] /\
   exists tok p',
     parse_token token_types (mkInstance s p) = (Ret tok, mkInstance s p') /\
     map unlinked (chain tok) = rev (tied_candidates s p token_types) /\
     rng tok = mkCursorRange p (longest_end s p token_types) /\
     valid s p' = true /\
     gap s (longest_end s p token_types) p' /\
     (exists c, char_at s p' = Ret c /\ in_WHITESPACE c = false) /\
     remaining s p' <= remaining s (longest_end s p token_types)).
Proof.
  intros Hv Hb.
  assert (row p < rows s) as Hr.
  { apply valid_iff in Hv as (line & Hl & _).
    unfold rows. apply nth_error_Some. congruence. }
  destruct (matched (line_rest s p) token_types) as [|kn kns] eqn:Hm.
  - left. split; [reflexivity|].
    apply parse_token_no_match; assumption.
  - right. split; [discriminate|].
    destruct (parse_token_some_match s p token_types Hr Hb) as (tok & Hch & Hrng & Hrun);
      [rewrite Hm; discriminate|].
    destruct (skip_whitespace_spec s _ (longest_end_valid s p token_types Hv Hb))
      as (p' & Hskip & Hv' & Hgap & Hend & Hrem).
    rewrite Hskip in Hrun. cbn [and_then_return] in Hrun.
    exists tok, p'. repeat split; try assumption; apply Hgap.
Qed.

(** With patterns whose matches end inside their text, [parse_token]
    returns only from a valid position. *)
Lemma parse_token_Ret_valid (s : Source) (p : Cursor) (token_types : list TokenKind)
    (tok : Token) (self' : Instance) :
  Forall match_in_bounds token_types ->
  parse_token token_types (mkInstance s p) = (Ret tok, self') ->
  valid s p = true.
Proof.
  intros Hb Hrun.
  destruct (nth_error (lines s) (row p)) as [line|] eqn:Hl.
  - assert (row p < rows s) as Hr
        by (unfold rows; apply nth_error_Some; congruence).
    destruct (Nat.le_gt_cases (col p) (length line)) as [Hc|Hc].
    { apply valid_iff. eauto. }
    exfalso.
    assert (line_rest s p = []) as Hrest.
    { rewrite (line_rest_row s p line Hl). apply skipn_all2. lia. }
    destruct (matched (line_rest s p) token_types) as [|kn kns] eqn:Hm.
    + destruct (parse_token_no_match s p token_types Hr Hb Hm) as (r & _ & H).
      congruence.
    + destruct (parse_token_some_match s p token_types Hr Hb) as (t & _ & _ & H);
        [rewrite Hm; discriminate|].
      assert (longest_end s p token_types = p) as He.
      { unfold longest_end.
        pose proof (longest_in_bounds (line_rest s p) token_types Hb) as Hn.
        rewrite Hrest in *. cbn [length] in Hn.
        replace (longest [] token_types) with 0 by lia.
        rewrite Nat.add_0_r. apply cursor_eta. }
      rewrite He in H.
      destruct (skip_whitespace_invalid s p) as [e Hskip].
      { destruct (valid s p) eqn:E; [|reflexivity].
        apply valid_iff in E as (l' & Hl' & Hc'). rewrite Hl in Hl'.
        injection Hl' as <-. lia. }
      rewrite Hskip in H. cbn [and_then_return] in H. congruence.
  - exfalso. unfold parse_token, mbind, get_self, lift in Hrun. cbn [src pos] in Hrun.
    destruct token_types as [|k ks]; cbn [collect_matches] in Hrun.
    + destruct (Lexer_Error_init s p
                  (lit "could not parse token at " ++ Cursor_str p)); discriminate.
    + unfold getitem in Hrun. rewrite Hl in Hrun. discriminate.
Qed.

(** What [parse_token] returning says of the step. *)
Lemma parse_token_Ret (s : Source) (p : Cursor) (token_types : list TokenKind)
    (tok : Token) (self' : Instance) :
  Forall match_in_bounds token_types ->
  parse_token token_types (mkInstance s p) = (Ret tok, self') ->
  valid s p = true /\
  matched (line_rest s p) token_types <> [] /\
  map unlinked (chain tok) = rev (tied_candidates s p token_types) /\
  rng tok = mkCursorRange p (longest_end s p token_types) /\
  exists p',
    self' = mkInstance s p' /\ valid s p' = true /\
    gap s (longest_end s p token_types) p' /\
    (exists c, char_at s p' = Ret c /\ in_WHITESPACE c = false) /\
    remaining s p' <= remaining s (longest_end s p token_types).
Proof.
  intros Hb Hrun.
  pose proof (parse_token_Ret_valid s p token_types tok self' Hb Hrun) as Hv.
  split; [exact Hv|].
  destruct (parse_token_valid s p token_types Hv Hb)
    as [(_ & r & _ & H) | (Hm & tok' & p' & H & Hch & Hrng & Hv' & Hgap & Hend & Hrem)].
  - congruence.
  - rewrite H in Hrun. injection Hrun as <- <-.
    repeat split; try assumption; try apply Hgap.
    exists p'. repeat split; try assumption; apply Hgap.
Qed.

(** Every token of the chain is the candidate of a kind of the list whose
    match is of the longest length. *)
Lemma chain_member (s : Source) (p : Cursor) (token_types : list TokenKind)
    (tok t : Token) :
  map unlinked (chain tok) = rev (tied_candidates s p token_types) ->
  In t (chain tok) ->
  exists k n,
    In k token_types /\ regex k (line_rest s p) = Some n /\
    n = longest (line_rest s p) token_types /\
    unlinked t = candidate s p (k, n).
Proof.
  intros Hch Hin.
  assert (In (unlinked t) (rev (tied_candidates s p token_types))) as H
      by (rewrite <- Hch; apply in_map; exact Hin).
  apply in_rev in H. unfold tied_candidates in H.
  apply in_map_iff in H as ([k n] & Hc & H).
  apply filter_In in H as [Hm Hn]. cbn [snd] in Hn. apply Nat.eqb_eq in Hn.
  apply matched_In in Hm as [Hk Hm].
  exists k, n. repeat split; try assumption. symmetry; exact Hc.
Qed.

Lemma chain_head (t : Token) : In t (chain t).
Proof. destruct t; cbn. left; reflexivity. Qed.

(** Walking [alternative] ends: the last token of the chain has none. *)
Lemma chain_last_unset (t : Token) : alternative (last (chain t) t) = None.
Proof.
  assert (forall n t d, length (chain t) <= n -> alternative (last (chain t) d) = None)
    as H.
  { induction n as [|n IH]; intros t0 d Hn.
    - destruct t0; cbn in Hn; lia.
    - destruct t0 as [k sr r l [a|]]; cbn [chain alternative] in *.
      + cbn [length] in Hn.
        assert (chain a <> []) as Hne by (destruct a; discriminate).
        destruct (chain a) as [|x xs] eqn:E; [congruence|].
        change (last (mkToken k sr r l (Some a) :: x :: xs) d)
          with (last (x :: xs) d).
        rewrite <- E. apply IH. rewrite E. cbn [length] in *. lia.
      + reflexivity. }
  apply (H (length (chain t))). lia.
Qed.

(* ================================================================== *)
(** * Patterns of the declared vocabularies *)
(* ================================================================== *)

(** Whatever the matcher returns, its continuation returned, on a text no
    longer than the one matched. *)
Lemma re_run_result (r : re) :
  forall s k n,
    re_run r s k = Some n -> exists s', length s' <= length s /\ k s' = Some n.
Proof.
  induction r as [|q|r1 IH1 r2 IH2|r1 IH1 r2 IH2|r IH]; intros s k n H;
    cbn [re_run] in H.
  - eauto.
  - destruct s as [|c s]; [discriminate|].
    destruct (q c); [|discriminate]. exists s. cbn [length]. split; [lia | exact H].
  - apply IH1 in H as (s1 & L1 & H). apply IH2 in H as (s2 & L2 & H).
    exists s2. split; [lia | exact H].
  - destruct (re_run r1 s k) eqn:E.
    + injection H as ->. eapply IH1; eassumption.
    + eapply IH2; eassumption.
  - revert H. generalize (length s) at 1. intros fuel. revert s.
    induction fuel as [|fuel IHf]; intros s H; [eauto|].
    match type of H with
    | match ?m with _ => _ end = _ => destruct m eqn:E
    end.
    + injection H as ->. apply IH in E as (s1 & L1 & E).
      destruct (length s1 <? length s); [|discriminate].
      apply IHf in E as (s2 & L2 & E). exists s2. split; [lia | exact E].
    + eauto.
Qed.

Lemma re_match_in_bounds (r : re) (s : str) (n : nat) :
  re_match r s = Some n -> n <= length s.
Proof.
  unfold re_match. intros H. apply re_run_result in H as (s' & _ & H).
  injection H as <-. lia.
Qed.

(** A pattern that starts with a character class consumes a character. *)
Lemma re_match_Class_first (q : ascii -> bool) (r : re) (s : str) :
  re_match (Cat (Class q) r) s <> Some 0.
Proof.
  unfold re_match. cbn [re_run]. intros H.
  destruct s as [|c s]; [discriminate|].
  destruct (q c); [|discriminate].
  apply re_run_result in H as (s' & L & H).
  assert (length (c :: s) - length s' = 0) as H0 by congruence.
  cbn [length] in H0. lia.
Qed.

Lemma re_match_Class (q : ascii -> bool) (s : str) :
  re_match (Class q) s <> Some 0.
Proof.
  unfold re_match. cbn [re_run]. intros H.
  destruct s as [|c s]; [discriminate|].
  destruct (q c); [|discriminate].
  assert (length (c :: s) - length s = 0) as H0 by congruence.
  cbn [length] in H0. lia.
Qed.

Lemma test_0_never_empty : Forall never_empty test_0_token_types.
Proof.
  repeat constructor; intros s;
    first [apply re_match_Class | apply re_match_Class_first].
Qed.

Lemma Token_define_in_bounds (name : string) (r : re) :
  match_in_bounds (Token_define name r).
Proof. intros s n. apply re_match_in_bounds. Qed.

Lemma Xml_candidates_in_bounds (result : list Token) :
  Forall match_in_bounds (Xml.candidates result).
Proof.
  assert (Forall match_in_bounds Xml.token_types_excluding_text) as H1
      by (repeat constructor; apply Token_define_in_bounds).
  assert (Forall match_in_bounds Xml.token_types) as H2
      by (apply Forall_app; split; [exact H1|];
          repeat constructor; apply Token_define_in_bounds).
  unfold Xml.candidates. destruct result; [exact H1|].
  destruct (nth_error _ _); [|exact H1].
  destruct (str_eqb _ _); assumption.
Qed.

(* ================================================================== *)
(** * The loops *)
(* ================================================================== *)

Lemma lex_loop_lex_with (token_types : list TokenKind) (fuel : nat) :
  forall result self,
    lex_loop fuel token_types result self
    = lex_with (fun _ => token_types) fuel result self.
Proof.
  induction fuel as [|fuel IH]; intros result self; [reflexivity|].
  cbn [lex_loop lex_with]. unfold mbind.
  destruct (get_self self) as [[x| |] ?]; try reflexivity.
  destruct (lift _ _) as [[c| |] ?]; try reflexivity.
  destruct (str_eqb c EOF); [reflexivity|].
  destruct (parse_token _ _) as [[t| |] ?]; try reflexivity.
  apply IH.
Qed.

Lemma Xml_lex_loop_lex_with (fuel : nat) :
  forall result self,
    Xml.lex_loop fuel result self = lex_with Xml.candidates fuel result self.
Proof.
  induction fuel as [|fuel IH]; intros result self; [reflexivity|].
  cbn [Xml.lex_loop lex_with]. unfold mbind.
  destruct (get_self self) as [[x| |] ?]; try reflexivity.
  destruct (lift _ _) as [[c| |] ?]; try reflexivity.
  destruct (str_eqb c EOF); [reflexivity|].
  destruct (parse_token _ _) as [[t| |] ?]; try reflexivity.
  apply IH.
Qed.

Section Loop.

Variable s : Source.
Variable choose : list Token -> list TokenKind.
Hypothesis choose_in_bounds : forall result, Forall match_in_bounds (choose result).

(** A property of the tokens emitted so far and of the cursor that every
    step keeps holds when the loop returns. *)
Lemma lex_with_invariant (I : list Token -> Cursor -> Prop) :
  (forall result p tok self',
      I result p ->
      parse_token (choose result) (mkInstance s p) = (Ret tok, self') ->
      I (result ++ [tok]) (pos self')) ->
  forall fuel result p toks self',
    valid s p = true -> I result p ->
    lex_with choose fuel result (mkInstance s p) = (Ret toks, self') ->
    I toks (pos self').
Proof.
  intros Hstep. induction fuel as [|fuel IH]; intros result p toks self' Hv HI Hrun;
    [discriminate|].
  cbn [lex_with] in Hrun. unfold mbind, get_self, lift in Hrun. cbn [src pos] in Hrun.
  destruct (char_at s p) as [c| |]; try discriminate.
  destruct (str_eqb c EOF).
  - unfold mret in Hrun. injection Hrun as <- <-. exact HI.
  - destruct (parse_token (choose result) (mkInstance s p)) as [[tok| |] self1] eqn:Hp;
      try discriminate.
    pose proof (Hstep _ _ _ _ HI Hp) as HI'.
    destruct (parse_token_Ret s p _ tok self1 (choose_in_bounds result) Hp)
      as (_ & _ & _ & _ & p' & -> & Hv' & _).
    cbn [pos] in HI'. eapply IH; eassumption.
Qed.

End Loop.

(* ================================================================== *)
(** * Progress *)
(* ================================================================== *)

Lemma longest_positive (text : str) (token_types : list TokenKind) :
  Forall never_empty token_types ->
  matched text token_types <> [] ->
  0 < longest text token_types.
Proof.
  intros Hne Hm. unfold longest.
  assert (In (list_max (map snd (matched text token_types)))
             (map snd (matched text token_types))) as Hin.
  { apply list_max_attained. destruct (matched text token_types);
      [congruence | discriminate]. }
  apply in_map_iff in Hin as ([k n] & Hn & Hin). cbn [snd] in Hn.
  apply matched_In in Hin as [Hk Hr].
  rewrite Forall_forall in Hne. specialize (Hne k Hk text).
  destruct n; [congruence | lia].
Qed.

(** A match of positive length ends strictly after it starts, with fewer
    positions remaining. *)
Lemma longest_end_advances (s : Source) (p : Cursor) (token_types : list TokenKind) :
  valid s p = true -> Forall match_in_bounds token_types ->
  0 < longest (line_rest s p) token_types ->
  Cursor_lt p (longest_end s p token_types) = true /\
  remaining s (longest_end s p token_types) < remaining s p.
Proof.
  intros Hv Hb Hpos.
  pose proof (longest_end_valid s p token_types Hv Hb) as Hv'.
  apply valid_iff in Hv as (line & Hl & Hc).
  apply valid_iff in Hv' as (line' & Hl' & Hc').
  unfold longest_end in *. cbn [row col] in *.
  assert (line' = line) as -> by congruence.
  split.
  - destruct p; cursor_arith. lia.
  - rewrite (remaining_in_row s p line Hl).
    rewrite (remaining_in_row s (mkCursor (row p) _) line Hl).
    cbn [row col]. lia.
Qed.

Section Progress.

Variable s : Source.
Variable choose : list Token -> list TokenKind.
Hypothesis choose_in_bounds : forall result, Forall match_in_bounds (choose result).
Hypothesis choose_never_empty : forall result, Forall never_empty (choose result).

(** With kinds that never match the empty string every step consumes
    input, so the loop ends within as many steps as positions remain. *)
Lemma lex_with_terminates :
  forall fuel result p,
    valid s p = true -> remaining s p < fuel ->
    fst (lex_with choose fuel result (mkInstance s p)) <> OutOfFuel.
Proof.
  induction fuel as [|fuel IH]; intros result p Hv Hf; [lia|].
  cbn [lex_with]. unfold mbind, get_self, lift. cbn [src pos].
  pose proof Hv as Hc. apply char_at_valid in Hc as [c ->].
  destruct (str_eqb c EOF); [discriminate|].
  destruct (parse_token_valid s p (choose result) Hv (choose_in_bounds result))
    as [(_ & r & _ & ->) | (Hm & tok & p' & -> & _ & _ & Hv' & _ & _ & Hrem)];
    [discriminate|].
  pose proof (longest_positive _ _ (choose_never_empty result) Hm) as Hpos.
  destruct (longest_end_advances s p (choose result) Hv (choose_in_bounds result) Hpos)
    as [_ Hlt].
  apply IH; [exact Hv' | lia].
Qed.

End Progress.

(* ================================================================== *)
(** * What the loop emits *)
(* ================================================================== *)

Section Emitted.

Variable s : Source.
Variable choose : list Token -> list TokenKind.
Hypothesis choose_in_bounds : forall result, Forall match_in_bounds (choose result).

(** Every token of the output was returned by [parse_token], run with the
    candidate list chosen from the tokens before it. *)
Lemma lex_with_emitted (fuel : nat) (p : Cursor) (toks : list Token) (self' : Instance) :
  valid s p = true ->
  lex_with choose fuel [] (mkInstance s p) = (Ret toks, self') ->
  forall i t,
    nth_error toks i = Some t ->
    exists p0 self1,
      parse_token (choose (firstn i toks)) (mkInstance s p0) = (Ret t, self1).
Proof.
  intros Hv Hrun.
  apply (lex_with_invariant s choose choose_in_bounds
           (fun result _ =>
              forall i t, nth_error result i = Some t ->
                          exists p0 self1,
                            parse_token (choose (firstn i result)) (mkInstance s p0)
                            = (Ret t, self1))
           ) with (fuel := fuel) (result := []) (p := p) (self' := self');
    try assumption.
  - intros result q tok self1 HI Hp i t Hi.
    destruct (Nat.lt_ge_cases i (length result)) as [Hlt|Hge].
    + rewrite nth_error_app1 in Hi by assumption.
      rewrite firstn_app. replace (i - length result) with 0 by lia.
      cbn [firstn]. rewrite app_nil_r. apply HI. exact Hi.
    + rewrite nth_error_app2 in Hi by assumption.
      destruct (i - length result) as [|d] eqn:E.
      2:{ destruct d; discriminate. }
      cbn in Hi. injection Hi as <-.
      assert (i = length result) as -> by lia.
      rewrite firstn_app, firstn_all, Nat.sub_diag. cbn [firstn].
      rewrite app_nil_r. eauto.
  - intros i t Hi. destruct i; discriminate.
Qed.

(** Consecutive tokens are in order with only whitespace between them,
    and so are the last token and the cursor. *)
Lemma lex_with_gaps (fuel : nat) (p : Cursor) (toks : list Token) (self' : Instance) :
  valid s p = true ->
  lex_with choose fuel [] (mkInstance s p) = (Ret toks, self') ->
  forall i t1 t2,
    nth_error toks i = Some t1 -> nth_error toks (S i) = Some t2 ->
    gap s (end_ (rng t1)) (start (rng t2)).
Proof.
  intros Hv Hrun.
  apply (lex_with_invariant s choose choose_in_bounds
           (fun result q =>
              (forall i t1 t2,
                  nth_error result i = Some t1 -> nth_error result (S i) = Some t2 ->
                  gap s (end_ (rng t1)) (start (rng t2))) /\
              (forall i t, nth_error result i = Some t -> S i = length result ->
                           gap s (end_ (rng t)) q))
        ) with (fuel := fuel) (result := []) (p := p) (self' := self');
    try assumption.
  - intros result q tok self1 [Hpairs Hlast] Hp.
    destruct (parse_token_Ret s q _ tok self1 (choose_in_bounds result) Hp)
      as (_ & _ & _ & Hrng & p' & -> & _ & Hgap & _).
    cbn [pos]. split.
    + intros i t1 t2 H1 H2.
      destruct (Nat.lt_ge_cases (S i) (length result)) as [Hlt|Hge].
      * rewrite nth_error_app1 in H1 by lia.
        rewrite nth_error_app1 in H2 by lia.
        eapply Hpairs; eassumption.
      * rewrite nth_error_app2 in H2 by assumption.
        destruct (S i - length result) as [|d] eqn:E.
        2:{ destruct d; discriminate. }
        cbn in H2. injection H2 as <-.
        rewrite nth_error_app1 in H1 by lia.
        rewrite Hrng. cbn [start]. apply (Hlast i t1 H1). lia.
    + intros i t Hi Hlen. rewrite length_app in Hlen. cbn [length] in Hlen.
      rewrite nth_error_app2 in Hi by lia.
      replace (i - length result) with 0 in Hi by lia.
      cbn in Hi. injection Hi as <-.
      rewrite Hrng. cbn [end_]. exact Hgap.
  - split.
    + intros i t1 t2 Hi. destruct i; discriminate.
    + intros i t Hi. destruct i; discriminate.
Qed.

End Emitted.

(** A [GenericLexer] that returns ran its loop from a valid position. *)
Lemma GenericLexer_lex_Ret (fuel : nat) (token_types : list TokenKind) (s : Source)
    (toks : list Token) :
  GenericLexer_lex fuel token_types s = Ret toks ->
  exists p self',
    valid s p = true /\
    lex_with (fun _ => token_types) fuel [] (mkInstance s p) = (Ret toks, self').
Proof.
  unfold GenericLexer_lex, GenericLexer_Instance_lex, Instance_init, mbind.
  intros H.
  destruct (valid s (mkCursor 0 0)) eqn:Hv.
  - destruct (skip_whitespace_spec s _ Hv) as (p & Hskip & Hvp & _).
    rewrite Hskip in H. rewrite lex_loop_lex_with in H.
    destruct (lex_with _ fuel [] (mkInstance s p)) as [o self'] eqn:E.
    cbn [fst] in H. subst o. eauto.
  - destruct (skip_whitespace_invalid s _ Hv) as (e & Hskip).
    rewrite Hskip in H. discriminate.
Qed.

Lemma Xml_lex_Ret (fuel : nat) (s : Source) (toks : list Token) :
  Xml.lex fuel s = Ret toks ->
  exists p self',
    valid s p = true /\
    lex_with Xml.candidates fuel [] (mkInstance s p) = (Ret toks, self').
Proof.
  unfold Xml.lex, Xml.Instance_lex, Instance_init, mbind.
  intros H.
  destruct (valid s (mkCursor 0 0)) eqn:Hv.
  - destruct (skip_whitespace_spec s _ Hv) as (p & Hskip & Hvp & _).
    rewrite Hskip in H. rewrite Xml_lex_loop_lex_with in H.
    destruct (lex_with _ fuel [] (mkInstance s p)) as [o self'] eqn:E.
    cbn [fst] in H. subst o. eauto.
  - destruct (skip_whitespace_invalid s _ Hv) as (e & Hskip).
    rewrite Hskip in H. discriminate.
Qed.

(* ================================================================== *)
(** * The tests of the repository *)
(* ================================================================== *)

(** [test_0]: the generic lexer on ["a*b+(c|d)?"]. *)
Example test_0 :
  lexemes (GenericLexer_lex 11 test_0_token_types (Source_init test_0_str))
  = Ret test_0_expected.
Proof. vm_compute. reflexivity. Qed.

(** [test_1]: the Xml lexer on the sample document. *)
Example test_1 :
  lexemes (Xml.lex 54 (Source_init test_1_str)) = Ret test_1_expected.
Proof. vm_compute. reflexivity. Qed.

(** The second example of the specification: after the [>] that closes an
    opening tag the text is one [Text] token. *)
Example markup_example :
  lexemes (Xml.lex 11
             (Source_init (lit "<tag attr=" ++ DQ ++ lit "v" ++ DQ ++ lit ">text</tag>")))
  = Ret [ lit "<"; lit "tag"; lit "attr"; lit "="; DQ ++ lit "v" ++ DQ; lit ">";
          lit "text"; lit "</"; lit "tag"; lit ">" ].
Proof. vm_compute. reflexivity. Qed.

(* ================================================================== *)
(** * Longest match, for every emitted token *)
(* ================================================================== *)

Lemma no_longer_match (text : str) (token_types : list TokenKind) (k : TokenKind)
    (n : nat) :
  In k token_types -> regex k text = Some n -> n <= longest text token_types.
Proof.
  intros Hk Hm. unfold longest.
  assert (In n (map snd (matched text token_types))) as Hin.
  { apply in_map_iff. exists (k, n). split; [reflexivity|].
    apply matched_In. auto. }
  pose proof (proj1 (list_max_le (map snd (matched text token_types)) _)
                (Nat.le_refl _)) as Hall.
  rewrite Forall_forall in Hall. apply Hall. exact Hin.
Qed.

(** No kind of the list chosen for a step matches longer, at the start of
    the token the step emitted, than that token is long. *)
Lemma lex_with_longest_match (s : Source) (choose : list Token -> list TokenKind)
    (fuel : nat) (p : Cursor) (toks : list Token) (self' : Instance) :
  (forall result, Forall match_in_bounds (choose result)) ->
  valid s p = true ->
  lex_with choose fuel [] (mkInstance s p) = (Ret toks, self') ->
  forall i tok k n,
    nth_error toks i = Some tok ->
    In k (choose (firstn i toks)) ->
    regex k (line_rest s (start (rng tok))) = Some n ->
    n <= col (end_ (rng tok)) - col (start (rng tok)).
Proof.
  intros Hb Hv Hrun i tok k n Hi Hk Hm.
  destruct (lex_with_emitted s choose Hb fuel p toks self' Hv Hrun i tok Hi)
    as (p0 & self1 & Hp).
  destruct (parse_token_Ret s p0 _ tok self1 (Hb _) Hp) as (_ & _ & _ & Hrng & _).
  rewrite Hrng in *. unfold longest_end. cbn [start end_ row col] in *.
  pose proof (no_longer_match _ _ k n Hk Hm). lia.
Qed.

Lemma GenericLexer_lex_longest_match (fuel : nat) (token_types : list TokenKind)
    (s : Source) (toks : list Token) (tok : Token) (k : TokenKind) (n : nat) :
  Forall match_in_bounds token_types ->
  GenericLexer_lex fuel token_types s = Ret toks ->
  In tok toks ->
  In k token_types ->
  regex k (line_rest s (start (rng tok))) = Some n ->
  n <= col (end_ (rng tok)) - col (start (rng tok)).
Proof.
  intros Hb Hrun Htok Hk Hm.
  destruct (GenericLexer_lex_Ret fuel token_types s toks Hrun) as (p & self' & Hv & Hloop).
  apply In_nth_error in Htok as [i Hi].
  exact (lex_with_longest_match s (fun _ => token_types) fuel p toks self'
           (fun _ => Hb) Hv Hloop i tok k n Hi Hk Hm).
Qed.

Lemma Xml_lex_longest_match (fuel : nat) (s : Source) (toks : list Token) (i : nat)
    (tok : Token) (k : TokenKind) (n : nat) :
  Xml.lex fuel s = Ret toks ->
  nth_error toks i = Some tok ->
  In k (Xml.candidates (firstn i toks)) ->
  regex k (line_rest s (start (rng tok))) = Some n ->
  n <= col (end_ (rng tok)) - col (start (rng tok)).
Proof.
  intros Hrun Hi Hk Hm.
  destruct (Xml_lex_Ret fuel s toks Hrun) as (p & self' & Hv & Hloop).
  exact (lex_with_longest_match s Xml.candidates fuel p toks self'
           Xml_candidates_in_bounds Hv Hloop i tok k n Hi Hk Hm).
Qed.

(* ================================================================== *)
(** * The properties of the specification *)
(* ================================================================== *)

Lemma char_at_cases (s : Source) (p : Cursor) (c : str) :
  char_at s p = Ret c ->
  c = EOF \/ c = [NL] \/
  exists line x, nth_error (lines s) (row p) = Some line /\
                 nth_error line (col p) = Some x /\ c = [x].
Proof.
  unfold char_at, cols, getitem. intros H.
  destruct (nth_error (lines s) (row p)) as [line|]; cbn [obind] in H; [|discriminate].
  destruct (col p =? length line).
  - injection H as <-. destruct (row p =? rows s - 1); auto.
  - destruct (nth_error line (col p)) as [x|] eqn:E; cbn [obind] in H; [|discriminate].
    injection H as <-. right; right. eauto.
Qed.

(** C9. After [skip_whitespace], run from a valid cursor, the cursor is at
    or after where it was, every valid position it passed over holds a
    character of the whitespace set, and the new cursor holds the
    end-of-input marker or a character that is no space, tab or newline;
    the marker itself is not in the whitespace set. *)
Theorem skip_whitespace_postcondition (s : Source) (p : Cursor) :
  valid s p = true ->
  exists p',
    skip_whitespace (mkInstance s p) = (Ret tt, mkInstance s p') /\
    Cursor_le p p' = true /\
    (forall q, valid s q = true -> Cursor_le p q = true -> Cursor_lt q p' = true ->
               whitespace_at s q) /\
    (char_at s p' = Ret EOF \/
     exists c, char_at s p' = Ret [c] /\ c <> SPACE /\ c <> TAB /\ c <> NL) /\
    in_WHITESPACE EOF = false.
Proof.
  intros Hv.
  destruct (skip_whitespace_spec s p Hv) as (p' & Hrun & _ & [Hle Hgap] & (c & Hc & Hw) & _).
  exists p'. repeat split; try assumption.
  destruct (char_at_cases s p' c Hc) as [->|[->|(line & x & _ & _ & ->)]].
  - left; exact Hc.
  - discriminate.
  - right. exists x. split; [exact Hc|].
    repeat split; intros ->; discriminate.
Qed.

Lemma skip_whitespace_postcondition_witness :
  let s := Source_init (lit "  x") in
  valid s origin = true /\
  exists p',
    skip_whitespace (mkInstance s origin) = (Ret tt, mkInstance s p') /\
    Cursor_le origin p' = true /\
    (forall q, valid s q = true -> Cursor_le origin q = true -> Cursor_lt q p' = true ->
               whitespace_at s q) /\
    (char_at s p' = Ret EOF \/
     exists c, char_at s p' = Ret [c] /\ c <> SPACE /\ c <> TAB /\ c <> NL) /\
    in_WHITESPACE EOF = false.
Proof.
  split; [reflexivity|].
  apply (skip_whitespace_postcondition (Source_init (lit "  x")) origin).
  reflexivity.
Defined.

Lemma map_kind_unlinked (ts : list Token) : map kind (map unlinked ts) = map kind ts.
Proof. rewrite map_map. apply map_ext. intros []; reflexivity. Qed.

Lemma map_kind_tied_candidates (s : Source) (p : Cursor) (token_types : list TokenKind) :
  map kind (tied_candidates s p token_types) = tied (line_rest s p) token_types.
Proof.
  unfold tied_candidates, tied. rewrite map_map. apply map_ext. reflexivity.
Qed.

(** C1. When [parse_token] returns, the kinds met by walking [alternative]
    from the returned token are the kinds whose match is of the longest
    length, in reverse of the order of the candidate list: the token
    returned is of the last of them, all of them span the same range, and
    the walk ends in a token whose [alternative] is unset. *)
Theorem parse_token_tie_break (s : Source) (p : Cursor)
    (token_types : list TokenKind) (tok : Token) (self' : Instance) :
  Forall match_in_bounds token_types ->
  parse_token token_types (mkInstance s p) = (Ret tok, self') ->
  map kind (chain tok) = rev (tied (line_rest s p) token_types) /\
  (forall t, In t (chain tok) -> rng t = rng tok) /\
  alternative (last (chain tok) tok) = None.
Proof.
  intros Hb Hrun.
  destruct (parse_token_Ret s p token_types tok self' Hb Hrun)
    as (_ & _ & Hch & Hrng & _).
  split; [|split].
  - rewrite <- map_kind_tied_candidates, <- map_rev, <- Hch.
    symmetry. apply map_kind_unlinked.
  - intros t Hin.
    destruct (chain_member s p token_types tok t Hch Hin) as (k & n & _ & _ & Hn & Hu).
    rewrite Hrng. destruct t as [k' s' r' l' a']. unfold unlinked, candidate in Hu.
    cbn [kind token_src rng lexeme fst snd] in *.
    injection Hu as _ _ -> _. unfold longest_end. rewrite Hn. reflexivity.
  - apply chain_last_unset.
Qed.

Lemma parse_token_tie_break_witness :
  Forall match_in_bounds [Character; Identifier] /\
  parse_token [Character; Identifier] (mkInstance one_letter origin)
  = (Ret one_letter_token, mkInstance one_letter (mkCursor 0 1)) /\
  map kind (chain one_letter_token) = [Identifier; Character] /\
  (forall t, In t (chain one_letter_token) -> rng t = rng one_letter_token) /\
  alternative (last (chain one_letter_token) one_letter_token) = None.
Proof.
  assert (Forall match_in_bounds [Character; Identifier]) as Hb
      by (repeat constructor; apply Token_define_in_bounds).
  assert (parse_token [Character; Identifier] (mkInstance one_letter origin)
          = (Ret one_letter_token, mkInstance one_letter (mkCursor 0 1))) as Hrun
      by (vm_compute; reflexivity).
  split; [exact Hb|]. split; [exact Hrun|].
  exact (parse_token_tie_break one_letter origin [Character; Identifier]
           one_letter_token (mkInstance one_letter (mkCursor 0 1)) Hb Hrun).
Defined.

(** C2. When [parse_token] returns, the token starts at the cursor and ends
    on the same line, its kind is one of the candidate list and matches
    exactly the token's length there, and no kind of the list matches a
    longer prefix of the rest of the line. *)
Theorem parse_token_longest_match (s : Source) (p : Cursor)
    (token_types : list TokenKind) (tok : Token) (self' : Instance) :
  Forall match_in_bounds token_types ->
  parse_token token_types (mkInstance s p) = (Ret tok, self') ->
  start (rng tok) = p /\
  row (end_ (rng tok)) = row (start (rng tok)) /\
  In (kind tok) token_types /\
  regex (kind tok) (line_rest s (start (rng tok)))
  = Some (col (end_ (rng tok)) - col (start (rng tok))) /\
  forall k n,
    In k token_types -> regex k (line_rest s (start (rng tok))) = Some n ->
    n <= col (end_ (rng tok)) - col (start (rng tok)).
Proof.
  intros Hb Hrun.
  destruct (parse_token_Ret s p token_types tok self' Hb Hrun)
    as (_ & _ & Hch & Hrng & _).
  destruct (chain_member s p token_types tok tok Hch (chain_head tok))
    as (k0 & n0 & Hk0 & Hm0 & Hn0 & Hu).
  assert (kind tok = k0) as Hkind
      by (destruct tok; unfold unlinked, candidate in Hu; cbn in *; congruence).
  rewrite Hrng. unfold longest_end. cbn [start end_ row col].
  replace (col p + longest (line_rest s p) token_types - col p)
    with (longest (line_rest s p) token_types) by lia.
  repeat split.
  - rewrite Hkind. exact Hk0.
  - rewrite Hkind, Hm0, Hn0. reflexivity.
  - intros k n Hk Hm. exact (no_longer_match _ _ k n Hk Hm).
Qed.

Lemma parse_token_longest_match_witness :
  Forall match_in_bounds [Character; Identifier] /\
  parse_token [Character; Identifier] (mkInstance one_letter origin)
  = (Ret one_letter_token, mkInstance one_letter (mkCursor 0 1)) /\
  start (rng one_letter_token) = origin /\
  row (end_ (rng one_letter_token)) = row (start (rng one_letter_token)) /\
  In (kind one_letter_token) [Character; Identifier] /\
  regex (kind one_letter_token) (line_rest one_letter (start (rng one_letter_token)))
  = Some (col (end_ (rng one_letter_token)) - col (start (rng one_letter_token))) /\
  forall k n,
    In k [Character; Identifier] ->
    regex k (line_rest one_letter (start (rng one_letter_token))) = Some n ->
    n <= col (end_ (rng one_letter_token)) - col (start (rng one_letter_token)).
Proof.
  assert (Forall match_in_bounds [Character; Identifier]) as Hb
      by (repeat constructor; apply Token_define_in_bounds).
  assert (parse_token [Character; Identifier] (mkInstance one_letter origin)
          = (Ret one_letter_token, mkInstance one_letter (mkCursor 0 1))) as Hrun
      by (vm_compute; reflexivity).
  split; [exact Hb|]. split; [exact Hrun|].
  exact (parse_token_longest_match one_letter origin [Character; Identifier]
           one_letter_token (mkInstance one_letter (mkCursor 0 1)) Hb Hrun).
Defined.

Lemma matched_nil_iff (text : str) (token_types : list TokenKind) :
  matched text token_types = [] <->
  forall k, In k token_types -> regex k text = None.
Proof.
  split.
  - intros Hm k Hk. destruct (regex k text) as [n|] eqn:E; [|reflexivity].
    assert (In (k, n) (matched text token_types)) as Hin
        by (apply matched_In; auto).
    rewrite Hm in Hin. contradiction.
  - intros H. destruct (matched text token_types) as [|[k n] kns] eqn:E;
      [reflexivity|].
    assert (In (k, n) (matched text token_types)) as Hin
        by (rewrite E; left; reflexivity).
    apply matched_In in Hin as [Hk Hr]. rewrite (H k Hk) in Hr. discriminate.
Qed.








(** C5, as the code has it.  At a valid cursor [parse_token] raises
    [Lexer.Error] exactly when no kind of the candidate list matches at
    all, the empty prefix included; the failure carries the cursor of the
    start of the step, its report is the one built for that cursor, and
    the cursor of the instance has not moved. *)
Theorem parse_token_failure (s : Source) (p : Cursor) (token_types : list TokenKind) :
  valid s p = true ->
  Forall match_in_bounds token_types ->
  ((exists q report self',
       parse_token token_types (mkInstance s p) = (Raise (Lexer_Error q report), self'))
   <-> (forall k, In k token_types -> regex k (line_rest s p) = None)) /\
  (forall q report self',
      parse_token token_types (mkInstance s p) = (Raise (Lexer_Error q report), self') ->
      q = p /\ self' = mkInstance s p /\
      Lexer_Error_init s p (no_token_msg p) = Ret (Lexer_Error p report)).
Proof.
  intros Hv Hb. rewrite <- matched_nil_iff.
  destruct (parse_token_valid s p token_types Hv Hb)
    as [(Hm & r & Hrep & H) | (Hm & tok & p' & H & _)].
  - split.
    + split; [intros _; exact Hm | intros _; eauto].
    + intros q report self' H'. rewrite H in H'. injection H' as <- <- <-.
      auto.
  - split.
    + split; [|contradiction]. intros (q & report & self' & H').
      rewrite H in H'. discriminate.
    + intros q report self' H'. rewrite H in H'. discriminate.
Qed.

Lemma parse_token_failure_witness :
  valid (Source_init (lit "?")) origin = true /\
  Forall match_in_bounds [Character; Identifier] /\
  ((exists q report self',
       parse_token [Character; Identifier] (mkInstance (Source_init (lit "?")) origin)
       = (Raise (Lexer_Error q report), self'))
   <-> (forall k, In k [Character; Identifier] ->
                  regex k (line_rest (Source_init (lit "?")) origin) = None)) /\
  (forall q report self',
      parse_token [Character; Identifier] (mkInstance (Source_init (lit "?")) origin)
      = (Raise (Lexer_Error q report), self') ->
      q = origin /\ self' = mkInstance (Source_init (lit "?")) origin /\
      Lexer_Error_init (Source_init (lit "?")) origin (no_token_msg origin)
      = Ret (Lexer_Error origin report)).
Proof.
  assert (Forall match_in_bounds [Character; Identifier]) as Hb
      by (repeat constructor; apply Token_define_in_bounds).
  split; [reflexivity|]. split; [exact Hb|].
  exact (parse_token_failure (Source_init (lit "?")) origin [Character; Identifier]
           eq_refl Hb).
Defined.

(** C5 as stated fails: no kind of [[As]] matches a non-empty prefix of
    ["b"], and yet [parse_token] raises nothing: it returns the token of
    the empty match. *)
Lemma empty_match_is_no_failure :
  (forall k n, In k [As] -> regex k (line_rest stuck origin) = Some n -> n = 0) /\
  parse_token [As] (mkInstance stuck origin) = (Ret stuck_token, mkInstance stuck origin) /\
  ~ ((exists e self', parse_token [As] (mkInstance stuck origin) = (Raise e, self'))
     <-> (forall k n, In k [As] -> regex k (line_rest stuck origin) = Some n -> n = 0)).
Proof.
  assert (forall k n, In k [As] -> regex k (line_rest stuck origin) = Some n -> n = 0)
    as Hnone.
  { intros k n [<-|[]] H. vm_compute in H. congruence. }
  assert (parse_token [As] (mkInstance stuck origin)
          = (Ret stuck_token, mkInstance stuck origin)) as Hp
      by (vm_compute; reflexivity).
  split; [exact Hnone|]. split; [exact Hp|].
  intros [_ H]. destruct (H Hnone) as (e & self' & H').
  rewrite Hp in H'. discriminate.
Qed.

(** The tokens of the chain a step returns: each is over the source, and
    its lexeme is the slice of the line its range spans. *)
Lemma chain_token_lexeme (s : Source) (p : Cursor) (token_types : list TokenKind)
    (tok t : Token) :
  valid s p = true ->
  Forall match_in_bounds token_types ->
  map unlinked (chain tok) = rev (tied_candidates s p token_types) ->
  In t (chain tok) ->
  token_src t = s /\
  str_at s (rng t) = Ret (lexeme t) /\
  row (end_ (rng t)) = row (start (rng t)) /\
  length (lexeme t) = col (end_ (rng t)) - col (start (rng t)) /\
  forall i c,
    nth_error (lexeme t) i = Some c ->
    char_at s (mkCursor (row (start (rng t))) (col (start (rng t)) + i)) = Ret [c].
Proof.
  intros Hv Hb Hch Ht.
  destruct (chain_member s p token_types tok t Hch Ht) as (k & n & Hk & Hm & _ & Hu).
  assert (n <= length (line_rest s p)) as Hn.
  { rewrite Forall_forall in Hb. exact (Hb k Hk _ _ Hm). }
  destruct t as [k' s' r' l' a']. unfold unlinked, candidate in Hu.
  cbn [kind token_src rng lexeme fst snd] in *.
  injection Hu as _ -> -> ->. cbn [start end_ row col].
  split; [reflexivity|]. split; [apply str_at_in_line; exact Hn|].
  split; [reflexivity|]. split; [rewrite length_firstn; lia|].
  intros j c Hj. rewrite nth_error_firstn in Hj.
  destruct (j <? n); [|discriminate].
  apply valid_iff in Hv as (line & Hl & _).
  rewrite (line_rest_row s p line Hl), nth_error_skipn in Hj.
  apply (char_at_in_line s (mkCursor (row p) (col p + j)) line c Hl Hj).
Qed.

(** C4. Every token [lex] emits, and every token met by walking
    [alternative] from it, is over the lexer's source and has for lexeme
    what [str_at] reads over its range: the range lies in one line, and the
    lexeme is, character for character, what [char_at] returns at each
    position from the start of the range up to its end. *)
Theorem lex_lexeme_is_substring (fuel : nat) (token_types : list TokenKind)
    (s : Source) (toks : list Token) (tok t : Token) :
  Forall match_in_bounds token_types ->
  GenericLexer_lex fuel token_types s = Ret toks ->
  In tok toks -> In t (chain tok) ->
  token_src t = s /\
  str_at s (rng t) = Ret (lexeme t) /\
  row (end_ (rng t)) = row (start (rng t)) /\
  length (lexeme t) = col (end_ (rng t)) - col (start (rng t)) /\
  forall i c,
    nth_error (lexeme t) i = Some c ->
    char_at s (mkCursor (row (start (rng t))) (col (start (rng t)) + i)) = Ret [c].
Proof.
  intros Hb Hrun Htok Ht.
  destruct (GenericLexer_lex_Ret fuel token_types s toks Hrun) as (p & self' & Hv & Hloop).
  apply In_nth_error in Htok as [i Hi].
  destruct (lex_with_emitted s (fun _ => token_types) (fun _ => Hb) fuel p toks self'
              Hv Hloop i tok Hi) as (p0 & self1 & Hp).
  destruct (parse_token_Ret s p0 token_types tok self1 Hb Hp) as (Hv0 & _ & Hch & _).
  exact (chain_token_lexeme s p0 token_types tok t Hv0 Hb Hch Ht).
Qed.

(** The same of the Xml lexer. *)
Lemma Xml_lex_lexeme_is_substring (fuel : nat) (s : Source) (toks : list Token)
    (tok t : Token) :
  Xml.lex fuel s = Ret toks ->
  In tok toks -> In t (chain tok) ->
  token_src t = s /\
  str_at s (rng t) = Ret (lexeme t) /\
  row (end_ (rng t)) = row (start (rng t)) /\
  length (lexeme t) = col (end_ (rng t)) - col (start (rng t)) /\
  forall i c,
    nth_error (lexeme t) i = Some c ->
    char_at s (mkCursor (row (start (rng t))) (col (start (rng t)) + i)) = Ret [c].
Proof.
  intros Hrun Htok Ht.
  destruct (Xml_lex_Ret fuel s toks Hrun) as (p & self' & Hv & Hloop).
  apply In_nth_error in Htok as [i Hi].
  destruct (lex_with_emitted s Xml.candidates Xml_candidates_in_bounds fuel p toks self'
              Hv Hloop i tok Hi) as (p0 & self1 & Hp).
  destruct (parse_token_Ret s p0 _ tok self1 (Xml_candidates_in_bounds _) Hp)
    as (Hv0 & _ & Hch & _).
  exact (chain_token_lexeme s p0 _ tok t Hv0 (Xml_candidates_in_bounds _) Hch Ht).
Qed.

Lemma lex_lexeme_is_substring_witness :
  Forall match_in_bounds test_0_token_types /\
  GenericLexer_lex 3 test_0_token_types a_star = Ret [a_token; star_token] /\
  In star_token [a_token; star_token] /\ In star_token (chain star_token) /\
  token_src star_token = a_star /\
  str_at a_star (rng star_token) = Ret (lexeme star_token) /\
  row (end_ (rng star_token)) = row (start (rng star_token)) /\
  length (lexeme star_token) = col (end_ (rng star_token)) - col (start (rng star_token)) /\
  forall i c,
    nth_error (lexeme star_token) i = Some c ->
    char_at a_star (mkCursor (row (start (rng star_token)))
                      (col (start (rng star_token)) + i)) = Ret [c].
Proof.
  assert (Forall match_in_bounds test_0_token_types) as Hb
      by (repeat constructor; apply Token_define_in_bounds).
  assert (GenericLexer_lex 3 test_0_token_types a_star = Ret [a_token; star_token])
    as Hrun by (vm_compute; reflexivity).
  assert (In star_token [a_token; star_token]) as Hin by (right; left; reflexivity).
  assert (In star_token (chain star_token)) as Hch by (left; reflexivity).
  split; [exact Hb|]. split; [exact Hrun|]. split; [exact Hin|]. split; [exact Hch|].
  exact (lex_lexeme_is_substring 3 test_0_token_types a_star [a_token; star_token]
           star_token star_token Hb Hrun Hin Hch).
Defined.

(** C6. In the sequence [lex] returns, each token ends at or before the
    start of the next, and every valid position from the end of the one up
    to the start of the next holds a character of the whitespace set. *)
Theorem lex_tokens_in_order (fuel : nat) (token_types : list TokenKind)
    (s : Source) (toks : list Token) (i : nat) (t1 t2 : Token) :
  Forall match_in_bounds token_types ->
  GenericLexer_lex fuel token_types s = Ret toks ->
  nth_error toks i = Some t1 -> nth_error toks (S i) = Some t2 ->
  Cursor_le (end_ (rng t1)) (start (rng t2)) = true /\
  forall q,
    valid s q = true ->
    Cursor_le (end_ (rng t1)) q = true -> Cursor_lt q (start (rng t2)) = true ->
    exists c, char_at s q = Ret c /\ In c WHITESPACE.
Proof.
  intros Hb Hrun H1 H2.
  destruct (GenericLexer_lex_Ret fuel token_types s toks Hrun) as (p & self' & Hv & Hloop).
  destruct (lex_with_gaps s (fun _ => token_types) (fun _ => Hb) fuel p toks self'
              Hv Hloop i t1 t2 H1 H2) as [Hle Hgap].
  split; [exact Hle|].
  intros q Hq Hlo Hhi. destruct (Hgap q Hq Hlo Hhi) as (c & Hc & Hw).
  exists c. split; [exact Hc|].
  unfold in_WHITESPACE in Hw. apply existsb_exists in Hw as (w & Hin & Heq).
  apply str_eqb_eq in Heq. subst w. exact Hin.
Qed.

Lemma lex_tokens_in_order_witness :
  Forall match_in_bounds test_0_token_types /\
  GenericLexer_lex 3 test_0_token_types a_star = Ret [a_token; star_token] /\
  nth_error [a_token; star_token] 0 = Some a_token /\
  nth_error [a_token; star_token] 1 = Some star_token /\
  Cursor_le (end_ (rng a_token)) (start (rng star_token)) = true /\
  forall q,
    valid a_star q = true ->
    Cursor_le (end_ (rng a_token)) q = true ->
    Cursor_lt q (start (rng star_token)) = true ->
    exists c, char_at a_star q = Ret c /\ In c WHITESPACE.
Proof.
  assert (Forall match_in_bounds test_0_token_types) as Hb
      by (repeat constructor; apply Token_define_in_bounds).
  assert (GenericLexer_lex 3 test_0_token_types a_star = Ret [a_token; star_token])
    as Hrun by (vm_compute; reflexivity).
  split; [exact Hb|]. split; [exact Hrun|].
  split; [reflexivity|]. split; [reflexivity|].
  exact (lex_tokens_in_order 3 test_0_token_types a_star [a_token; star_token]
           0 a_token star_token Hb Hrun eq_refl eq_refl).
Defined.

(** The same of the Xml lexer. *)
Lemma Xml_lex_tokens_in_order (fuel : nat) (s : Source) (toks : list Token) (i : nat)
    (t1 t2 : Token) :
  Xml.lex fuel s = Ret toks ->
  nth_error toks i = Some t1 -> nth_error toks (S i) = Some t2 ->
  gap s (end_ (rng t1)) (start (rng t2)).
Proof.
  intros Hrun H1 H2.
  destruct (Xml_lex_Ret fuel s toks Hrun) as (p & self' & Hv & Hloop).
  exact (lex_with_gaps s Xml.candidates Xml_candidates_in_bounds fuel p toks self'
           Hv Hloop i t1 t2 H1 H2).
Qed.






(** The rows of the report run from three before the failing row to two
    after it, inside the buffer. *)
Lemma rows_to_show_window (s : Source) (p : Cursor) (r : nat) :
  In r (rows_to_show s p) <->
  row p - 3 <= r /\ r <= row p + 2 /\ r < rows s.
Proof.
  unfold rows_to_show, py_range. rewrite in_seq. lia.
Qed.

(** C7, on the code: the report of a failure on the fourth of seven lines
    shows the three lines before it, the failing line with the caret line
    beneath, and the two lines after it; the third line after it, ["g"],
    is not shown. *)
Theorem report_shows_two_lines_after :
  rows_to_show seven_lines (mkCursor 3 0) = [0; 1; 2; 3; 4; 5] /\
  GenericLexer_lex 8 [Character] seven_lines
  = Raise (Lexer_Error (mkCursor 3 0)
             (join [NL]
                [ lit "could not parse token at row 4 col 1";
                  lit "  1 a"; lit "  2 b"; lit "  3 c"; lit "  4 ?"; lit "    ^";
                  lit "  5 e"; lit "  6 f" ])).
Proof. split; vm_compute; reflexivity. Qed.

Lemma split_lines_In (text : str) :
  forall line x, In line (split_lines text) -> In x line -> In x text.
Proof.
  induction text as [|c text IH]; intros line x Hl Hx; cbn [split_lines] in Hl.
  - destruct Hl as [<-|[]]. contradiction.
  - destruct (Ascii.eqb c NL).
    + destruct Hl as [<-|Hl]; [contradiction|]. right. eapply IH; eassumption.
    + destruct (split_lines text) as [|l ls] eqn:E.
      * destruct Hl as [<-|[]]. destruct Hx as [<-|[]]. left; reflexivity.
      * destruct Hl as [<-|Hl].
        -- destruct Hx as [<-|Hx]; [left; reflexivity|].
           right. apply (IH l x); [left; reflexivity | exact Hx].
        -- right. apply (IH line x); [right; exact Hl | exact Hx].
Qed.

(** C8. A source is built from any string, and it has at least one line;
    over a text of spaces, tabs and newlines only, the empty text included,
    [lex] returns the empty sequence, whatever the vocabulary. *)
Theorem lex_whitespace_only (text : str) (token_types : list TokenKind) (fuel : nat) :
  (forall c, In c text -> c = SPACE \/ c = TAB \/ c = NL) ->
  0 < fuel ->
  1 <= rows (Source_init text) /\
  GenericLexer_lex fuel token_types (Source_init text) = Ret [].
Proof.
  intros Hws Hf. split; [apply rows_Source_init|].
  set (s := Source_init text).
  assert (valid s origin = true) as Hv by (apply valid_origin, rows_Source_init).
  destruct (skip_whitespace_spec s origin Hv) as (p0 & Hskip & _ & _ & (c & Hc & Hw) & _).
  assert (c = EOF) as ->.
  { destruct (char_at_cases s p0 c Hc) as [->|[->|(line & x & Hl & Hx & ->)]];
      [reflexivity | discriminate |].
    apply nth_error_In in Hl, Hx.
    destruct (Hws x (split_lines_In text line x Hl Hx)) as [->|[->| ->]];
      discriminate. }
  unfold GenericLexer_lex, GenericLexer_Instance_lex, Instance_init, mbind.
  fold origin. rewrite Hskip.
  destruct fuel as [|fuel]; [lia|].
  cbn [lex_loop]. unfold mbind, get_self, lift. cbn [src pos].
  rewrite Hc. reflexivity.
Qed.

Lemma lex_whitespace_only_witness :
  (forall c, In c [SPACE; NL; TAB; SPACE] -> c = SPACE \/ c = TAB \/ c = NL) /\
  0 < 1 /\
  1 <= rows (Source_init [SPACE; NL; TAB; SPACE]) /\
  GenericLexer_lex 1 test_0_token_types (Source_init [SPACE; NL; TAB; SPACE]) = Ret [].
Proof.
  assert (forall c, In c [SPACE; NL; TAB; SPACE] -> c = SPACE \/ c = TAB \/ c = NL) as Hws.
  { intros c [<-|[<-|[<-|[<-|[]]]]]; auto. }
  split; [exact Hws|]. split; [lia|].
  exact (lex_whitespace_only [SPACE; NL; TAB; SPACE] test_0_token_types 1 Hws
           (Nat.lt_0_succ 0)).
Defined.

Lemma Text_not_structural : ~ In Xml.Text Xml.token_types_excluding_text.
Proof.
  intros H. cbn [Xml.token_types_excluding_text In] in H.
  repeat (destruct H as [H|H];
          [apply (f_equal token_type) in H; vm_compute in H; discriminate|]).
  exact H.
Qed.

Lemma nth_error_snoc_last {A} (pre : list A) (t : A) :
  nth_error (pre ++ [t]) (length (pre ++ [t]) - 1) = Some t.
Proof.
  rewrite length_app. cbn [length].
  rewrite nth_error_app2 by lia.
  replace (length pre + 1 - 1 - length pre) with 0 by lia. reflexivity.
Qed.

Lemma Xml_candidates_snoc (pre : list Token) (t : Token) :
  Xml.candidates (pre ++ [t])
  = if str_eqb (token_type (kind t)) (lit "Close Opening Tag")
    then Xml.token_types else Xml.token_types_excluding_text.
Proof.
  unfold Xml.candidates. rewrite nth_error_snoc_last.
  destruct (pre ++ [t]) eqn:E; [|reflexivity].
  destruct pre; discriminate.
Qed.

Lemma Text_in_token_types : In Xml.Text Xml.token_types.
Proof. unfold Xml.token_types. apply in_or_app. right. left. reflexivity. Qed.

(** One turn of the loop of the Xml lexer, away from the end of input:
    [parse_token] is run with the list [Xml.candidates] chooses. *)
Lemma Xml_lex_loop_step (fuel : nat) (result : list Token) (s : Source) (p : Cursor)
    (c : str) :
  char_at s p = Ret c -> c <> EOF ->
  Xml.lex_loop (S fuel) result (mkInstance s p)
  = mbind (parse_token (Xml.candidates result))
      (fun token => Xml.lex_loop fuel (result ++ [token])) (mkInstance s p).
Proof.
  intros Hc Hne. cbn [Xml.lex_loop]. unfold mbind at 1 2, get_self, lift.
  cbn [src pos]. rewrite Hc, (str_eqb_false c Hne). reflexivity.
Qed.

(** C10. A step of the Xml lexer, taken wherever the cursor is not at the
    end of input, runs [parse_token] with the whole vocabulary, [Text]
    included, when a token has been emitted and the last one emitted is of
    type ["Close Opening Tag"], and with the vocabulary without [Text] in
    every other case: at the first step, after a token of type
    ["Close Closing Tag"], after a [Text] token.  [Text] is in the first
    list and not in the second. *)
Theorem Xml_text_candidate (fuel : nat) (result : list Token) (s : Source)
    (p : Cursor) (c : str) :
  char_at s p = Ret c -> c <> EOF ->
  ((exists pre t, result = pre ++ [t] /\
                  token_type (kind t) = lit "Close Opening Tag") ->
   Xml.lex_loop (S fuel) result (mkInstance s p)
   = mbind (parse_token Xml.token_types)
       (fun token => Xml.lex_loop fuel (result ++ [token])) (mkInstance s p)) /\
  (~ (exists pre t, result = pre ++ [t] /\
                    token_type (kind t) = lit "Close Opening Tag") ->
   Xml.lex_loop (S fuel) result (mkInstance s p)
   = mbind (parse_token Xml.token_types_excluding_text)
       (fun token => Xml.lex_loop fuel (result ++ [token])) (mkInstance s p)) /\
  In Xml.Text Xml.token_types /\
  ~ In Xml.Text Xml.token_types_excluding_text /\
  (result = [] ->
   Xml.lex_loop (S fuel) result (mkInstance s p)
   = mbind (parse_token Xml.token_types_excluding_text)
       (fun token => Xml.lex_loop fuel (result ++ [token])) (mkInstance s p)) /\
  (forall pre t,
      result = pre ++ [t] ->
      token_type (kind t) = lit "Close Closing Tag" \/ kind t = Xml.Text ->
      Xml.lex_loop (S fuel) result (mkInstance s p)
      = mbind (parse_token Xml.token_types_excluding_text)
          (fun token => Xml.lex_loop fuel (result ++ [token])) (mkInstance s p)).
Proof.
  intros Hc Hne.
  pose proof (Xml_lex_loop_step fuel result s p c Hc Hne) as Hstep.
  assert (~ (exists pre t, result = pre ++ [t] /\
                           token_type (kind t) = lit "Close Opening Tag") ->
          Xml.candidates result = Xml.token_types_excluding_text) as Hother.
  { intros Hno. destruct result as [|x xs]; [reflexivity|].
    destruct (exists_last (l := x :: xs)) as (pre & t & E); [discriminate|].
    rewrite E in *. rewrite Xml_candidates_snoc.
    destruct (str_eqb (token_type (kind t)) (lit "Close Opening Tag")) eqn:Et;
      [|reflexivity].
    apply str_eqb_eq in Et. destruct Hno. eauto. }
  split; [|split; [|split; [|split; [|split]]]].
  - intros (pre & t & -> & Ht). rewrite Hstep, Xml_candidates_snoc, Ht. reflexivity.
  - intros Hno. rewrite Hstep, (Hother Hno). reflexivity.
  - exact Text_in_token_types.
  - exact Text_not_structural.
  - intros ->. exact Hstep.
  - intros pre t -> Ht. rewrite Hstep, Xml_candidates_snoc.
    destruct Ht as [Ht|Ht]; rewrite Ht; reflexivity.
Qed.

Lemma Xml_text_candidate_witness :
  char_at xml_sample (mkCursor 0 3) = Ret (lit "b") /\ lit "b" <> EOF /\
  (exists pre t, [xml_open; xml_name; xml_close] = pre ++ [t] /\
                 token_type (kind t) = lit "Close Opening Tag") /\
  Xml.lex_loop 2 [xml_open; xml_name; xml_close] (mkInstance xml_sample (mkCursor 0 3))
  = mbind (parse_token Xml.token_types)
      (fun token => Xml.lex_loop 1 ([xml_open; xml_name; xml_close] ++ [token]))
      (mkInstance xml_sample (mkCursor 0 3)) /\
  Xml.lex_loop 2 [xml_open; xml_name; xml_close] (mkInstance xml_sample (mkCursor 0 3))
  = (Ret [xml_open; xml_name; xml_close; xml_text],
     mkInstance xml_sample (mkCursor 0 5)) /\
  kind xml_text = Xml.Text /\
  Xml.lex 5 xml_sample = Ret [xml_open; xml_name; xml_close; xml_text] /\
  (exists first, Xml.lex 2 (Source_init (lit "bc")) = Ret [first] /\
                 kind first = Identifier /\ lexeme first = lit "bc").
Proof.
  assert (char_at xml_sample (mkCursor 0 3) = Ret (lit "b")) as Hc by reflexivity.
  assert (lit "b" <> EOF) as Hne by discriminate.
  assert (exists pre t, [xml_open; xml_name; xml_close] = pre ++ [t] /\
                        token_type (kind t) = lit "Close Opening Tag") as Hlast
      by (exists [xml_open; xml_name], xml_close; split; reflexivity).
  split; [exact Hc|]. split; [exact Hne|]. split; [exact Hlast|].
  split.
  - exact (proj1 (Xml_text_candidate 1 [xml_open; xml_name; xml_close] xml_sample
                    (mkCursor 0 3) (lit "b") Hc Hne) Hlast).
  - split; [vm_compute; reflexivity|]. split; [reflexivity|].
    split; [vm_compute; reflexivity|].
    eexists. split; [vm_compute; reflexivity|]. split; reflexivity.
Defined.

(* ================================================================== *)
(** * Further properties: cursors and the source buffer *)
(* ================================================================== *)

(** X1. [Cursor.__lt__] is a strict total order that agrees with the
    equality of the dataclass; the [>] and [<=] that [total_ordering]
    derives are its converse and the negation of its converse; and
    [CursorRange] is built exactly when its start is not after its end,
    its construction raising [ValueError] otherwise. *)
Theorem Cursor_order_and_CursorRange (a b c : Cursor) :
  Cursor_lt a a = false /\
  (Cursor_lt a b = true -> Cursor_lt b c = true -> Cursor_lt a c = true) /\
  ((Cursor_lt a b = true /\ a <> b /\ Cursor_lt b a = false) \/
   (Cursor_lt a b = false /\ a = b /\ Cursor_lt b a = false) \/
   (Cursor_lt a b = false /\ a <> b /\ Cursor_lt b a = true)) /\
  Cursor_gt a b = Cursor_lt b a /\
  Cursor_le a b = negb (Cursor_lt b a) /\
  (Cursor_le a b = true -> CursorRange_init a b = Ret (mkCursorRange a b)) /\
  (Cursor_le a b = false -> CursorRange_init a b = Raise ValueError).
Proof.
  assert (Cursor_gt a b = Cursor_lt b a) as Hgt.
  { destruct a as [r k], b as [r' k']. unfold Cursor_gt, Cursor_lt, Cursor_eqb.
    cbn [row col].
    destruct (Nat.ltb_spec r r'), (Nat.ltb_spec r' r), (Nat.eqb_spec r r'),
      (Nat.eqb_spec r' r), (Nat.ltb_spec k k'), (Nat.ltb_spec k' k),
      (Nat.eqb_spec k k'); cbn; try reflexivity; lia. }
  assert (Cursor_le a b = negb (Cursor_lt b a)) as Hle.
  { destruct a as [r k], b as [r' k']. unfold Cursor_le, Cursor_lt, Cursor_eqb.
    cbn [row col].
    destruct (Nat.ltb_spec r r'), (Nat.ltb_spec r' r), (Nat.eqb_spec r r'),
      (Nat.eqb_spec r' r), (Nat.ltb_spec k k'), (Nat.ltb_spec k' k),
      (Nat.eqb_spec k k'); cbn; try reflexivity; lia. }
  split; [|split; [|split; [|split; [|split; [|split]]]]].
  - destruct a; cursor_arith. lia.
  - destruct a, b, c; intros; cursor_arith; lia.
  - destruct a as [r k], b as [r' k'].
    destruct (Cursor_lt (mkCursor r k) (mkCursor r' k')) eqn:E1,
             (Cursor_lt (mkCursor r' k') (mkCursor r k)) eqn:E2.
    + cursor_arith. lia.
    + left. repeat split. intros H; injection H as -> ->. cursor_arith. lia.
    + right; right. repeat split. intros H; injection H as -> ->. cursor_arith. lia.
    + right; left. repeat split. cursor_arith.
      assert (r = r' /\ k = k') as [-> ->] by lia. reflexivity.
  - exact Hgt.
  - exact Hle.
  - intros H. unfold CursorRange_init. rewrite Hgt.
    rewrite Hle in H. apply negb_true_iff in H. rewrite H. reflexivity.
  - intros H. unfold CursorRange_init. rewrite Hgt.
    rewrite Hle in H. apply negb_false_iff in H. rewrite H. reflexivity.
Qed.

Lemma join_cons (sep l : str) (ls : list str) :
  join sep (l :: ls) = l ++ concat (map (fun x => sep ++ x) ls).
Proof.
  revert l. induction ls as [|l' ls IH]; intros l.
  - cbn. rewrite app_nil_r. reflexivity.
  - change (join sep (l :: l' :: ls)) with (l ++ sep ++ join sep (l' :: ls)).
    rewrite IH. cbn [map concat]. rewrite <- app_assoc. reflexivity.
Qed.

Lemma split_lines_join (text : str) : join [NL] (split_lines text) = text.
Proof.
  induction text as [|c text IH]; [reflexivity|].
  cbn [split_lines]. destruct (Ascii.eqb_spec c NL) as [->|Hc].
  - pose proof (split_lines_not_nil text) as Hne.
    destruct (split_lines text) as [|l ls] eqn:E; [congruence|].
    change (join [NL] ([] :: l :: ls)) with ([] ++ [NL] ++ join [NL] (l :: ls)).
    rewrite IH. reflexivity.
  - pose proof (split_lines_not_nil text) as Hne.
    destruct (split_lines text) as [|l ls] eqn:E; [congruence|].
    rewrite join_cons. rewrite join_cons in IH. rewrite <- IH. reflexivity.
Qed.

Lemma split_lines_rows (text : str) :
  length (split_lines text) = 1 + count_occ ascii_dec text NL.
Proof.
  induction text as [|c text IH]; [reflexivity|].
  cbn [split_lines count_occ].
  destruct (Ascii.eqb_spec c NL) as [->|Hc].
  - destruct (ascii_dec NL NL); [|congruence]. cbn [length]. rewrite IH. lia.
  - destruct (ascii_dec c NL); [congruence|].
    pose proof (split_lines_not_nil text).
    destruct (split_lines text); [congruence|]. cbn [length] in *. lia.
Qed.

(** X2. A source loses nothing of its text: its lines joined with
    newlines are the text it was built from; no line holds a newline; and
    there is one row more than the text has newlines. *)
Theorem Source_init_round_trip (text : str) :
  join [NL] (lines (Source_init text)) = text /\
  Forall (fun line => ~ In NL line) (lines (Source_init text)) /\
  rows (Source_init text) = 1 + count_occ ascii_dec text NL.
Proof.
  unfold rows, Source_init. cbn [lines].
  split; [apply split_lines_join|].
  split; [apply split_lines_no_newline | apply split_lines_rows].
Qed.

Lemma char_at_invalid (s : Source) (p : Cursor) :
  valid s p = false -> char_at s p = Raise IndexError.
Proof.
  intros Hv. unfold char_at, cols, getitem.
  destruct (nth_error (lines s) (row p)) as [line|] eqn:Hl; cbn [obind];
    [|reflexivity].
  destruct (Nat.eqb_spec (col p) (length line)) as [E|E].
  - assert (valid s p = true) by (apply valid_iff; exists line; split; [assumption|lia]).
    congruence.
  - destruct (nth_error line (col p)) as [c|] eqn:Hc; cbn [obind]; [|reflexivity].
    assert (col p < length line) by (apply nth_error_Some; congruence).
    assert (valid s p = true) by (apply valid_iff; exists line; split; [assumption|lia]).
    congruence.
Qed.

Lemma char_at_EOF_iff (s : Source) (p : Cursor) :
  char_at s p = Ret EOF <-> valid s p = true /\ p = eof_position s.
Proof.
  split.
  - intros H.
    assert (valid s p = true) as Hv by (apply char_at_valid; eauto).
    split; [exact Hv|].
    apply valid_iff in Hv as (line & Hl & Hc).
    unfold char_at, cols, getitem in H. rewrite Hl in H. cbn [obind] in H.
    destruct (Nat.eqb_spec (col p) (length line)) as [E|E].
    + destruct (Nat.eqb_spec (row p) (rows s - 1)) as [R|R]; [|discriminate].
      unfold eof_position. rewrite <- R, (nth_error_nth _ _ [] Hl), <- E.
      symmetry. apply cursor_eta.
    + destruct (nth_error line (col p)); discriminate.
  - intros [Hv ->]. apply valid_iff in Hv as (line & Hl & Hc).
    rewrite (char_at_line_end s (eof_position s) line Hl).
    + unfold eof_position. cbn [row]. rewrite Nat.eqb_refl. reflexivity.
    + unfold eof_position in *. cbn [row col] in *.
      rewrite (nth_error_nth _ _ [] Hl). reflexivity.
Qed.

(** On the cursors of the engine, [char_at] returns exactly at the valid positions and raises
    [IndexError] at every other; what it returns is the end-of-input
    marker, at the end of the last line and nowhere else, or one
    character; and in a source built from a text it is the newline exactly
    at the end of a line that is not the last. *)
Lemma char_at_domain (s : Source) (p : Cursor) :
  (valid s p = true <-> exists c, char_at s p = Ret c) /\
  (valid s p = false -> char_at s p = Raise IndexError) /\
  (forall c, char_at s p = Ret c -> c = EOF \/ exists x, c = [x]) /\
  (char_at s p = Ret EOF <-> valid s p = true /\ p = eof_position s) /\
  (forall text line,
      s = Source_init text -> nth_error (lines s) (row p) = Some line ->
      (char_at s p = Ret [NL] <-> col p = length line /\ row p + 1 < rows s)).
Proof.
  split; [apply char_at_valid|]. split; [apply char_at_invalid|].
  split; [|split; [apply char_at_EOF_iff|]].
  - intros c Hc.
    destruct (char_at_cases s p c Hc) as [->|[->|(line & x & _ & _ & ->)]]; eauto.
  - intros text line -> Hl. split.
    + intros H. destruct (char_at_cases _ _ _ H) as [E|[_|(line' & x & Hl' & Hx & E)]].
      * discriminate.
      * unfold char_at, cols, getitem in H. rewrite Hl in H. cbn [obind] in H.
        destruct (Nat.eqb_spec (col p) (length line)) as [C|C].
        -- split; [exact C|].
           destruct (Nat.eqb_spec (row p) (rows (Source_init text) - 1)); [discriminate|].
           assert (row p < rows (Source_init text))
             by (unfold rows; apply nth_error_Some; congruence). lia.
        -- exfalso. destruct (nth_error line (col p)) as [x|] eqn:Hx; [|discriminate].
           cbn [obind] in H. injection H as ->.
           pose proof (split_lines_no_newline text) as Hno.
           rewrite Forall_forall in Hno.
           apply (Hno line); [eapply nth_error_In; exact Hl|].
           eapply nth_error_In; exact Hx.
      * injection E as <-. exfalso.
        pose proof (split_lines_no_newline text) as Hno.
        rewrite Forall_forall in Hno.
        apply (Hno line'); [eapply nth_error_In; exact Hl'|].
        eapply nth_error_In; exact Hx.
    + intros [C R]. rewrite (char_at_line_end _ _ line Hl C).
      destruct (Nat.eqb_spec (row p) (rows (Source_init text) - 1)); [lia|reflexivity].
Qed.

(** On the cursors of the engine, [next] raises [IndexError] at an invalid position and
    [StopIteration] at the end-of-input position; at every other position
    it returns the next column of the line, or the start of the next row
    at the end of a line: a valid position, after the one given, with no
    valid position between the two. *)
Lemma next_cases (s : Source) (p : Cursor) :
  (valid s p = false -> next s p = Raise IndexError) /\
  (char_at s p = Ret EOF -> next s p = Raise StopIteration) /\
  (forall c line,
      char_at s p = Ret c -> c <> EOF ->
      nth_error (lines s) (row p) = Some line ->
      next s p = Ret (if col p =? length line then mkCursor (row p + 1) 0
                      else mkCursor (row p) (col p + 1)) /\
      exists p',
        next s p = Ret p' /\ valid s p' = true /\ Cursor_lt p p' = true /\
        forall q, valid s q = true -> Cursor_lt p q = true -> Cursor_le p' q = true).
Proof.
  split; [|split].
  - intros Hv. unfold next. rewrite (char_at_invalid s p Hv). reflexivity.
  - intros H. unfold next. rewrite H. reflexivity.
  - intros c line Hc Hne Hl.
    assert (str_eqb c EOF = false) as He.
    { destruct (str_eqb c EOF) eqn:E; [|reflexivity].
      apply str_eqb_eq in E. congruence. }
    split.
    + unfold next. rewrite Hc. cbn [obind]. rewrite He.
      unfold cols, getitem. rewrite Hl. cbn [obind].
      destruct (col p =? length line); reflexivity.
    + destruct (next_spec s p c Hc He) as (p' & Hn & Hv' & _ & Hlt & Hbetween).
      exists p'. repeat split; try assumption.
      intros q Hq Hpq. destruct (Cursor_lt_or_le q p') as [H|H]; [|exact H].
      specialize (Hbetween q Hq H).
      apply Cursor_lt_not_le in Hpq. congruence.
Qed.

Lemma next_n_next_times (s : Source) (p : Cursor) (n : nat) :
  next_n s p n = next_times s p n.
Proof.
  unfold next_n. destruct n as [|[|n]]; try reflexivity.
  cbn [next_times]. destruct (next s p); reflexivity.
Qed.

(** X5. Steps add up: [next(pos, n=a + b)] is [next(next(pos, n=a), n=b)],
    exceptions included, so the [case 1] of [next] is no special case. *)
Theorem next_n_add (s : Source) (p : Cursor) (a b : nat) :
  next_n s p (a + b) = (do q <- next_n s p a; next_n s q b).
Proof.
  rewrite !next_n_next_times. revert p.
  induction a as [|a IH]; intros p; cbn [Nat.add next_times obind].
  - rewrite next_n_next_times. reflexivity.
  - destruct (next s p) as [p'| |]; cbn [obind]; [|reflexivity|reflexivity].
    rewrite IH. destruct (next_times s p' a) as [q| |]; cbn [obind]; try reflexivity.
Qed.

(* ================================================================== *)
(** * Further properties: reading ranges *)
(* ================================================================== *)

Lemma EOF_is_last (s : Source) (p q : Cursor) :
  char_at s p = Ret EOF -> valid s q = true -> Cursor_le q p = true.
Proof.
  intros Hp Hq. apply char_at_EOF_iff in Hp as [Hv ->].
  apply valid_iff in Hq as (line & Hl & Hc).
  assert (row q < rows s) by (unfold rows; apply nth_error_Some; congruence).
  unfold eof_position. destruct q as [r k]. cbn [row col] in *.
  destruct (Nat.eq_dec r (rows s - 1)) as [->|Hr].
  - rewrite (nth_error_nth _ _ [] Hl). cursor_arith. lia.
  - cursor_arith. lia.
Qed.

Lemma rest_text_EOF (s : Source) (p : Cursor) :
  char_at s p = Ret EOF -> rest_text s p = [].
Proof.
  intros Hp. apply char_at_EOF_iff in Hp as [Hv ->].
  apply valid_iff in Hv as (line & Hl & Hc).
  assert (rows s - 1 < rows s) by
      (unfold rows; apply nth_error_Some; unfold eof_position, rows in Hl;
       cbn [row] in Hl; congruence).
  unfold rest_text, line_rest, eof_position. cbn [row col].
  rewrite skipn_all.
  rewrite skipn_all2 by (unfold rows in *; lia). reflexivity.
Qed.

Lemma rest_text_step (s : Source) (p p' : Cursor) (c : str) :
  char_at s p = Ret c -> c <> EOF -> next s p = Ret p' ->
  rest_text s p = c ++ rest_text s p' /\ length c = 1.
Proof.
  intros Hc Hne Hn.
  assert (valid s p = true) as Hv by (apply char_at_valid; eauto).
  apply valid_iff in Hv as (line & Hl & Hk).
  unfold next in Hn. rewrite Hc in Hn. cbn [obind] in Hn.
  rewrite (str_eqb_false c Hne) in Hn.
  unfold cols, getitem in Hn. rewrite Hl in Hn. cbn [obind] in Hn.
  unfold rest_text. rewrite (line_rest_row s p line Hl).
  destruct (Nat.eqb_spec (col p) (length line)) as [E|E]; injection Hn as <-.
  - rewrite (char_at_line_end s p line Hl E) in Hc. injection Hc as Hc.
    destruct (Nat.eqb_spec (row p) (rows s - 1)) as [R|R]; [congruence|].
    subst c. split; [|reflexivity].
    assert (row p < rows s) by (unfold rows; apply nth_error_Some; congruence).
    destruct (nth_error (lines s) (S (row p))) as [line'|] eqn:Hl'.
    2:{ apply nth_error_None in Hl'. unfold rows in *. lia. }
    rewrite E, skipn_all. rewrite (skipn_nth_error _ _ _ Hl').
    cbn [map concat app]. unfold line_rest. cbn [row col].
    replace (row p + 1) with (S (row p)) by lia.
    rewrite (nth_error_nth _ _ [] Hl'). reflexivity.
  - destruct (nth_error_in_line line (col p) ltac:(lia)) as [x Hx].
    rewrite (char_at_in_line s p line x Hl Hx) in Hc. injection Hc as <-.
    split; [|reflexivity].
    rewrite (skipn_nth_error _ _ _ Hx). unfold line_rest. cbn [row col app].
    rewrite (nth_error_nth _ _ [] Hl).
    replace (col p + 1) with (S (col p)) by lia. reflexivity.
Qed.

(** Reading and counting over a range of valid positions, in order. *)
Lemma range_between (s : Source) (q : Cursor) :
  valid s q = true ->
  forall fuel p,
    valid s p = true -> Cursor_le p q = true -> remaining s p < fuel ->
    exists x n,
      str_at_from fuel s (range_start p (Some q)) q = Ret x /\
      len_from fuel s (range_start p (Some q)) q = Ret n /\
      next_times s p n = Ret q /\
      length x = n /\
      x ++ rest_text s q = rest_text s p.
Proof.
  intros Hq. induction fuel as [|fuel IH]; intros p Hp Hle Hf; [lia|].
  cbn [range_start]. destruct (Cursor_eqb p q) eqn:E.
  - apply Cursor_eqb_eq in E. subst q. exists [], 0. repeat split.
  - pose proof Hp as Hc. apply char_at_valid in Hc as [c Hc].
    assert (c <> EOF) as Hne.
    { intros ->. pose proof (EOF_is_last s p q Hc Hq) as Hqp.
      pose proof (Cursor_le_antisym p q Hle Hqp) as ->.
      rewrite Cursor_eqb_refl in E. discriminate. }
    destruct (next_spec s p c Hc (str_eqb_false c Hne))
      as (p' & Hn & Hv' & Hrem & Hlt & Hbetween).
    assert (Cursor_le p' q = true) as Hle'.
    { destruct (Cursor_lt_or_le q p') as [H|H]; [|exact H].
      pose proof (Hbetween q Hq H) as Hqp.
      pose proof (Cursor_le_antisym p q Hle Hqp) as ->.
      rewrite Cursor_eqb_refl in E. discriminate. }
    destruct (IH p' Hv' Hle' ltac:(lia)) as (x & n & Hx & Hlen & Hnext & Hxn & Hrest).
    destruct (rest_text_step s p p' c Hc Hne Hn) as [Hstep Hone].
    exists (c ++ x), (S n).
    cbn [str_at_from len_from next_times]. unfold range_resume.
    rewrite Hc. cbn [obind]. rewrite (str_eqb_false c Hne), Hn. cbn [obind].
    rewrite Hx, Hlen. cbn [obind].
    repeat split.
    + exact Hnext.
    + rewrite length_app. lia.
    + rewrite <- app_assoc, Hrest, Hstep. reflexivity.
Qed.

Lemma range_between_top (s : Source) (p q : Cursor) :
  valid s p = true -> valid s q = true -> Cursor_le p q = true ->
  exists x n,
    str_at s (mkCursorRange p q) = Ret x /\
    Source_len s (mkCursorRange p q) = Ret n /\
    next_n s p n = Ret q /\
    length x = n /\
    x ++ rest_text s q = rest_text s p.
Proof.
  intros Hp Hq Hle. unfold str_at, Source_len. cbn [start end_].
  destruct (range_between s q Hq (S (remaining s p)) p Hp Hle ltac:(lia))
    as (x & n & H1 & H2 & H3 & H4 & H5).
  exists x, n. rewrite next_n_next_times. auto.
Qed.

(** X6. Counting and stepping agree: over a range from a valid position to
    a valid position not before it, [Source.len] returns a number of steps
    that [next] takes from the start to reach the end exactly; it is also
    the length of the string [str_at] reads over the range. *)
Theorem Source_len_next_round_trip (s : Source) (p q : Cursor) :
  valid s p = true -> valid s q = true -> Cursor_le p q = true ->
  exists n x,
    Source_len s (mkCursorRange p q) = Ret n /\
    next_n s p n = Ret q /\
    str_at s (mkCursorRange p q) = Ret x /\
    length x = n.
Proof.
  intros Hp Hq Hle.
  destruct (range_between_top s p q Hp Hq Hle) as (x & n & Hx & Hn & Hs & Hl & _).
  exists n, x. auto.
Qed.

Lemma Source_len_next_round_trip_witness :
  valid a_star origin = true /\ valid a_star (mkCursor 0 2) = true /\
  Cursor_le origin (mkCursor 0 2) = true /\
  exists n x,
    Source_len a_star (mkCursorRange origin (mkCursor 0 2)) = Ret n /\
    next_n a_star origin n = Ret (mkCursor 0 2) /\
    str_at a_star (mkCursorRange origin (mkCursor 0 2)) = Ret x /\
    length x = n.
Proof.
  split; [reflexivity|]. split; [reflexivity|]. split; [reflexivity|].
  exact (Source_len_next_round_trip a_star origin (mkCursor 0 2)
           eq_refl eq_refl eq_refl).
Defined.

(** X7. Ranges compose: for valid positions [p <= q <= r], what [str_at]
    reads from [p] to [r] is what it reads from [p] to [q] followed by what
    it reads from [q] to [r], across line ends as well. *)
Theorem str_at_concat (s : Source) (p q r : Cursor) :
  valid s p = true -> valid s q = true -> valid s r = true ->
  Cursor_le p q = true -> Cursor_le q r = true ->
  exists x y,
    str_at s (mkCursorRange p q) = Ret x /\
    str_at s (mkCursorRange q r) = Ret y /\
    str_at s (mkCursorRange p r) = Ret (x ++ y).
Proof.
  intros Hp Hq Hr Hpq Hqr.
  destruct (range_between_top s p q Hp Hq Hpq) as (x & _ & Hx & _ & _ & _ & Ex).
  destruct (range_between_top s q r Hq Hr Hqr) as (y & _ & Hy & _ & _ & _ & Ey).
  destruct (range_between_top s p r Hp Hr (Cursor_le_trans p q r Hpq Hqr))
    as (z & _ & Hz & _ & _ & _ & Ez).
  exists x, y. repeat split; try assumption.
  rewrite Hz. f_equal.
  apply (app_inv_tail (rest_text s r)).
  rewrite <- app_assoc, Ey, Ex, Ez. reflexivity.
Qed.

Lemma str_at_concat_witness :
  valid seven_lines origin = true /\ valid seven_lines (mkCursor 1 0) = true /\
  valid seven_lines (mkCursor 2 1) = true /\
  Cursor_le origin (mkCursor 1 0) = true /\
  Cursor_le (mkCursor 1 0) (mkCursor 2 1) = true /\
  exists x y,
    str_at seven_lines (mkCursorRange origin (mkCursor 1 0)) = Ret x /\
    str_at seven_lines (mkCursorRange (mkCursor 1 0) (mkCursor 2 1)) = Ret y /\
    str_at seven_lines (mkCursorRange origin (mkCursor 2 1)) = Ret (x ++ y).
Proof.
  repeat (split; [reflexivity|]).
  exact (str_at_concat seven_lines origin (mkCursor 1 0) (mkCursor 2 1)
           eq_refl eq_refl eq_refl eq_refl eq_refl).
Defined.

Lemma rest_text_origin (s : Source) :
  1 <= rows s -> rest_text s origin = join [NL] (lines s).
Proof.
  unfold rows, rest_text, line_rest, origin. cbn [row col skipn].
  destruct (lines s) as [|l ls]; cbn [length]; [lia|]. intros _.
  rewrite join_cons. reflexivity.
Qed.

Lemma eof_position_valid (s : Source) :
  1 <= rows s -> char_at s (eof_position s) = Ret EOF.
Proof.
  intros H. apply char_at_EOF_iff. split; [|reflexivity].
  apply valid_iff. unfold eof_position. cbn [row col].
  destruct (nth_error (lines s) (rows s - 1)) as [line|] eqn:Hl.
  - exists line. split; [reflexivity|]. rewrite (nth_error_nth _ _ [] Hl). lia.
  - apply nth_error_None in Hl. unfold rows in *. lia.
Qed.

(** X8. The whole text reads back: over the source built from a text,
    [str_at] from the first position to the end-of-input position returns
    the text, and [Source.len] returns its length. *)
Theorem str_at_whole_source (text : str) :
  str_at (Source_init text)
    (mkCursorRange origin (eof_position (Source_init text))) = Ret text /\
  Source_len (Source_init text)
    (mkCursorRange origin (eof_position (Source_init text))) = Ret (length text).
Proof.
  set (s := Source_init text).
  pose proof (rows_Source_init text) as Hrows. fold s in Hrows.
  pose proof (eof_position_valid s Hrows) as Heof.
  assert (valid s (eof_position s) = true) as Hve by (apply char_at_valid; eauto).
  pose proof (valid_origin s Hrows) as Hvo. fold origin in Hvo.
  destruct (range_between_top s origin (eof_position s) Hvo Hve
              (EOF_is_last s _ _ Heof Hvo)) as (x & n & Hx & Hn & _ & Hlen & Hrest).
  rewrite (rest_text_EOF s _ Heof), app_nil_r, (rest_text_origin s Hrows) in Hrest.
  change (lines s) with (split_lines text) in Hrest.
  rewrite split_lines_join in Hrest. subst x. subst n. split; assumption.
Qed.

(** Reading towards an end no position of the source equals. *)
Lemma str_at_from_unreachable (s : Source) (q : Cursor) :
  valid s q = false ->
  forall fuel p,
    valid s p = true -> remaining s p < fuel ->
    str_at_from fuel s (Some p) q = Ret (rest_text s p ++ EOF).
Proof.
  intros Hq. induction fuel as [|fuel IH]; intros p Hp Hf; [lia|].
  pose proof Hp as Hc. apply char_at_valid in Hc as [c Hc].
  cbn [str_at_from]. unfold range_resume. rewrite Hc. cbn [obind].
  destruct (str_eqb c EOF) eqn:E.
  - apply str_eqb_eq in E. subst c. cbn [obind].
    rewrite (rest_text_EOF s p Hc). destruct fuel; cbn; reflexivity.
  - assert (c <> EOF) as Hne by (intros ->; discriminate).
    destruct (next_spec s p c Hc E) as (p' & Hn & Hv' & Hrem & _).
    rewrite Hn. cbn [obind range_start].
    destruct (Cursor_eqb p' q) eqn:Epq.
    { apply Cursor_eqb_eq in Epq. congruence. }
    rewrite IH by (assumption || lia). cbn [obind].
    destruct (rest_text_step s p p' c Hc Hne Hn) as [-> _].
    rewrite <- app_assoc. reflexivity.
Qed.

(** X9. A range whose end is no valid position of the source is read to
    the end of input, the marker included: from a valid start, [str_at]
    returns the rest of the text followed by the three characters
    ["eof"]. *)
Theorem str_at_invalid_end (s : Source) (p q : Cursor) :
  valid s p = true -> valid s q = false ->
  str_at s (mkCursorRange p q) = Ret (rest_text s p ++ EOF).
Proof.
  intros Hp Hq. unfold str_at. cbn [start end_ range_start].
  destruct (Cursor_eqb p q) eqn:E.
  { apply Cursor_eqb_eq in E. congruence. }
  apply str_at_from_unreachable; [assumption | assumption | lia].
Qed.

Lemma str_at_invalid_end_witness :
  valid one_letter origin = true /\ valid one_letter (mkCursor 0 5) = false /\
  str_at one_letter (mkCursorRange origin (mkCursor 0 5)) = Ret (lit "aeof").
Proof.
  split; [reflexivity|]. split; [reflexivity|].
  exact (str_at_invalid_end one_letter origin (mkCursor 0 5) eq_refl eq_refl).
Defined.

(* ================================================================== *)
(** * Further properties: the engine *)
(* ================================================================== *)

Lemma skip_whitespace_at_non_whitespace (s : Source) (p : Cursor) (c : str) :
  char_at s p = Ret c -> in_WHITESPACE c = false ->
  skip_whitespace (mkInstance s p) = (Ret tt, mkInstance s p).
Proof.
  intros Hc Hw. unfold skip_whitespace, mbind, get_self. cbn [src pos range_start].
  cbn [skip_whitespace_from]. unfold mbind, get_self, lift, set_pos, mret.
  cbn [src pos]. rewrite Hc, Hw. reflexivity.
Qed.

(** X10. [skip_whitespace] is idempotent: once it has returned, calling it
    again returns at once and leaves the cursor where it is; and at an
    invalid cursor it raises [IndexError] without moving the cursor. *)
Theorem skip_whitespace_idempotent (self : Instance) :
  (forall self', skip_whitespace self = (Ret tt, self') ->
                 skip_whitespace self' = (Ret tt, self')) /\
  (valid (src self) (pos self) = false ->
   skip_whitespace self = (Raise IndexError, self)).
Proof.
  destruct self as [s p]. cbn [src pos]. split.
  - intros self' H. destruct (valid s p) eqn:Hv.
    + destruct (skip_whitespace_spec s p Hv) as (p' & Hrun & _ & _ & (c & Hc & Hw) & _).
      rewrite Hrun in H. injection H as <-.
      exact (skip_whitespace_at_non_whitespace s p' c Hc Hw).
    + destruct (skip_whitespace_invalid s p Hv) as (e & Hrun).
      rewrite Hrun in H. discriminate.
  - intros Hv. unfold skip_whitespace, mbind, get_self. cbn [src pos range_start].
    cbn [skip_whitespace_from]. unfold mbind, get_self, lift. cbn [src pos].
    rewrite (char_at_invalid s p Hv). reflexivity.
Qed.

Lemma origin_least (q : Cursor) : Cursor_le origin q = true.
Proof. destruct q as [r k]. unfold origin. cursor_arith. lia. Qed.

Section Runs.

Variable s : Source.
Variable choose : list Token -> list TokenKind.
Hypothesis choose_in_bounds : forall result, Forall match_in_bounds (choose result).

(** The loop, started on a position that holds no whitespace, calls
    [parse_token] only on such positions, away from the end of input; a
    property of the tokens and the cursor that these steps keep holds when
    the loop returns, and the cursor is then at the end of input. *)
Lemma lex_with_run (I : list Token -> Cursor -> Prop) :
  (forall result p c tok self',
      I result p ->
      char_at s p = Ret c -> in_WHITESPACE c = false -> c <> EOF ->
      parse_token (choose result) (mkInstance s p) = (Ret tok, self') ->
      I (result ++ [tok]) (pos self')) ->
  forall fuel result p toks self',
    (exists c, char_at s p = Ret c /\ in_WHITESPACE c = false) ->
    I result p ->
    lex_with choose fuel result (mkInstance s p) = (Ret toks, self') ->
    I toks (pos self') /\ src self' = s /\ char_at s (pos self') = Ret EOF.
Proof.
  intros Hstep. induction fuel as [|fuel IH];
    intros result p toks self' (c & Hc & Hw) HI Hrun; [discriminate|].
  cbn [lex_with] in Hrun. unfold mbind, get_self, lift in Hrun. cbn [src pos] in Hrun.
  rewrite Hc in Hrun.
  destruct (str_eqb c EOF) eqn:E.
  - unfold mret in Hrun. injection Hrun as <- <-. cbn [src pos].
    apply str_eqb_eq in E. subst c. auto.
  - destruct (parse_token (choose result) (mkInstance s p)) as [[tok| |] self1] eqn:Hp;
      try discriminate.
    assert (c <> EOF) as Hne by (intros ->; discriminate).
    pose proof (Hstep _ _ _ _ _ HI Hc Hw Hne Hp) as HI'.
    destruct (parse_token_Ret s p _ tok self1 (choose_in_bounds result) Hp)
      as (_ & _ & _ & _ & p' & -> & _ & _ & Hend & _).
    cbn [pos] in HI'. eapply IH; eassumption.
Qed.

(** When the loop raises, it is [parse_token] that raised [Lexer.Error], at
    a valid position that holds a character, no whitespace, that no kind
    of the list chosen there matches; the cursor is left on it. *)
Lemma lex_with_Raise :
  forall fuel result p e self',
    (exists c, char_at s p = Ret c /\ in_WHITESPACE c = false) ->
    lex_with choose fuel result (mkInstance s p) = (Raise e, self') ->
    exists result' q report c,
      e = Lexer_Error q report /\ self' = mkInstance s q /\
      Lexer_Error_init s q (no_token_msg q) = Ret (Lexer_Error q report) /\
      char_at s q = Ret c /\ in_WHITESPACE c = false /\ c <> EOF /\
      forall k, In k (choose result') -> regex k (line_rest s q) = None.
Proof.
  induction fuel as [|fuel IH]; intros result p e self' (c & Hc & Hw) Hrun;
    [discriminate|].
  cbn [lex_with] in Hrun. unfold mbind, get_self, lift in Hrun. cbn [src pos] in Hrun.
  rewrite Hc in Hrun.
  destruct (str_eqb c EOF) eqn:E; [discriminate|].
  assert (c <> EOF) as Hne by (intros ->; discriminate).
  assert (valid s p = true) as Hv by (apply char_at_valid; eauto).
  destruct (parse_token_valid s p (choose result) Hv (choose_in_bounds result))
    as [(Hm & r & Hrep & Hp) | (_ & tok & p' & Hp & _ & _ & _ & _ & Hend & _)];
    rewrite Hp in Hrun.
  - injection Hrun as <- <-.
    exists result, p, r, c. repeat split; try assumption.
    apply matched_nil_iff. exact Hm.
  - eapply IH; eassumption.
Qed.

End Runs.

(** A [GenericLexer] run: the first [skip_whitespace], then the loop. *)
Lemma GenericLexer_Instance_lex_run (fuel : nat) (token_types : list TokenKind)
    (s : Source) :
  1 <= rows s ->
  exists p0,
    gap s origin p0 /\
    (exists c, char_at s p0 = Ret c /\ in_WHITESPACE c = false) /\
    GenericLexer_Instance_lex fuel token_types (Instance_init s)
    = lex_with (fun _ => token_types) fuel [] (mkInstance s p0).
Proof.
  intros Hrows.
  destruct (skip_whitespace_spec s origin (valid_origin s Hrows))
    as (p0 & Hskip & _ & Hgap & Hend & _).
  exists p0. split; [exact Hgap|]. split; [exact Hend|].
  unfold GenericLexer_Instance_lex, Instance_init, mbind. fold origin.
  rewrite Hskip. apply lex_loop_lex_with.
Qed.

Lemma Xml_Instance_lex_run (fuel : nat) (s : Source) :
  1 <= rows s ->
  exists p0,
    gap s origin p0 /\
    (exists c, char_at s p0 = Ret c /\ in_WHITESPACE c = false) /\
    remaining s p0 <= remaining s origin /\
    Xml.Instance_lex fuel (Instance_init s)
    = lex_with Xml.candidates fuel [] (mkInstance s p0).
Proof.
  intros Hrows.
  destruct (skip_whitespace_spec s origin (valid_origin s Hrows))
    as (p0 & Hskip & _ & Hgap & Hend & Hrem).
  exists p0. split; [exact Hgap|]. split; [exact Hend|]. split; [exact Hrem|].
  unfold Xml.Instance_lex, Instance_init, mbind. fold origin.
  rewrite Hskip. apply Xml_lex_loop_lex_with.
Qed.

(** X11. [lex] drops nothing.  When a [GenericLexer] returns on a source
    with at least one line, its cursor is at the end-of-input position, and
    every position of the source that holds a character outside the
    whitespace set lies in the range of a token it emitted. *)
Theorem lex_covers_the_source (fuel : nat) (token_types : list TokenKind)
    (s : Source) (toks : list Token) (self' : Instance) :
  Forall match_in_bounds token_types ->
  1 <= rows s ->
  GenericLexer_Instance_lex fuel token_types (Instance_init s) = (Ret toks, self') ->
  self' = mkInstance s (eof_position s) /\
  forall q c,
    char_at s q = Ret c -> c <> EOF -> in_WHITESPACE c = false ->
    exists t, In t toks /\ covers t q.
Proof.
  intros Hb Hrows Hrun.
  destruct (GenericLexer_Instance_lex_run fuel token_types s Hrows)
    as (p0 & [_ Hgap] & Hend & Heq).
  rewrite Heq in Hrun.
  destruct (lex_with_run s (fun _ => token_types) (fun _ => Hb)
              (fun result p =>
                 forall q, valid s q = true -> Cursor_lt q p = true ->
                           whitespace_at s q \/ exists t, In t result /\ covers t q))
    with (fuel := fuel) (result := @nil Token) (p := p0) (toks := toks) (self' := self')
    as (HI & Hsrc & Heof); try assumption.
  - intros result p c tok self1 HI Hc Hw Hne Hp q Hq Hlt.
    destruct (parse_token_Ret s p token_types tok self1 Hb Hp)
      as (_ & _ & _ & Hrng & p' & -> & _ & [_ Hgap'] & _).
    cbn [pos] in Hlt.
    destruct (Cursor_lt_or_le q p) as [H|H].
    + destruct (HI q Hq H) as [Hws|(t & Ht & Hcov)]; [left; exact Hws|].
      right. exists t. split; [apply in_or_app; left; exact Ht | exact Hcov].
    + destruct (Cursor_lt_or_le q (longest_end s p token_types)) as [H'|H'].
      * right. exists tok. split; [apply in_or_app; right; left; reflexivity|].
        unfold covers. rewrite Hrng. cbn [start end_]. split; assumption.
      * left. apply Hgap'; assumption.
  - intros q Hq Hlt. left. apply Hgap; [assumption | apply origin_least | assumption].
  - split.
    + apply char_at_EOF_iff in Heof as [_ Hpos].
      destruct self' as [s' p']. cbn [src pos] in *. subst. reflexivity.
    + intros q c Hc Hne Hw.
      assert (valid s q = true) as Hq by (apply char_at_valid; eauto).
      assert (Cursor_lt q (pos self') = true) as Hlt.
      { destruct (Cursor_lt_or_le q (pos self')) as [H|H]; [exact H|].
        pose proof (EOF_is_last s _ q Heof Hq) as H'.
        pose proof (Cursor_le_antisym _ _ H H') as E. rewrite E in Heof. congruence. }
      destruct (HI q Hq Hlt) as [(c' & Hc' & Hw')|H]; [|exact H].
      rewrite Hc in Hc'. injection Hc' as <-. congruence.
Qed.

Lemma lex_covers_the_source_witness :
  Forall match_in_bounds test_0_token_types /\
  1 <= rows a_star /\
  GenericLexer_Instance_lex 3 test_0_token_types (Instance_init a_star)
  = (Ret [a_token; star_token], mkInstance a_star (mkCursor 0 3)) /\
  mkInstance a_star (mkCursor 0 3) = mkInstance a_star (eof_position a_star) /\
  forall q c,
    char_at a_star q = Ret c -> c <> EOF -> in_WHITESPACE c = false ->
    exists t, In t [a_token; star_token] /\ covers t q.
Proof.
  assert (Forall match_in_bounds test_0_token_types) as Hb
      by (repeat constructor; apply Token_define_in_bounds).
  assert (1 <= rows a_star) as Hrows by (vm_compute; lia).
  assert (GenericLexer_Instance_lex 3 test_0_token_types (Instance_init a_star)
          = (Ret [a_token; star_token], mkInstance a_star (mkCursor 0 3))) as Hrun
      by (vm_compute; reflexivity).
  split; [exact Hb|]. split; [exact Hrows|]. split; [exact Hrun|].
  exact (lex_covers_the_source 3 test_0_token_types a_star [a_token; star_token]
           (mkInstance a_star (mkCursor 0 3)) Hb Hrows Hrun).
Defined.

(** X12. A [GenericLexer] fails in one way only.  On a source with at
    least one line, whatever [lex] raises is the [Lexer.Error] of
    [parse_token]: its position is a valid position of the source that
    holds a character outside the whitespace set, no kind of the
    vocabulary matches there, its report is the one built for that
    position, and the cursor is left on it. *)
Theorem lex_raises_only_Lexer_Error (fuel : nat) (token_types : list TokenKind)
    (s : Source) (e : exn) (self' : Instance) :
  Forall match_in_bounds token_types ->
  1 <= rows s ->
  GenericLexer_Instance_lex fuel token_types (Instance_init s) = (Raise e, self') ->
  exists q report c,
    e = Lexer_Error q report /\ self' = mkInstance s q /\
    Lexer_Error_init s q (no_token_msg q) = Ret (Lexer_Error q report) /\
    char_at s q = Ret c /\ in_WHITESPACE c = false /\ c <> EOF /\
    forall k, In k token_types -> regex k (line_rest s q) = None.
Proof.
  intros Hb Hrows Hrun.
  destruct (GenericLexer_Instance_lex_run fuel token_types s Hrows)
    as (p0 & _ & Hend & Heq).
  rewrite Heq in Hrun.
  destruct (lex_with_Raise s (fun _ => token_types) (fun _ => Hb) fuel [] p0 e self'
              Hend Hrun) as (_ & q & report & c & H).
  exists q, report, c. exact H.
Qed.

Lemma lex_raises_only_Lexer_Error_witness :
  Forall match_in_bounds [Character] /\
  1 <= rows seven_lines /\
  exists report,
    GenericLexer_Instance_lex 8 [Character] (Instance_init seven_lines)
    = (Raise (Lexer_Error (mkCursor 3 0) report), mkInstance seven_lines (mkCursor 3 0)) /\
    exists q report' c,
      Lexer_Error (mkCursor 3 0) report = Lexer_Error q report' /\
      mkInstance seven_lines (mkCursor 3 0) = mkInstance seven_lines q /\
      Lexer_Error_init seven_lines q (no_token_msg q) = Ret (Lexer_Error q report') /\
      char_at seven_lines q = Ret c /\ in_WHITESPACE c = false /\ c <> EOF /\
      forall k, In k [Character] -> regex k (line_rest seven_lines q) = None.
Proof.
  assert (Forall match_in_bounds [Character]) as Hb
      by (repeat constructor; apply Token_define_in_bounds).
  assert (1 <= rows seven_lines) as Hrows by (vm_compute; lia).
  split; [exact Hb|]. split; [exact Hrows|].
  eexists. split; [vm_compute; reflexivity|].
  eapply (lex_raises_only_Lexer_Error 8 [Character] seven_lines _ _ Hb Hrows).
  vm_compute. reflexivity.
Defined.

Lemma In_firstn {A} (x : A) (n : nat) (l : list A) : In x (firstn n l) -> In x l.
Proof.
  intros H. rewrite <- (firstn_skipn n l). apply in_or_app. left; exact H.
Qed.

Lemma In_skipn {A} (x : A) (n : nat) (l : list A) : In x (skipn n l) -> In x l.
Proof.
  intros H. rewrite <- (firstn_skipn n l). apply in_or_app. right; exact H.
Qed.

(** X13. Tokens lie inside lines and start on text.  In what a
    [GenericLexer] returns for a source built from a text, no lexeme, of an
    emitted token or of one of its alternatives, holds a newline, and each
    of these tokens starts at a position that holds a character that is no
    space, tab or newline. *)
Theorem lex_tokens_start_on_text (fuel : nat) (token_types : list TokenKind)
    (text : str) (toks : list Token) (tok t : Token) :
  Forall match_in_bounds token_types ->
  GenericLexer_lex fuel token_types (Source_init text) = Ret toks ->
  In tok toks -> In t (chain tok) ->
  ~ In NL (lexeme t) /\
  exists c, char_at (Source_init text) (start (rng t)) = Ret [c] /\
            c <> SPACE /\ c <> TAB /\ c <> NL.
Proof.
  intros Hb Hrun Htok Ht. set (s := Source_init text) in *.
  pose proof (rows_Source_init text) as Hrows. fold s in Hrows.
  destruct (GenericLexer_Instance_lex_run fuel token_types s Hrows)
    as (p0 & _ & Hend & Heq).
  unfold GenericLexer_lex in Hrun. rewrite Heq in Hrun.
  destruct (lex_with (fun _ => token_types) fuel [] (mkInstance s p0))
    as [o self'] eqn:Hloop.
  cbn [fst] in Hrun. subst o.
  destruct (lex_with_run s (fun _ => token_types) (fun _ => Hb)
              (fun result _ =>
                 forall tok t, In tok result -> In t (chain tok) ->
                   ~ In NL (lexeme t) /\
                   exists c, char_at s (start (rng t)) = Ret [c] /\
                             c <> SPACE /\ c <> TAB /\ c <> NL))
    with (fuel := fuel) (result := @nil Token) (p := p0) (toks := toks) (self' := self')
    as (HI & _); try assumption.
  - intros result p c tok' self1 HI Hc Hw Hne Hp tok1 t1 Hin1 Ht1.
    apply in_app_or in Hin1 as [Hin1|[<-|[]]]; [exact (HI tok1 t1 Hin1 Ht1)|].
    destruct (parse_token_Ret s p token_types tok' self1 Hb Hp)
      as (Hv & _ & Hch & _).
    destruct (chain_member s p token_types tok' t1 Hch Ht1) as (k & n & _ & _ & _ & Hu).
    destruct t1 as [k' s' r' l' a']. unfold unlinked, candidate in Hu.
    cbn [kind token_src rng lexeme fst snd] in *.
    injection Hu as _ _ -> ->. cbn [start]. split.
    + intros Hnl. apply In_firstn in Hnl.
      apply valid_iff in Hv as (line & Hl & _).
      rewrite (line_rest_row s p line Hl) in Hnl. apply In_skipn in Hnl.
      pose proof (split_lines_no_newline text) as Hno.
      rewrite Forall_forall in Hno.
      apply (Hno line); [eapply nth_error_In; exact Hl | exact Hnl].
    + destruct (char_at_cases s p c Hc) as [->|[->|(line & x & _ & _ & ->)]];
        [congruence | discriminate |].
      exists x. split; [exact Hc|].
      repeat split; intros ->; discriminate.
  - intros tok1 t1 [].
  - exact (HI tok t Htok Ht).
Qed.

Lemma lex_tokens_start_on_text_witness :
  Forall match_in_bounds test_0_token_types /\
  GenericLexer_lex 3 test_0_token_types (Source_init (lit "a *"))
  = Ret [a_token; star_token] /\
  In star_token [a_token; star_token] /\ In star_token (chain star_token) /\
  ~ In NL (lexeme star_token) /\
  exists c, char_at (Source_init (lit "a *")) (start (rng star_token)) = Ret [c] /\
            c <> SPACE /\ c <> TAB /\ c <> NL.
Proof.
  assert (Forall match_in_bounds test_0_token_types) as Hb
      by (repeat constructor; apply Token_define_in_bounds).
  assert (GenericLexer_lex 3 test_0_token_types (Source_init (lit "a *"))
          = Ret [a_token; star_token]) as Hrun by (vm_compute; reflexivity).
  assert (In star_token [a_token; star_token]) as Hin by (right; left; reflexivity).
  assert (In star_token (chain star_token)) as Hch by (left; reflexivity).
  split; [exact Hb|]. split; [exact Hrun|]. split; [exact Hin|]. split; [exact Hch|].
  exact (lex_tokens_start_on_text 3 test_0_token_types (lit "a *")
           [a_token; star_token] star_token star_token Hb Hrun Hin Hch).
Defined.

(* ================================================================== *)
(** * Further properties: the report *)
(* ================================================================== *)

Lemma index_absent (xs : list nat) (x : nat) :
  ~ In x xs -> index xs x = Raise ValueError.
Proof.
  induction xs as [|y xs IH]; intros H; [reflexivity|].
  cbn [index]. destruct (Nat.eqb_spec y x) as [->|Hne].
  - destruct H. left; reflexivity.
  - rewrite IH by (intros Hin; apply H; right; exact Hin). reflexivity.
Qed.

(** X14. [Lexer.Error] cannot be built for a position below the buffer:
    when the row of the position is not a row of the source, the
    constructor itself raises [ValueError]. *)
Theorem Lexer_Error_outside_buffer (s : Source) (p : Cursor) (msg : str) :
  rows s <= row p ->
  Lexer_Error_init s p msg = Raise ValueError.
Proof.
  intros Hr. unfold Lexer_Error_init.
  assert (forall r, In r (rows_to_show s p) -> r < rows s) as Hin.
  { intros r H. apply rows_to_show_window in H. lia. }
  destruct (rows_to_show s p) as [|r0 rs] eqn:E; [reflexivity|].
  cbn [map py_max obind].
  match goal with
  | |- context [for_each ?f ?xs] =>
      destruct (for_each_ok f xs) as [ys ->]
  end.
  { intros r H. apply Hin in H. unfold getitem.
    destruct (nth_error (lines s) r) eqn:El; cbn [obind]; [eauto|].
    apply nth_error_None in El. unfold rows in *. lia. }
  cbn [obind]. rewrite index_absent; [reflexivity|].
  intros H. apply Hin in H. lia.
Qed.

Lemma Lexer_Error_outside_buffer_witness :
  rows one_letter <= row (mkCursor 1 0) /\
  Lexer_Error_init one_letter (mkCursor 1 0) (lit "msg") = Raise ValueError.
Proof.
  assert (rows one_letter <= row (mkCursor 1 0)) as H by (vm_compute; lia).
  split; [exact H|].
  exact (Lexer_Error_outside_buffer one_letter (mkCursor 1 0) (lit "msg") H).
Defined.





(* ================================================================== *)
(** * Further properties: the Xml lexer *)
(* ================================================================== *)

Lemma consumes_Class (q : ascii -> bool) : consumes (Class q).
Proof.
  intros text k n H. cbn [re_run] in H.
  destruct text as [|c text]; [discriminate|].
  destruct (q c); [|discriminate]. exists text. cbn [length]. split; [lia | exact H].
Qed.

Lemma consumes_Cat (r1 r2 : re) : consumes r1 -> consumes (Cat r1 r2).
Proof.
  intros H1 text k n H. cbn [re_run] in H.
  apply H1 in H as (rest & L & H).
  apply re_run_result in H as (rest' & L' & H).
  exists rest'. split; [lia | exact H].
Qed.

Lemma consumes_Alt (r1 r2 : re) : consumes r1 -> consumes r2 -> consumes (Alt r1 r2).
Proof.
  intros H1 H2 text k n H. cbn [re_run] in H.
  destruct (re_run r1 text k) as [m|] eqn:E.
  - injection H as ->. exact (H1 text k n E).
  - exact (H2 text k n H).
Qed.

Lemma consumes_never_empty (name : string) (r : re) :
  consumes r -> never_empty (Token_define name r).
Proof.
  intros Hc text H. cbn [regex Token_define] in H. unfold re_match in H.
  apply Hc in H as (rest & L & H).
  assert (length text - length rest = 0) as H0 by congruence. lia.
Qed.

(** Every pattern of [xml.py] starts with a character class. *)
Ltac starts_with_a_character :=
  apply consumes_never_empty;
  repeat first [ apply consumes_Class | apply consumes_Alt | apply consumes_Cat ].

Lemma Xml_candidates_never_empty (result : list Token) :
  Forall never_empty (Xml.candidates result).
Proof.
  assert (Forall never_empty Xml.token_types_excluding_text) as H1.
  { repeat (apply Forall_cons; [starts_with_a_character|]). apply Forall_nil. }
  assert (Forall never_empty Xml.token_types) as H2.
  { apply Forall_app. split; [exact H1|].
    apply Forall_cons; [starts_with_a_character | apply Forall_nil]. }
  unfold Xml.candidates. destruct result; [exact H1|].
  destruct (nth_error _ _); [|exact H1].
  destruct (str_eqb _ _); assumption.
Qed.

Lemma remaining_origin_Source_init (text : str) :
  remaining (Source_init text) origin = S (length text).
Proof.
  unfold remaining, origin, Source_init. cbn [row col lines skipn].
  rewrite tail_size_Source_init. lia.
Qed.

(** X16. The Xml lexer always ends, and fails in one way only.  Every kind
    of its vocabulary matches at least one character, so on any text, run
    for more iterations than the text has characters and one, it either
    returns its tokens or raises the [Lexer.Error] of a position where no
    kind of the list chosen there matches. *)
Theorem Xml_lex_terminates (text : str) (fuel : nat) :
  length text + 1 < fuel ->
  (exists toks, Xml.lex fuel (Source_init text) = Ret toks) \/
  (exists q report c,
      Xml.lex fuel (Source_init text) = Raise (Lexer_Error q report) /\
      char_at (Source_init text) q = Ret c /\ in_WHITESPACE c = false /\ c <> EOF).
Proof.
  intros Hf. set (s := Source_init text).
  pose proof (rows_Source_init text) as Hrows. fold s in Hrows.
  destruct (Xml_Instance_lex_run fuel s Hrows) as (p0 & _ & Hend & Hrem & Heq).
  pose proof (remaining_origin_Source_init text) as Hsize. fold s in Hsize.
  assert (valid s p0 = true) as Hv0
      by (destruct Hend as (c & Hc & _); apply char_at_valid; eauto).
  pose proof (lex_with_terminates s Xml.candidates Xml_candidates_in_bounds
                Xml_candidates_never_empty fuel [] p0 Hv0 ltac:(lia)) as Hterm.
  unfold Xml.lex. rewrite Heq.
  destruct (lex_with Xml.candidates fuel [] (mkInstance s p0)) as [[toks|e|] self'] eqn:E;
    cbn [fst] in *; [left; eauto | right | congruence].
  destruct (lex_with_Raise s Xml.candidates Xml_candidates_in_bounds fuel [] p0 e self'
              Hend E) as (_ & q & report & c & -> & _ & _ & Hc & Hw & Hne & _).
  exists q, report, c. auto.
Qed.

Lemma Xml_lex_terminates_witness :
  length (lit "<a>") + 1 < 5 /\
  ((exists toks, Xml.lex 5 (Source_init (lit "<a>")) = Ret toks) \/
   (exists q report c,
       Xml.lex 5 (Source_init (lit "<a>")) = Raise (Lexer_Error q report) /\
       char_at (Source_init (lit "<a>")) q = Ret c /\ in_WHITESPACE c = false /\
       c <> EOF)).
Proof.
  assert (length (lit "<a>") + 1 < 5) as H by (vm_compute; lia).
  split; [exact H|].
  exact (Xml_lex_terminates (lit "<a>") 5 H).
Defined.

Lemma structural_kind_not_Text (k : TokenKind) :
  In k Xml.token_types_excluding_text -> token_type k <> lit "Text".
Proof.
  intros H. cbn [Xml.token_types_excluding_text In] in H.
  repeat (destruct H as [<-|H]; [vm_compute; discriminate|]).
  destruct H.
Qed.

(** X17. Text comes only after [>].  In what the Xml lexer returns, a
    token of type ["Text"] is never the first, and the token before it is
    of type ["Close Opening Tag"]; so no two tokens of type ["Text"]
    follow each other. *)
Theorem Xml_Text_follows_close_opening_tag (fuel : nat) (s : Source)
    (toks : list Token) (i : nat) (t : Token) :
  Xml.lex fuel s = Ret toks ->
  nth_error toks i = Some t ->
  token_type (kind t) = lit "Text" ->
  exists j before,
    i = S j /\ nth_error toks j = Some before /\
    token_type (kind before) = lit "Close Opening Tag".
Proof.
  intros Hrun Hi Hty.
  destruct (Xml_lex_Ret fuel s toks Hrun) as (p & self' & Hv & Hloop).
  destruct (lex_with_emitted s Xml.candidates Xml_candidates_in_bounds fuel p toks self'
              Hv Hloop i t Hi) as (p0 & self1 & Hp).
  destruct (parse_token_Ret s p0 _ t self1 (Xml_candidates_in_bounds _) Hp)
    as (_ & _ & Hch & _).
  destruct (chain_member s p0 _ t t Hch (chain_head t)) as (k & n & Hk & _ & _ & Hu).
  assert (kind t = k) as Hkind
      by (destruct t; unfold unlinked, candidate in Hu; cbn in *; congruence).
  rewrite <- Hkind in Hk.
  assert (i < length toks) as Hlt by (apply nth_error_Some; congruence).
  destruct (exists_last (l := firstn i toks)) as (pre & before & Hpre).
  { intros E. rewrite E in Hk. exact (structural_kind_not_Text _ Hk Hty). }
  rewrite Hpre, Xml_candidates_snoc in Hk.
  destruct (str_eqb (token_type (kind before)) (lit "Close Opening Tag")) eqn:E.
  2:{ destruct (structural_kind_not_Text _ Hk Hty). }
  apply str_eqb_eq in E.
  assert (i = S (length pre)) as Hidx.
  { apply (f_equal (@length Token)) in Hpre.
    rewrite length_firstn, length_app in Hpre. cbn [length] in Hpre. lia. }
  exists (length pre), before. split; [exact Hidx|]. split; [|exact E].
  assert (nth_error (firstn i toks) (length pre) = Some before) as H.
  { rewrite Hpre, nth_error_app2, Nat.sub_diag by lia. reflexivity. }
  rewrite nth_error_firstn in H.
  destruct (Nat.ltb_spec (length pre) i); [exact H | lia].
Qed.

Lemma Xml_Text_follows_close_opening_tag_witness :
  exists toks t,
    Xml.lex 5 (Source_init (lit "<a>bc")) = Ret toks /\
    nth_error toks 3 = Some t /\
    token_type (kind t) = lit "Text" /\
    exists j before,
      3 = S j /\ nth_error toks j = Some before /\
      token_type (kind before) = lit "Close Opening Tag".
Proof.
  eexists. eexists.
  split; [vm_compute; reflexivity|].
  split; [reflexivity|]. split; [reflexivity|].
  eapply (Xml_Text_follows_close_opening_tag 5 (Source_init (lit "<a>bc")));
    [vm_compute; reflexivity | reflexivity | reflexivity].
Defined.

(* ================================================================== *)
(** * Further properties: cursors as integers *)
(* ================================================================== *)

Lemma getitem_int_of_nat {A} (l : list A) (i : nat) :
  getitem_int l (Z.of_nat i) = getitem l i.
Proof.
  unfold getitem_int. destruct (Z.leb_spec 0 (Z.of_nat i)); [|lia].
  rewrite Nat2Z.id. reflexivity.
Qed.

Lemma getitem_int_negative {A} (l : list A) (i : Z) :
  (i < 0)%Z ->
  getitem_int l i
  = if (- Z.of_nat (length l) <=? i)%Z
    then getitem l (Z.to_nat (Z.of_nat (length l) + i))
    else Raise IndexError.
Proof.
  intros H. unfold getitem_int. destruct (Z.leb_spec 0 i); [lia | reflexivity].
Qed.

Lemma cols_int_of_nat (s : Source) (r : nat) :
  cols_int s (Z.of_nat r) = (do n <- cols s r; Ret (Z.of_nat n)).
Proof.
  unfold cols_int, cols. rewrite getitem_int_of_nat.
  destruct (getitem (lines s) r); reflexivity.
Qed.

Lemma valid_int_to_int (s : Source) (p : Cursor) :
  valid_int s (to_int p) = Ret (valid s p).
Proof.
  unfold valid_int, valid, to_int. cbn [int_row int_col].
  destruct (Nat.ltb_spec (row p) (rows s)) as [Hr|Hr];
    destruct (Z.ltb_spec (Z.of_nat (row p)) (Z.of_nat (rows s))); try lia;
    [|reflexivity].
  rewrite cols_int_of_nat. unfold cols, getitem.
  destruct (nth_error (lines s) (row p)) as [line|] eqn:Hl; cbn [obind].
  - f_equal. destruct (Nat.leb_spec (col p) (length line));
      destruct (Z.leb_spec (Z.of_nat (col p)) (Z.of_nat (length line)));
      try reflexivity; lia.
  - apply nth_error_None in Hl. unfold rows in Hr. lia.
Qed.

Lemma char_at_int_to_int (s : Source) (p : Cursor) :
  char_at_int s (to_int p) = char_at s p.
Proof.
  unfold char_at_int, char_at, to_int. cbn [int_row int_col].
  rewrite cols_int_of_nat, !getitem_int_of_nat. unfold cols.
  destruct (getitem (lines s) (row p)) as [line| |] eqn:Hl; cbn [obind];
    try reflexivity.
  assert (row p < rows s) as Hr.
  { unfold getitem in Hl. unfold rows. apply nth_error_Some.
    destruct (nth_error (lines s) (row p)); discriminate. }
  destruct (Nat.eqb_spec (col p) (length line));
    destruct (Z.eqb_spec (Z.of_nat (col p)) (Z.of_nat (length line))); try lia.
  - destruct (Nat.eqb_spec (row p) (rows s - 1));
      destruct (Z.eqb_spec (Z.of_nat (row p)) (Z.of_nat (rows s) - 1));
      try reflexivity; lia.
  - rewrite getitem_int_of_nat. reflexivity.
Qed.

Lemma next_int_to_int (s : Source) (p : Cursor) :
  next_int s (to_int p) = (do q <- next s p; Ret (to_int q)).
Proof.
  unfold next_int, next. rewrite char_at_int_to_int.
  destruct (char_at s p) as [c| |]; cbn [obind]; try reflexivity.
  destruct (str_eqb c EOF); [reflexivity|].
  unfold to_int. cbn [int_row int_col].
  rewrite cols_int_of_nat. unfold cols, getitem.
  destruct (nth_error (lines s) (row p)) as [line|]; cbn [obind]; [|reflexivity].
  destruct (Nat.eqb_spec (col p) (length line));
    destruct (Z.eqb_spec (Z.of_nat (col p)) (Z.of_nat (length line))); try lia;
    cbn [obind row col]; f_equal; f_equal; lia.
Qed.

Lemma to_int_of_non_negative (q : IntCursor) :
  (0 <= int_row q)%Z -> (0 <= int_col q)%Z ->
  q = to_int (mkCursor (Z.to_nat (int_row q)) (Z.to_nat (int_col q))).
Proof.
  intros Hr Hc. destruct q as [r k]. unfold to_int. cbn [row col int_row int_col] in *.
  rewrite !Z2Nat.id by assumption. reflexivity.
Qed.

(** A negative column on a row of the buffer. *)
Lemma negative_column (s : Source) (r : nat) (line : str) (k : Z) :
  nth_error (lines s) r = Some line -> (k < 0)%Z ->
  valid_int s (mkIntCursor (Z.of_nat r) k) = Ret true /\
  ((- Z.of_nat (length line) <= k)%Z ->
   exists x, nth_error line (Z.to_nat (Z.of_nat (length line) + k)) = Some x /\
             char_at_int s (mkIntCursor (Z.of_nat r) k) = Ret [x] /\
             next_int s (mkIntCursor (Z.of_nat r) k)
             = Ret (mkIntCursor (Z.of_nat r) (k + 1))) /\
  ((k < - Z.of_nat (length line))%Z ->
   char_at_int s (mkIntCursor (Z.of_nat r) k) = Raise IndexError /\
   next_int s (mkIntCursor (Z.of_nat r) k) = Raise IndexError).
Proof.
  intros Hl Hk.
  assert (r < rows s) as Hr by (unfold rows; apply nth_error_Some; congruence).
  assert (cols_int s (Z.of_nat r) = Ret (Z.of_nat (length line))) as Hcols.
  { rewrite cols_int_of_nat. unfold cols, getitem. rewrite Hl. reflexivity. }
  assert (getitem_int (lines s) (Z.of_nat r) = Ret line) as Hline.
  { rewrite getitem_int_of_nat. unfold getitem. rewrite Hl. reflexivity. }
  split; [|split].
  - unfold valid_int. cbn [int_row int_col].
    destruct (Z.ltb_spec (Z.of_nat r) (Z.of_nat (rows s))); [|lia].
    rewrite Hcols. cbn [obind]. f_equal. apply Z.leb_le. lia.
  - intros Hlo.
    destruct (nth_error line (Z.to_nat (Z.of_nat (length line) + k))) as [x|] eqn:Hx.
    2:{ apply nth_error_None in Hx. lia. }
    assert (char_at_int s (mkIntCursor (Z.of_nat r) k) = Ret [x]) as Hc.
    { unfold char_at_int. cbn [int_row int_col]. rewrite Hcols. cbn [obind].
      destruct (Z.eqb_spec k (Z.of_nat (length line))); [lia|].
      rewrite Hline. cbn [obind]. rewrite (getitem_int_negative line k Hk).
      destruct (Z.leb_spec (- Z.of_nat (length line)) k); [|lia].
      unfold getitem. rewrite Hx. reflexivity. }
    exists x. split; [reflexivity|]. split; [exact Hc|].
    unfold next_int. rewrite Hc. cbn [obind]. rewrite one_char_not_EOF.
    cbn [int_row int_col]. rewrite Hcols. cbn [obind].
    destruct (Z.eqb_spec k (Z.of_nat (length line))); [lia | reflexivity].
  - intros Hlo.
    assert (char_at_int s (mkIntCursor (Z.of_nat r) k) = Raise IndexError) as Hc.
    { unfold char_at_int. cbn [int_row int_col]. rewrite Hcols. cbn [obind].
      destruct (Z.eqb_spec k (Z.of_nat (length line))); [lia|].
      rewrite Hline. cbn [obind]. rewrite (getitem_int_negative line k Hk).
      destruct (Z.leb_spec (- Z.of_nat (length line)) k); [lia | reflexivity]. }
    split; [exact Hc|]. unfold next_int. rewrite Hc. reflexivity.
Qed.

Lemma char_at_int_cases (s : Source) (q : IntCursor) (c : str) :
  char_at_int s q = Ret c ->
  (c = EOF /\ (int_row q = Z.of_nat (rows s) - 1)%Z /\
   exists line, getitem_int (lines s) (int_row q) = Ret line /\
                int_col q = Z.of_nat (length line)) \/
  c = [NL] \/ exists x, c = [x].
Proof.
  unfold char_at_int, cols_int. intros H.
  destruct (getitem_int (lines s) (int_row q)) as [line| |] eqn:Hl; cbn [obind] in H;
    try discriminate.
  destruct (Z.eqb_spec (int_col q) (Z.of_nat (length line))) as [E|E].
  - destruct (Z.eqb_spec (int_row q) (Z.of_nat (rows s) - 1)) as [R|R];
      injection H as <-; [left | right; left; reflexivity].
    split; [reflexivity|]. split; [exact R|]. exists line. auto.
  - destruct (getitem_int line (int_col q)) as [x| |]; cbn [obind] in H;
      try discriminate.
    injection H as <-. right; right. eauto.
Qed.

(** X3. [char_at] over every cursor a caller can hand it.  On a cursor
    with no negative field, [valid] returns and [char_at] returns exactly
    where [valid] accepts, raising [IndexError] elsewhere.  [valid] also
    accepts a negative column on any row of the buffer: there [char_at]
    returns the character counted from the end of the line, and raises
    [IndexError] below the start of the line.  What [char_at] returns is
    the end-of-input marker or one character, and it is the marker at one
    cursor only, the end of the last line; at the end of the last line
    taken as row [-1] it is the newline. *)
Theorem char_at_over_integers (s : Source) :
  (forall q,
      (0 <= int_row q)%Z -> (0 <= int_col q)%Z ->
      exists b, valid_int s q = Ret b /\
                (b = true <-> exists c, char_at_int s q = Ret c) /\
                (b = false -> char_at_int s q = Raise IndexError)) /\
  (forall r line k,
      nth_error (lines s) r = Some line -> (k < 0)%Z ->
      valid_int s (mkIntCursor (Z.of_nat r) k) = Ret true /\
      ((- Z.of_nat (length line) <= k)%Z ->
       exists x, nth_error line (Z.to_nat (Z.of_nat (length line) + k)) = Some x /\
                 char_at_int s (mkIntCursor (Z.of_nat r) k) = Ret [x]) /\
      ((k < - Z.of_nat (length line))%Z ->
       char_at_int s (mkIntCursor (Z.of_nat r) k) = Raise IndexError)) /\
  (forall q c, char_at_int s q = Ret c -> c = EOF \/ exists x, c = [x]) /\
  (forall q, char_at_int s q = Ret EOF <->
             1 <= rows s /\ q = to_int (eof_position s)) /\
  (1 <= rows s ->
   char_at_int s (mkIntCursor (-1) (int_col (to_int (eof_position s)))) = Ret [NL]).
Proof.
  split; [|split; [|split; [|split]]].
  - intros q Hr Hc. rewrite (to_int_of_non_negative q Hr Hc).
    set (p := mkCursor (Z.to_nat (int_row q)) (Z.to_nat (int_col q))).
    exists (valid s p). rewrite valid_int_to_int, char_at_int_to_int.
    split; [reflexivity|]. split; [apply char_at_valid | apply char_at_invalid].
  - intros r line k Hl Hk.
    destruct (negative_column s r line k Hl Hk) as (Hv & Hin & Hout).
    split; [exact Hv|]. split.
    + intros Hlo. destruct (Hin Hlo) as (x & Hx & Hc & _). eauto.
    + intros Hlo. apply (Hout Hlo).
  - intros q c Hc. destruct (char_at_int_cases s q c Hc) as [(-> & _)|[->|H]]; eauto.
  - intros q. split.
    + intros H. destruct (char_at_int_cases s q EOF H)
        as [(_ & Hrow & line & Hl & Hcol)|[E|(x & E)]]; try discriminate.
      assert (0 <= int_row q)%Z as Hr.
      { destruct (Z.leb_spec 0 (int_row q)) as [|Hneg]; [assumption|].
        rewrite (getitem_int_negative _ _ Hneg) in Hl.
        destruct (Z.leb_spec (- Z.of_nat (length (lines s))) (int_row q));
          [|discriminate]. unfold rows in Hrow. lia. }
      assert (0 <= int_col q)%Z as Hc by lia.
      rewrite (to_int_of_non_negative q Hr Hc) in H |- *.
      rewrite char_at_int_to_int in H.
      apply char_at_EOF_iff in H as [Hv ->].
      split; [lia | reflexivity].
    + intros [Hrows ->]. rewrite char_at_int_to_int.
      apply eof_position_valid. exact Hrows.
  - intros Hrows. unfold char_at_int, cols_int, eof_position, to_int.
    cbn [int_row int_col row col].
    assert (getitem_int (lines s) (-1)
            = Ret (nth (rows s - 1) (lines s) [])) as Hlast.
    { rewrite getitem_int_negative by lia.
      destruct (Z.leb_spec (- Z.of_nat (length (lines s))) (-1));
        [|unfold rows in *; lia].
      unfold getitem.
      replace (Z.to_nat (Z.of_nat (length (lines s)) + -1)) with (rows s - 1)
        by (unfold rows; lia).
      rewrite (nth_error_nth' (lines s) []) by (unfold rows in *; lia).
      reflexivity. }
    rewrite Hlast. cbn [obind]. rewrite Z.eqb_refl.
    destruct (Z.eqb_spec (-1) (Z.of_nat (rows s) - 1)); [lia | reflexivity].
Qed.

(** What the reading of the functions gives on ["ab\n\nc"]: [valid]
    accepts column [-5] of the first row, where [char_at] and [next]
    raise; row [-1], column [1] is the end of the last line, read as a
    newline; and [next] steps from column [-1] of the first row into the
    buffer. *)
Example integer_cursors_on_three_lines :
  valid_int three_lines (mkIntCursor 0 (-5)) = Ret true /\
  char_at_int three_lines (mkIntCursor 0 (-5)) = Raise IndexError /\
  next_int three_lines (mkIntCursor 0 (-5)) = Raise IndexError /\
  char_at_int three_lines (mkIntCursor (-1) 1) = Ret [NL] /\
  char_at_int three_lines (mkIntCursor 0 (-1)) = Ret (lit "b") /\
  next_int three_lines (mkIntCursor 0 (-1)) = Ret (mkIntCursor 0 0).
Proof. repeat split; vm_compute; reflexivity. Qed.

(** X4. [next] over every cursor a caller can hand it.  On the cursors of
    the engine it is the [next] of the engine.  On a cursor with no
    negative field it raises [IndexError] where [valid] refuses and
    [StopIteration] at the end-of-input position, and otherwise returns
    the next column, or the start of the next row at the end of a line: a
    position [valid] accepts.  On a negative column of a row of the buffer,
    which [valid] accepts, it steps to the next column where the column
    counts a character from the end of the line, and raises [IndexError]
    below the start of the line. *)
Theorem next_over_integers (s : Source) :
  (forall p, next_int s (to_int p) = (do q <- next s p; Ret (to_int q))) /\
  (forall q,
      (0 <= int_row q)%Z -> (0 <= int_col q)%Z ->
      (valid_int s q = Ret false -> next_int s q = Raise IndexError) /\
      (char_at_int s q = Ret EOF -> next_int s q = Raise StopIteration) /\
      (forall c line,
          char_at_int s q = Ret c -> c <> EOF ->
          getitem_int (lines s) (int_row q) = Ret line ->
          next_int s q
          = Ret (if (int_col q =? Z.of_nat (length line))%Z
                 then mkIntCursor (int_row q + 1) 0
                 else mkIntCursor (int_row q) (int_col q + 1)) /\
          exists q', next_int s q = Ret q' /\ valid_int s q' = Ret true)) /\
  (forall r line k,
      nth_error (lines s) r = Some line -> (k < 0)%Z ->
      valid_int s (mkIntCursor (Z.of_nat r) k) = Ret true /\
      ((- Z.of_nat (length line) <= k)%Z ->
       next_int s (mkIntCursor (Z.of_nat r) k) = Ret (mkIntCursor (Z.of_nat r) (k + 1))) /\
      ((k < - Z.of_nat (length line))%Z ->
       next_int s (mkIntCursor (Z.of_nat r) k) = Raise IndexError)).
Proof.
  split; [apply next_int_to_int|]. split.
  - intros q Hr Hc. rewrite (to_int_of_non_negative q Hr Hc).
    set (p := mkCursor (Z.to_nat (int_row q)) (Z.to_nat (int_col q))).
    rewrite valid_int_to_int, char_at_int_to_int, next_int_to_int.
    split; [|split].
    + intros Hv. injection Hv as Hv. unfold next.
      rewrite (char_at_invalid s p Hv). reflexivity.
    + intros H. unfold next. rewrite H. reflexivity.
    + intros c line Hch Hne Hl.
      unfold to_int in Hl. cbn [int_row] in Hl. rewrite getitem_int_of_nat in Hl.
      unfold getitem in Hl.
      destruct (nth_error (lines s) (row p)) as [line'|] eqn:Hl'; [|discriminate].
      injection Hl as ->.
      destruct (next_spec s p c Hch (str_eqb_false c Hne)) as (p' & Hn & Hv' & _).
      split.
      * unfold next. rewrite Hch. cbn [obind]. rewrite (str_eqb_false c Hne).
        unfold cols, getitem. rewrite Hl'. cbn [obind].
        unfold to_int. cbn [int_row int_col row col].
        destruct (Nat.eqb_spec (col p) (length line));
          destruct (Z.eqb_spec (Z.of_nat (col p)) (Z.of_nat (length line))); try lia;
          cbn [obind row col]; f_equal; f_equal; lia.
      * exists (to_int p'). rewrite Hn. cbn [obind].
        split; [reflexivity|]. rewrite valid_int_to_int, Hv'. reflexivity.
  - intros r line k Hl Hk.
    destruct (negative_column s r line k Hl Hk) as (Hv & Hin & Hout).
    split; [exact Hv|]. split.
    + intros Hlo. destruct (Hin Hlo) as (x & _ & _ & Hn). exact Hn.
    + intros Hlo. apply (Hout Hlo).
Qed.

Lemma char_at_over_integers_witness :
  valid_int three_lines (mkIntCursor 0 (-5)) = Ret true /\
  char_at_int three_lines (mkIntCursor 0 (-5)) = Raise IndexError /\
  char_at_int three_lines (mkIntCursor 0 (-1)) = Ret (lit "b") /\
  char_at_int three_lines (mkIntCursor (-1) 1) = Ret [NL] /\
  char_at_int three_lines (mkIntCursor 2 1) = Ret EOF.
Proof.
  destruct (char_at_over_integers three_lines) as (_ & Hneg & _ & Heof & Hlast).
  destruct (Hneg 0 (lit "ab") (-5)%Z eq_refl eq_refl) as (Hv & _ & Hout).
  destruct (Hneg 0 (lit "ab") (-1)%Z eq_refl eq_refl) as (_ & Hin & _).
  destruct (Hin ltac:(vm_compute; discriminate)) as (x & Hx & Hc).
  vm_compute in Hx. injection Hx as <-.
  split; [exact Hv|]. split; [exact (Hout eq_refl)|]. split; [exact Hc|].
  split; [apply Hlast; vm_compute; lia|].
  apply (Heof (mkIntCursor 2 1)). split; [vm_compute; lia | reflexivity].
Defined.

Lemma next_over_integers_witness :
  next_int three_lines (mkIntCursor 0 (-1)) = Ret (mkIntCursor 0 0) /\
  next_int three_lines (mkIntCursor 0 (-5)) = Raise IndexError /\
  next_int three_lines (mkIntCursor 0 2) = Ret (mkIntCursor 1 0) /\
  next_int three_lines (mkIntCursor 2 1) = Raise StopIteration /\
  next_int three_lines (mkIntCursor 3 0) = Raise IndexError.
Proof.
  destruct (next_over_integers three_lines) as (_ & Hpos & Hneg).
  destruct (Hneg 0 (lit "ab") (-1)%Z eq_refl eq_refl) as (_ & Hin & _).
  destruct (Hneg 0 (lit "ab") (-5)%Z eq_refl eq_refl) as (_ & _ & Hout).
  split; [exact (Hin ltac:(vm_compute; discriminate))|].
  split; [exact (Hout eq_refl)|].
  split; [|split].
  - destruct (Hpos (mkIntCursor 0 2) ltac:(vm_compute; discriminate)
                   ltac:(vm_compute; discriminate)) as (_ & _ & Hstep).
    destruct (Hstep [NL] (lit "ab") eq_refl ltac:(discriminate) eq_refl) as [Hn _].
    exact Hn.
  - destruct (Hpos (mkIntCursor 2 1) ltac:(vm_compute; discriminate)
                   ltac:(vm_compute; discriminate)) as (_ & Hstop & _).
    exact (Hstop eq_refl).
  - destruct (Hpos (mkIntCursor 3 0) ltac:(vm_compute; discriminate)
                   ltac:(vm_compute; discriminate)) as (Hbad & _).
    exact (Hbad eq_refl).
Defined.
